(** * cat: concatenate files to standard output

    A shallow embedding of [cat.go] (package main of changkun/cat) and of
    the three test writers of its test file, with the properties of the
    file streamer [cat] and of the entry point [main].

    The program talks to the operating system through [os.Lstat],
    [os.Readlink], [os.Open], the [Read] method of [os.File] and the writer it is
    handed.  Those calls are modelled as operations of a small state monad
    over a [World]: the writer, what was printed on standard error, and
    the chronological list of calls made.  The file system is a table of
    the kernel's answers, keyed by the path string the process passes. *)

From Stdlib Require Import String Ascii List ZArith Lia Bool.
From Stdlib Require Import Strings.Byte.
Import ListNotations.

Local Open Scope string_scope.
Local Open Scope list_scope.
Local Open Scope nat_scope.

(** String concatenation, as [+] on Go strings and [%s] in a format. *)
Infix "+++" := String.append (right associativity, at level 60).

(** ** Go values *)

(** A byte slice. *)
Definition bytes := list byte.

(** Go strings are byte sequences; [[]byte(s)]. *)
Definition bytes_of_string (s : string) : bytes := list_byte_of_string s.

(** Error values.  The sentinels of package io are compared by identity
    in [io.Copy], so they are constructors of their own. *)
Inductive errorValue : Type :=
| io_EOF
| io_ErrUnexpectedEOF
| io_ErrShortWrite
| io_errInvalidWrite
| fmt_Errorf (msg : string)
| os_PathError (Op Path Err : string).

(** The [Error()] method. *)
Definition Error (e : errorValue) : string :=
  match e with
  | io_EOF => "EOF"
  | io_ErrUnexpectedEOF => "unexpected EOF"
  | io_ErrShortWrite => "short write"
  | io_errInvalidWrite => "invalid write result"
  | fmt_Errorf msg => msg
  | os_PathError op path err => op +++ " " +++ path +++ ": " +++ err
  end.

(** The interface type [error]; [None] is [nil]. *)
Definition error := option errorValue.

Definition is_EOF (e : errorValue) : bool :=
  match e with io_EOF => true | _ => false end.

(** A call that returns [(value, err)] and whose value is only looked at
    when [err == nil]. *)
Inductive Result (A : Type) : Type :=
| Ok (a : A)
| Fail (e : errorValue).
Arguments Ok {A} a.
Arguments Fail {A} e.

(** ** path/filepath.Clean (Unix) *)

Module filepath.

Definition Separator : ascii := "/"%char.

Definition IsPathSeparator (c : ascii) : bool := Ascii.eqb c Separator.

Definition isDot (c : ascii) : bool := Ascii.eqb c "."%char.

(** [out.w--; for out.w > dotdot && !IsPathSeparator(out.index(out.w)) { out.w-- }]
    where [backtrack out dotdot w] runs the [for] from the decremented [w]. *)
Fixpoint backtrack (out : list ascii) (dotdot w : nat) : nat :=
  match w with
  | 0 => 0
  | S w' =>
      if (dotdot <? w) && negb (IsPathSeparator (nth w out "000"%char))
      then backtrack out dotdot w'
      else w
  end.

(** The element copied by the default case, and what follows it:
    [for ; r < n && !IsPathSeparator(path[r]); r++ { out.append(path[r]) }]. *)
Fixpoint element (p : list ascii) : list ascii * list ascii :=
  match p with
  | [] => ([], [])
  | c :: p' =>
      if IsPathSeparator c then ([], p)
      else let '(e, rest) := element p' in (c :: e, rest)
  end.

(** The loop [for r < n { switch ... }].  [p] is [path[r:]], [out] is the
    written part [buf[:w]] of the lazy buffer.  Every turn reads at least
    one byte of [p], so [length p] turns are enough; see [cleanLoop_fuel]. *)
Fixpoint cleanLoop (fuel : nat) (rooted : bool) (p out : list ascii)
    (dotdot : nat) : list ascii :=
  match fuel with
  | 0 => out
  | S fuel' =>
      match p with
      | [] => out
      | c :: p1 =>
          if IsPathSeparator c then
            (* empty path element *)
            cleanLoop fuel' rooted p1 out dotdot
          else if isDot c && match p1 with
                             | [] => true
                             | c1 :: _ => IsPathSeparator c1
                             end then
            (* . element *)
            cleanLoop fuel' rooted p1 out dotdot
          else if isDot c && match p1 with
                             | c1 :: [] => isDot c1
                             | c1 :: c2 :: _ => isDot c1 && IsPathSeparator c2
                             | [] => false
                             end then
            (* .. element: remove to last separator *)
            let p2 := tl p1 in
            if dotdot <? length out then
              (* can backtrack *)
              let w := backtrack out dotdot (length out - 1) in
              cleanLoop fuel' rooted p2 (firstn w out) dotdot
            else if negb rooted then
              (* cannot backtrack, but not rooted, so append .. element *)
              let out1 := if 0 <? length out then out ++ [Separator] else out in
              let out2 := out1 ++ ["."%char; "."%char] in
              cleanLoop fuel' rooted p2 out2 (length out2)
            else
              cleanLoop fuel' rooted p2 out dotdot
          else
            (* real path element: add slash if needed, copy element *)
            let out1 :=
              if (rooted && negb (length out =? 1)) || (negb rooted && negb (length out =? 0))
              then out ++ [Separator] else out in
            let '(e, rest) := element p in
            cleanLoop fuel' rooted rest (out1 ++ e) dotdot
      end
  end.

(** [func Clean(path string) string], with an empty volume name. *)
Definition Clean (path : string) : string :=
  let p := list_ascii_of_string path in
  match p with
  | [] => "."
  | c :: p' =>
      let rooted := IsPathSeparator c in
      let out :=
        if rooted then cleanLoop (length p) rooted p' [Separator] 1
        else cleanLoop (length p) rooted p [] 0 in
      (* Turn empty string into "." *)
      string_of_list_ascii (match out with [] => ["."%char] | _ => out end)
  end.

End filepath.

(** ** Package os: file modes, file information, the file system *)

Definition nl : string := String "010"%char EmptyString.

(** [type FileMode uint32] and the mode bits of package io/fs. *)
Definition FileMode := Z.

Definition ModeDir        : FileMode := Z.shiftl 1 31.
Definition ModeSymlink    : FileMode := Z.shiftl 1 27.
Definition ModeDevice     : FileMode := Z.shiftl 1 26.
Definition ModeNamedPipe  : FileMode := Z.shiftl 1 25.
Definition ModeSocket     : FileMode := Z.shiftl 1 24.
Definition ModeCharDevice : FileMode := Z.shiftl 1 21.
Definition ModeIrregular  : FileMode := Z.shiftl 1 19.

Definition ModeType : FileMode :=
  Z.lor ModeDir (Z.lor ModeSymlink (Z.lor ModeNamedPipe (Z.lor ModeSocket
    (Z.lor ModeDevice (Z.lor ModeCharDevice ModeIrregular))))).

(** What [cat] reads of an [os.FileInfo]. *)
Record FileInfo : Type := mkFileInfo {
  Name : string;
  Mode : FileMode
}.

(** [func (m FileMode) IsDir() bool { return m&ModeDir != 0 }] *)
Definition IsDir (i : FileInfo) : bool := negb (Z.land (Mode i) ModeDir =? 0)%Z.

(** [i.Mode()&os.ModeSymlink != 0] *)
Definition isSymlink (i : FileInfo) : bool := negb (Z.land (Mode i) ModeSymlink =? 0)%Z.

(** [func (m FileMode) IsRegular() bool { return m&ModeType == 0 }] *)
Definition IsRegular (m : FileMode) : bool := (Z.land m ModeType =? 0)%Z.

(** [os.basename], which names the [FileInfo] that [os.Lstat] returns:
    trailing slashes are removed (the first byte stays), then the leading
    directory name.  Both loops of the source walk the name from its end,
    so they run here on the reversed name. *)
Fixpoint trimSlashes (rname : list ascii) : list ascii :=
  match rname with
  | c :: ((_ :: _) as rest) =>
      if filepath.IsPathSeparator c then trimSlashes rest else rname
  | _ => rname
  end.

Fixpoint untilSlash (rname : list ascii) : list ascii :=
  match rname with
  | [] => []
  | c :: rest => if filepath.IsPathSeparator c then [] else c :: untilSlash rest
  end.

Definition basename (name : string) : string :=
  match trimSlashes (rev (list_ascii_of_string name)) with
  | [] => ""
  | last :: before => string_of_list_ascii (rev (last :: untilSlash before))
  end.

(** An open regular file, as [Read] sees it: the bytes not yet read, and
    the error the kernel raises once they are used up ([nil]: none, the
    read reports [io.EOF]). *)
Record File : Type := mkFile {
  unread : bytes;
  fault : error
}.

(** The kernel's answers, per path string as the process passes it:
    [lstat(2)] (the mode bits of the entry itself, symbolic links are not
    followed), [readlink(2)] (the text stored in a link) and [open(2)]
    for reading. *)
Record FS : Type := mkFS {
  lstat : string -> Result FileMode;
  readlink : string -> Result string;
  open : string -> Result File
}.

Definition ENOENT : string := "no such file or directory".

(** The empty path names nothing: [lstat(2)] and [open(2)] answer ENOENT
    before any lookup. *)
Definition sys_lstat (fs : FS) (name : string) : Result FileMode :=
  if String.eqb name "" then Fail (os_PathError "lstat" name ENOENT)
  else lstat fs name.

Definition sys_open (fs : FS) (name : string) : Result File :=
  if String.eqb name "" then Fail (os_PathError "open" name ENOENT)
  else open fs name.

(** ** The writer interface and the writers of the test file *)

(** [io.Writer]: [Write(p []byte) (n int, err error)], on a writer whose
    state the call may change. *)
Class Writer (W : Type) : Type :=
  Write : W -> bytes -> W * (Z * error).

(** [type completeWriter struct{ buf []byte }] *)
Record completeWriter : Type := mkCompleteWriter { cbuf : bytes }.

Definition newCompleteWriter : completeWriter := mkCompleteWriter [].

#[export] Instance completeWriter_Write : Writer completeWriter :=
  fun c b => (mkCompleteWriter (cbuf c ++ b), (Z.of_nat (length b), None)).

(** [type incompleteWriter struct{ buf []byte }] *)
Record incompleteWriter : Type := mkIncompleteWriter { ibuf : bytes }.

Definition newIncompleteWriter : incompleteWriter := mkIncompleteWriter [].

#[export] Instance incompleteWriter_Write : Writer incompleteWriter :=
  fun c b =>
    match b with
    | [] => (c, (0%Z, Some io_EOF))
    | b0 :: _ => (mkIncompleteWriter (ibuf c ++ [b0]), (1%Z, None))
    end.

(** [type faultyWriter struct{}] *)
Inductive faultyWriter : Type := mkFaultyWriter.

Definition newFaultyWriter : faultyWriter := mkFaultyWriter.

#[export] Instance faultyWriter_Write : Writer faultyWriter :=
  fun f _ => (f, (0%Z, Some io_ErrUnexpectedEOF)).

(** ** The world and its monad *)

(** The calls the program makes, in the order it makes them. *)
Inductive event : Type :=
| EvLstat (name : string)
| EvReadlink (name : string)
| EvOpen (name : string)
| EvRead (p : bytes)
| EvWrite (p : bytes) (n : Z) (err : error)
| EvClose
| EvStderr (text : string).

(** [sink] is the writer [w] handed to [cat] ([os.Stdout] in [main]),
    [stderr] what was printed on [os.Stderr], [trace] the calls so far. *)
Record World (W : Type) : Type := mkWorld {
  sink : W;
  stderr : string;
  trace : list event
}.
Arguments mkWorld {W} _ _ _.
Arguments sink {W} _.
Arguments stderr {W} _.
Arguments trace {W} _.

Definition M (W A : Type) : Type := World W -> A * World W.

Definition ret {W A : Type} (a : A) : M W A := fun s => (a, s).

Definition bind {W A B : Type} (c : M W A) (k : A -> M W B) : M W B :=
  fun s => let '(a, s') := c s in k a s'.

Declare Scope go_scope.
Delimit Scope go_scope with go.
Notation "x <- c ;; k" := (bind c (fun x => k))
  (at level 61, c at next level, right associativity) : go_scope.
Notation "' pat <- c ;; k" := (bind c (fun x => match x with pat => k end))
  (at level 61, pat pattern, c at next level, right associativity) : go_scope.
Notation "c ;;; k" := (bind c (fun _ => k))
  (at level 61, right associativity) : go_scope.
Local Open Scope go_scope.

Definition emit {W : Type} (e : event) : M W unit :=
  fun s => (tt, mkWorld (sink s) (stderr s) (trace s ++ [e])).

Section Program.

Context {W : Type} `{Writer W}.

(** The file system the process runs on. *)
Variable fs : FS.

(** *** The calls *)

(** [os.Lstat]: the [FileInfo] is named by the base name of the path. *)
Definition os_Lstat (name : string) : M W (Result FileInfo) :=
  emit (EvLstat name) ;;;
  ret (match sys_lstat fs name with
       | Ok m => Ok (mkFileInfo (basename name) m)
       | Fail e => Fail e
       end).

(** [os.Readlink]: the empty string comes with a non-nil error. *)
Definition os_Readlink (name : string) : M W (string * error) :=
  emit (EvReadlink name) ;;;
  ret (match readlink fs name with
       | Ok target => (target, None)
       | Fail e => ("", Some e)
       end).

(** [os.Open] *)
Definition os_Open (name : string) : M W (Result File) :=
  emit (EvOpen name) ;;;
  ret (sys_open fs name).

(** [f.Read(b)] with [len(b) = len_b]: nothing is read into an empty
    buffer; at the end of the bytes the pending fault or [io.EOF];
    otherwise as many bytes as fit. *)
Definition File_Read (f : File) (len_b : nat) : M W (File * (bytes * error)) :=
  let r :=
    match len_b with
    | 0 => (f, ([], None))
    | _ =>
        match unread f with
        | [] => (f, ([], Some (match fault f with Some e => e | None => io_EOF end)))
        | _ => (mkFile (skipn len_b (unread f)) (fault f),
                (firstn len_b (unread f), None))
        end
    end in
  emit (EvRead (fst (snd r))) ;;; ret r.

(** [f.Close()] *)
Definition File_Close (f : File) : M W error :=
  emit EvClose ;;; ret None.

(** [w.Write(p)] on the world's writer. *)
Definition w_Write (p : bytes) : M W (Z * error) :=
  fun s =>
    let '(w', (n, err)) := Write (sink s) p in
    ((n, err), mkWorld w' (stderr s) (trace s ++ [EvWrite p n err])).

(** [fmt.Fprintf(os.Stderr, ...)] with the formatted [text]. *)
Definition Fprintf_Stderr (text : string) : M W unit :=
  fun s => (tt, mkWorld (sink s) (stderr s +++ text) (trace s ++ [EvStderr text])).

(** *** io.Copy *)

(** The loop of [io.copyBuffer] with a buffer of [size] bytes.  A turn
    that does not end the loop has read at least one byte, so
    [S (length (unread src))] turns are enough; see [copyLoop_fuel]. *)
Fixpoint copyLoop (fuel size : nat) (src : File) (written : Z) : M W (Z * error) :=
  match fuel with
  | 0 => ret (written, None)
  | S fuel' =>
      '(src', (buf, er)) <- File_Read src size ;;
      let nr := Z.of_nat (length buf) in
      '(written', break) <-
        (if (0 <? nr)%Z then
           '(nw, ew) <- w_Write buf ;;
           let '(nw, ew) :=
             if ((nw <? 0) || (nr <? nw))%Z
             then (0%Z, match ew with None => Some io_errInvalidWrite | _ => ew end)
             else (nw, ew) in
           let written := (written + nw)%Z in
           match ew with
           | Some e => ret (written, Some (Some e))
           | None =>
               if negb (nr =? nw)%Z then ret (written, Some (Some io_ErrShortWrite))
               else ret (written, None)
           end
         else ret (written, None)) ;;
      match break with
      | Some err => ret (written', err)
      | None =>
          match er with
          | Some e => ret (written', if is_EOF e then None else Some e)
          | None => copyLoop fuel' size src' written'
          end
      end
  end.

(** [size := 32 * 1024] *)
Definition copyBufSize : nat := 32 * 1024.

(** [io.Copy(w, src)]: the loop of [copyBuffer] with its own buffer.  The
    shortcuts through [WriterTo] and [ReaderFrom] move the same bytes and
    return the same first error. *)
Definition io_Copy (src : File) : M W (Z * error) :=
  copyLoop (S (length (unread src))) copyBufSize src 0%Z.

(** *** cat.go *)

(** [func cat(src string, w io.Writer) error]; [w] is the world's sink. *)
Definition cat (src : string) : M W error :=
  let src := filepath.Clean src in
  r <- os_Lstat src ;;
  match r with
  | Fail _ => ret (Some (fmt_Errorf (src +++ ": No such file or directory")))
  | Ok i =>
      if IsDir i then ret (Some (fmt_Errorf (Name i +++ ": Is a directory")))
      else
        src <- (if isSymlink i
                then ' (target, _) <- os_Readlink src ;; ret target
                else ret src) ;;
        r <- os_Open src ;;
        match r with
        | Fail _ => ret (Some (fmt_Errorf ("cannot open " +++ src)))
        | Ok f =>
            ' (_, err) <- io_Copy f ;;
            File_Close f ;;;
            ret err
        end
  end.

(** The loop [for _, arg := range args] of [main]. *)
Fixpoint rangeArgs (args : list string) (errs : list error) : M W (list error) :=
  match args with
  | [] => ret errs
  | arg :: rest =>
      err <- cat arg ;;
      rangeArgs rest (errs ++ [err])
  end.

(** The deferred function of [main]. *)
Fixpoint reportErrs (errs : list error) : M W unit :=
  match errs with
  | [] => ret tt
  | err :: rest =>
      match err with
      | Some e => Fprintf_Stderr ("cat: " +++ Error e +++ nl)
      | None => ret tt
      end ;;;
      reportErrs rest
  end.

(** [func main()] from [var errs []error] on; [args] is [flag.Args()],
    [stdin] is [os.Stdin], the world's sink is [os.Stdout]. *)
Definition main (args : list string) (stdin : File) : M W unit :=
  errs <- match args with
          | [] => ' (_, err) <- io_Copy stdin ;; ret [err]
          | _ => rangeArgs args []
          end ;;
  reportErrs errs.

End Program.

Arguments cat {W _} fs src _.
Arguments main {W _} fs args stdin _.

(** ** A file system to run on

    The kernel's answers in a checkout laid out like the tests' fixture:
    a directory [testdata] with regular files [a.txt], [b.md], [x.png], a
    link [c.txt] to [testdata/a.txt], a link [d.txt] to the missing
    [testdata/none.txt], and besides them a directory [testdata/sub], a
    link [testdata/up] to the directory [testdata] and a link
    [testdata/gone] whose text cannot be read.  The entries are listed
    under their cleaned paths, the only ones [cat] asks for; every other
    path is answered ENOENT, as it is for the paths through entries that
    do not exist. *)

Fixpoint answer {A : Type} (table : list (string * A)) (name : string) : option A :=
  match table with
  | [] => None
  | (k, a) :: rest => if String.eqb k name then Some a else answer rest name
  end.

Definition answerOr {A : Type} (table : list (string * A)) (op name : string) : Result A :=
  match answer table name with
  | Some a => Ok a
  | None => Fail (os_PathError op name ENOENT)
  end.

Definition a_txt : bytes := bytes_of_string "hello".
Definition b_md : bytes := bytes_of_string "world".
Definition x_png : bytes := [x89; x50; x4e; x47; x0d; x0a; x1a; x0a; x00; xff].

Definition testdata : FS :=
  mkFS
    (answerOr [ ("testdata", Z.lor ModeDir 493);
                ("testdata/sub", Z.lor ModeDir 493);
                ("testdata/a.txt", 420%Z);
                ("testdata/b.md", 420%Z);
                ("testdata/x.png", 420%Z);
                ("testdata/c.txt", Z.lor ModeSymlink 511);
                ("testdata/d.txt", Z.lor ModeSymlink 511);
                ("testdata/up", Z.lor ModeSymlink 511);
                ("testdata/gone", Z.lor ModeSymlink 511) ] "lstat")
    (answerOr [ ("testdata/c.txt", "testdata/a.txt");
                ("testdata/d.txt", "testdata/none.txt");
                ("testdata/up", "testdata") ] "readlink")
    (answerOr [ ("testdata/a.txt", mkFile a_txt None);
                ("testdata/b.md", mkFile b_md None);
                ("testdata/x.png", mkFile x_png None);
                ("testdata", mkFile [] (Some (os_PathError "read" "testdata" "is a directory")));
                ("testdata/sub", mkFile [] (Some (os_PathError "read" "testdata/sub" "is a directory"))) ]
              "open").

(** A fresh world around a writer. *)
Definition world {W : Type} (w : W) : World W := mkWorld w "" [].

(** ** Reading a trace *)

(** The bytes a [Write] call reports as taken. *)
Definition accepted (e : event) : bytes :=
  match e with
  | EvWrite p n _ => firstn (Z.to_nat n) p
  | _ => []
  end.

(** The bytes written to the writer, in order. *)
Definition written (tr : list event) : bytes := flat_map accepted tr.

(** The paths whose metadata was asked for, in order. *)
Definition lstats (tr : list event) : list string :=
  flat_map (fun e => match e with EvLstat name => [name] | _ => [] end) tr.

Definition isWrite (e : event) : bool :=
  match e with EvWrite _ _ _ => true | _ => false end.

Definition isIO (e : event) : bool :=
  match e with EvRead _ | EvWrite _ _ _ => true | _ => false end.

Definition isStderr (e : event) : bool :=
  match e with EvStderr _ => true | _ => false end.

(** The world [s] after the calls [evs] left the writer as [w]; standard
    error untouched. *)
Definition after {W : Type} (s : World W) (evs : list event) (w : W) : World W :=
  mkWorld w (stderr s) (trace s ++ evs).

(** ** The runs of the copy loop *)

(** How one [Write] of [nr] bytes that returned [(n, ew)] ends the loop:
    with the writer's error, with [errInvalidWrite] for a count out of
    range, with [ErrShortWrite] for a short count; [nil] lets it go on. *)
Definition writeError (nr : nat) (n : Z) (ew : error) : error :=
  if ((n <? 0) || (Z.of_nat nr <? n))%Z
  then match ew with None => Some io_errInvalidWrite | _ => ew end
  else match ew with
       | Some e => Some e
       | None => if negb (Z.of_nat nr =? n)%Z then Some io_ErrShortWrite else None
       end.

(** The count added to [written] for that [Write]. *)
Definition counted (nr : nat) (n : Z) : Z :=
  if ((n <? 0) || (Z.of_nat nr <? n))%Z then 0%Z else n.

(** How the loop ends when the file has no more bytes: [io.EOF] is not an
    error, any other fault is. *)
Definition endError (f : File) : error :=
  match fault f with
  | Some e => if is_EOF e then None else Some e
  | None => None
  end.

(** [copyRun size f w evs w' err]: copying [f] to the writer [w] through
    a buffer of [size] bytes makes the calls [evs], leaves the writer as
    [w'] and returns [err]. *)
Inductive copyRun {W : Type} `{Writer W} (size : nat) :
    File -> W -> list event -> W -> error -> Prop :=
| copy_end (f : File) (w : W) :
    unread f = [] ->
    copyRun size f w [EvRead []] w (endError f)
| copy_break (f : File) (w w' : W) (n : Z) (ew : error) (e : errorValue) :
    unread f <> [] ->
    Write w (firstn size (unread f)) = (w', (n, ew)) ->
    writeError (length (firstn size (unread f))) n ew = Some e ->
    copyRun size f w
      [EvRead (firstn size (unread f)); EvWrite (firstn size (unread f)) n ew]
      w' (Some e)
| copy_next (f : File) (w w' w'' : W) (n : Z) (ew : error)
    (evs : list event) (err : error) :
    unread f <> [] ->
    Write w (firstn size (unread f)) = (w', (n, ew)) ->
    writeError (length (firstn size (unread f))) n ew = None ->
    copyRun size (mkFile (skipn size (unread f)) (fault f)) w' evs w'' err ->
    copyRun size f w
      (EvRead (firstn size (unread f)) :: EvWrite (firstn size (unread f)) n ew :: evs)
      w'' err.

(** ** Files, directories, links and writers *)

(** A writer that accepts every write. *)
Definition accepts_every_write (W : Type) `{Writer W} : Prop :=
  forall (w : W) (p : bytes), snd (Write w p) = (Z.of_nat (length p), None).

(** [Bytes] reads the content of a writer that keeps what it reports as
    taken, like the [Bytes()] of the test writers. *)
Definition keeps {W : Type} `{Writer W} (Bytes : W -> bytes) : Prop :=
  forall (w : W) (p : bytes),
    Bytes (fst (Write w p)) = Bytes w ++ firstn (Z.to_nat (fst (snd (Write w p)))) p.

Definition modeIsDir (m : FileMode) : bool := negb (Z.land m ModeDir =? 0)%Z.
Definition modeIsSymlink (m : FileMode) : bool := negb (Z.land m ModeSymlink =? 0)%Z.

(** The entry at [name] is a regular file whose bytes are [content], and
    reading it does not fail. *)
Definition regular_file_at (fs : FS) (name : string) (content : bytes) : Prop :=
  exists m, sys_lstat fs name = Ok m /\ IsRegular m = true /\
            sys_open fs name = Ok (mkFile content None).

(** The entry at [name] itself is a directory. *)
Definition directory_at (fs : FS) (name : string) : Prop :=
  exists m, sys_lstat fs name = Ok m /\ modeIsDir m = true.

(** The entry at [name] is a symbolic link. *)
Definition symlink_at (fs : FS) (name : string) : Prop :=
  exists m, sys_lstat fs name = Ok m /\ modeIsDir m = false /\ modeIsSymlink m = true.

(** The path [cat] opens for an entry of mode [m] at [name]: the text of
    the link for a symbolic link (the empty string when it cannot be
    read), [name] otherwise. *)
Definition openPath (fs : FS) (name : string) (m : FileMode) : string :=
  if modeIsSymlink m
  then match readlink fs name with Ok target => target | Fail _ => "" end
  else name.

(** [cat] on the path [p] fails before the copy step. *)
Definition fails_before_copy (fs : FS) (p : string) : Prop :=
  (exists e, sys_lstat fs (filepath.Clean p) = Fail e) \/
  directory_at fs (filepath.Clean p) \/
  (exists m e, sys_lstat fs (filepath.Clean p) = Ok m /\ modeIsDir m = false /\
               sys_open fs (openPath fs (filepath.Clean p) m) = Fail e).

(** The line the deferred function of [main] prints for an error. *)
Definition errorLines (errs : list error) : list string :=
  flat_map (fun err => match err with
                       | Some e => ["cat: " +++ Error e +++ nl]
                       | None => []
                       end) errs.

(** The lines as one text. *)
Definition joined (lines : list string) : string :=
  fold_right String.append "" lines.

(** Streaming the files one after the other, each to the writer the one
    before left, whatever the one before returned. *)
Fixpoint streamAll {W : Type} `{Writer W} (fs : FS) (args : list string)
    (s : World W) : list error * World W :=
  match args with
  | [] => ([], s)
  | arg :: rest =>
      let '(err, s1) := cat fs arg s in
      let '(errs, s2) := streamAll fs rest s1 in
      (err :: errs, s2)
  end.

(** The calls of [cat] between [os.Lstat] and [os.Open] for an entry of
    mode [m] at [name]: one [os.Readlink] for a symbolic link, none
    otherwise. *)
Definition resolveEvents (name : string) (m : FileMode) : list event :=
  if modeIsSymlink m then [EvReadlink name] else [].

(** ** What reaches standard output *)

(** What becomes of one argument of [main]: [Some content] for a regular
    file with that content, [None] for a path on which [cat] fails
    before the copy. *)
Definition streams_to (fs : FS) (arg : string) (out : option bytes) : Prop :=
  match out with
  | Some content => regular_file_at fs (filepath.Clean arg) content
  | None => fails_before_copy fs arg
  end.

(** The bytes of the files that were streamed, in order. *)
Definition delivered (outs : list (option bytes)) : bytes :=
  flat_map (fun out => match out with Some content => content | None => [] end) outs.

(** How many arguments failed. *)
Definition failures (outs : list (option bytes)) : nat :=
  length (filter (fun out => match out with None => true | Some _ => false end) outs).

Definition isClose (e : event) : bool :=
  match e with EvClose => true | _ => false end.

(** How often a file was closed. *)
Definition closes (tr : list event) : nat := length (filter isClose tr).

(** The error of [io.Copy] for a write that reports, without an error of
    its own, [n] for the [nr] bytes it was handed: [errInvalidWrite] for
    a count out of range, [ErrShortWrite] otherwise. *)
Definition countError (nr : nat) (n : Z) : errorValue :=
  if ((n <? 0) || (Z.of_nat nr <? n))%Z then io_errInvalidWrite else io_ErrShortWrite.

(** More answers of a kernel: an empty file, a file of one byte, a file
    whose third byte cannot be read, and a file named by a single minus. *)
Definition moredata : FS :=
  mkFS
    (answerOr [ ("empty.txt", 420%Z); ("one.txt", 420%Z); ("bad.txt", 420%Z);
                ("-", 420%Z) ] "lstat")
    (answerOr [] "readlink")
    (answerOr [ ("empty.txt", mkFile [] None);
                ("one.txt", mkFile (bytes_of_string "x") None);
                ("bad.txt", mkFile (bytes_of_string "he")
                              (Some (os_PathError "read" "bad.txt" "input/output error")));
                ("-", mkFile (bytes_of_string "dash") None) ] "open").

(** ** The head of main: package flag with no flag defined *)

(** The text of the closure [flag.CommandLine.Usage]. *)
Definition usageBanner : string :=
  "Usage: cat [FILE]..." +++ nl +++
  "Concatenate FILE(s) to standard output." +++ nl +++
  nl +++
  "examples:" +++ nl +++
  "$ cat --help" +++ nl +++
  "$ cat ./cat.go" +++ nl.

(** [flag.ErrorHandling] of the flag set that [flag.CommandLine] is. *)
Inductive ErrorHandling : Type :=
| ContinueOnError
| ExitOnError
| PanicOnError.

(** The errors of [parseOne] when no flag is defined. *)
Inductive flagError : Type :=
| BadSyntax (s : string)
| ErrHelp
| NotDefined (name : string).

Definition isMinus (c : ascii) : bool := Ascii.eqb c "-"%char.
Definition isEquals (c : ascii) : bool := Ascii.eqb c "="%char.

(** [for i := 1; i < len(name); i++ { if name[i] == '=' { name = name[0:i] ... } }]
    on [name[1:]]. *)
Fixpoint beforeEquals (name : list ascii) : list ascii :=
  match name with
  | [] => []
  | c :: rest => if isEquals c then [] else c :: beforeEquals rest
  end.

(** [func (f *FlagSet) parseOne() (bool, error)] with [f.formal] empty:
    the arguments left in [f.args] and the error.  No flag is ever seen. *)
Definition parseOne (args : list string) : list string * option flagError :=
  match args with
  | [] => (args, None)
  | s :: rest =>
      match list_ascii_of_string s with
      | c0 :: c1 :: cs =>
          if negb (isMinus c0) then (args, None)
          else if isMinus c1 && match cs with [] => true | _ => false end then
            (* "--" terminates the flags *)
            (rest, None)
          else
            match (if isMinus c1 then cs else c1 :: cs) with
            | [] => (args, Some (BadSyntax s))
            | n0 :: name =>
                if isMinus n0 || isEquals n0 then (args, Some (BadSyntax s))
                else
                  (* it is a flag: f.args = f.args[1:]; it is not defined *)
                  let name := string_of_list_ascii (n0 :: beforeEquals name) in
                  if String.eqb name "help" || String.eqb name "h"
                  then (rest, Some ErrHelp)
                  else (rest, Some (NotDefined name))
            end
      | _ => (args, None)
      end
  end.

(** The error value of a [flagError]. *)
Definition flagErrorValue (e : flagError) : errorValue :=
  match e with
  | BadSyntax s => fmt_Errorf ("bad flag syntax: " +++ s)
  | ErrHelp => fmt_Errorf "flag: help requested"
  | NotDefined name => fmt_Errorf ("flag provided but not defined: -" +++ name)
  end.

(** How the process ends: [main] returns, [os.Exit], or a panic. *)
Inductive ending : Type :=
| Returned
| Exited (code : Z)
| Panicked (err : errorValue).

Section Flags.

Context {W : Type} `{Writer W}.
Variable fs : FS.

(** The closure set as [flag.CommandLine.Usage]: the banner on
    [os.Stderr]; [flag.PrintDefaults] has no flag to print. *)
Definition Usage : M W unit := Fprintf_Stderr usageBanner.

(** [flag.Parse()] on [os.Args[1:]]: every error of [parseOne] calls the
    usage, its own message going to the discarded output; the loop ends
    at the first argument, no flag being defined. *)
Definition flag_Parse (arguments : list string) : M W (list string * option flagError) :=
  let '(args, err) := parseOne arguments in
  match err with
  | None => ret (args, None)
  | Some e => Usage ;;; ret (args, Some e)
  end.

(** The whole of [func main()]: the flags are parsed under the error
    handling of [flag.CommandLine], then the files are streamed. *)
Definition program (handling : ErrorHandling) (arguments : list string)
    (stdin : File) : M W ending :=
  ' (args, err) <- flag_Parse arguments ;;
  match err, handling with
  | Some ErrHelp, ExitOnError => ret (Exited 0)
  | Some _, ExitOnError => ret (Exited 2)
  | Some e, PanicOnError => ret (Panicked (flagErrorValue e))
  | _, _ => main fs args stdin ;;; ret Returned
  end.

End Flags.

Arguments program {W _} fs handling arguments stdin _.

(** An argument that [parseOne] takes for a flag: two bytes or more, the
    first a minus. *)
Definition looksLikeFlag (s : string) : bool :=
  match list_ascii_of_string s with
  | c0 :: _ :: _ => isMinus c0
  | _ => false
  end.

(** ** Paths as stacks of elements *)

(** The element [.] *)
Definition isDotElem (e : list ascii) : bool :=
  match e with
  | [c] => filepath.isDot c
  | _ => false
  end.

(** The element [..] *)
Definition isDotDotElem (e : list ascii) : bool :=
  match e with
  | [c1; c2] => filepath.isDot c1 && filepath.isDot c2
  | _ => false
  end.

Definition dotdotElem : list ascii := ["."%char; "."%char].

(** What one turn of the loop of [Clean] does with the path element [e]
    to the buffer [out] and the mark [dotdot]. *)
Definition cleanElem (rooted : bool) (e : list ascii) (st : list ascii * nat)
    : list ascii * nat :=
  let '(out, dotdot) := st in
  if isDotElem e then (out, dotdot)
  else if isDotDotElem e then
    if dotdot <? length out then
      (firstn (filepath.backtrack out dotdot (length out - 1)) out, dotdot)
    else if negb rooted then
      let out1 := if 0 <? length out then out ++ [filepath.Separator] else out in
      let out2 := out1 ++ dotdotElem in
      (out2, length out2)
    else (out, dotdot)
  else
    ((if (rooted && negb (length out =? 1)) || (negb rooted && negb (length out =? 0))
      then out ++ [filepath.Separator] else out) ++ e, dotdot).

Definition consElem (e : list ascii) (es : list (list ascii)) : list (list ascii) :=
  match e with
  | [] => es
  | _ :: _ => e :: es
  end.

(** The bytes before the first separator of a path, and the elements
    after it that are not empty. *)
Fixpoint comps (p : list ascii) : list ascii * list (list ascii) :=
  match p with
  | [] => ([], [])
  | c :: p' =>
      let '(e, es) := comps p' in
      if filepath.IsPathSeparator c then ([], consElem e es) else (c :: e, es)
  end.

(** The elements of a path: what stands between its separators, the
    empty ones left out. *)
Definition elems (p : list ascii) : list (list ascii) :=
  consElem (fst (comps p)) (snd (comps p)).

(** The path of a stack of elements, the last one first in the list:
    the elements in order, a separator between two of them, after the
    leading separator when rooted. *)
Fixpoint render (rooted : bool) (stack : list (list ascii)) : list ascii :=
  match stack with
  | [] => if rooted then [filepath.Separator] else []
  | e :: below =>
      match below with
      | [] => render rooted below
      | _ :: _ => render rooted below ++ [filepath.Separator]
      end ++ e
  end.

(** An element as the loop reads it: not empty, no separator in it. *)
Definition plainElem (e : list ascii) : Prop :=
  e <> [] /\ Forall (fun c => filepath.IsPathSeparator c = false) e.

(** An element that names an entry: neither [.] nor [..]. *)
Definition nameElem (e : list ascii) : Prop :=
  plainElem e /\ isDotElem e = false /\ isDotDotElem e = false.

(** The stacks [Clean] ends with: names on top of [..] elements, of
    which a rooted path has none. *)
Definition cleanStack (rooted : bool) (names : list (list ascii)) (k : nat) : Prop :=
  Forall nameElem names /\ (rooted = true -> k = 0).

(** A path is rooted when it begins with a separator. *)
Definition isRooted (p : list ascii) : bool :=
  match p with
  | c :: _ => filepath.IsPathSeparator c
  | [] => false
  end.

(** The empty buffer is turned into [.] *)
Definition orDot (out : list ascii) : list ascii :=
  match out with
  | [] => ["."%char]
  | _ :: _ => out
  end.

(** ** Links beside their targets, and what main prints *)

(** The kernel's answers in a directory [d] that holds a regular file
    [f] and a link [l] with the text [f]: the link names the file beside
    it, so opening [d/l] reaches [d/f]; the working directory has no
    entry [f] of its own. *)
Definition reldata : FS :=
  mkFS
    (answerOr [ ("d", Z.lor ModeDir 493);
                ("d/f", 420%Z);
                ("d/l", Z.lor ModeSymlink 511) ] "lstat")
    (answerOr [ ("d/l", "f") ] "readlink")
    (answerOr [ ("d/f", mkFile b_md None);
                ("d/l", mkFile b_md None) ] "open").

(** The message of the error [cat] returns when it fails before the
    copy, read off the file system. *)
Definition earlyMessage (fs : FS) (p : string) : string :=
  match sys_lstat fs (filepath.Clean p) with
  | Fail _ => filepath.Clean p +++ ": No such file or directory"
  | Ok m =>
      if modeIsDir m then basename (filepath.Clean p) +++ ": Is a directory"
      else "cannot open " +++ openPath fs (filepath.Clean p) m
  end.

(** What becomes of one argument of [main]: [Some content] for a regular
    file with that content, or for a symbolic link whose text names one
    as the process opens it; [None] for a path on which [cat] fails
    before the copy. *)
Definition yields (fs : FS) (arg : string) (out : option bytes) : Prop :=
  match out with
  | Some content =>
      regular_file_at fs (filepath.Clean arg) content \/
      (symlink_at fs (filepath.Clean arg) /\
       exists t, readlink fs (filepath.Clean arg) = Ok t /\ regular_file_at fs t content)
  | None => fails_before_copy fs arg
  end.

(** The lines standard error is due: one per argument that fails, in the
    order of the arguments, "cat: " then the message then a newline. *)
Fixpoint failureLines (fs : FS) (args : list string) (outs : list (option bytes))
    : list string :=
  match args, outs with
  | arg :: args', None :: outs' =>
      ("cat: " +++ earlyMessage fs arg +++ nl) :: failureLines fs args' outs'
  | _ :: args', Some _ :: outs' => failureLines fs args' outs'
  | _, _ => []
  end.

(** ** Flags by their text *)

(** [strings.HasPrefix(s, prefix)] *)
Fixpoint hasPrefix (s prefix : string) {struct prefix} : bool :=
  match prefix with
  | EmptyString => true
  | String b prefix' =>
      match s with
      | EmptyString => false
      | String a s' => Ascii.eqb a b && hasPrefix s' prefix'
      end
  end.

(** The flags that ask for help, with one minus or two. *)
Definition helpFlags : list string := ["-h"; "--h"; "-help"; "--help"].

(** The argument is a help flag, alone or with an equals sign and a
    value after it. *)
Definition asksForHelp (a : string) : bool :=
  existsb (fun flag => String.eqb a flag || hasPrefix a (flag +++ "=")) helpFlags.

(** The argument is an ill-formed flag: after its one or two minuses
    comes another minus or an equals sign. *)
Definition illFormed (a : string) : bool :=
  hasPrefix a "---" || hasPrefix a "--=" || hasPrefix a "-=".

(** * Properties *)

Example Clean_dot_slash : filepath.Clean "./none.txt" = "none.txt".
Proof. reflexivity. Qed.

Example Clean_testdata : filepath.Clean "./testdata//sub/../a.txt" = "testdata/a.txt".
Proof. reflexivity. Qed.

Example Clean_dotdot : filepath.Clean "a/../../b/." = "../b".
Proof. reflexivity. Qed.

Example Clean_root : filepath.Clean "/../a/b/../.." = "/".
Proof. reflexivity. Qed.

Example Clean_empty : filepath.Clean "" = ".".
Proof. reflexivity. Qed.

(** Rows of the table of Go's own test of [Clean]. *)
Example Clean_table :
  map filepath.Clean
    ["abc"; "abc/def"; "."; ".."; "../.."; "../../abc"; "/abc"; "/";
     "abc/"; "abc/def/"; "./"; "../"; "../../"; "/abc/";
     "abc//def//ghi"; "//abc"; "///abc"; "//abc//"; "abc//";
     "abc/./def"; "/./abc/def"; "abc/.";
     "abc/def/ghi/../jkl"; "abc/def/../ghi/../jkl"; "abc/def/.."; "abc/def/../..";
     "/abc/def/../.."; "abc/def/../../.."; "/abc/def/../../..";
     "abc/def/../../../ghi/jkl/../../../mno"; "/../abc";
     "abc/./../def"; "abc//./../def"; "abc/../../././../def"]
  = ["abc"; "abc/def"; "."; ".."; "../.."; "../../abc"; "/abc"; "/";
     "abc"; "abc/def"; "."; ".."; "../.."; "/abc";
     "abc/def/ghi"; "/abc"; "/abc"; "/abc"; "abc";
     "abc/def"; "/abc/def"; "abc";
     "abc/def/jkl"; "abc/jkl"; "abc"; ".";
     "/"; ".."; "/";
     "../../mno"; "/abc";
     "def"; "def"; "../../def"].
Proof. vm_compute. reflexivity. Qed.

Example basename_table :
  map basename ["testdata/sub"; "testdata"; "a/b/"; "/"; "//"; "."; ".."; "/a"; ""]
  = ["sub"; "testdata"; "b"; "/"; "/"; "."; ".."; "a"; ""].
Proof. vm_compute. reflexivity. Qed.

(** The cases of [TestCat] and [TestMainProg] that the fixture decides. *)
Example test_success_a :
  cat testdata "./testdata/a.txt" (world newCompleteWriter)
  = (None, mkWorld (mkCompleteWriter a_txt) ""
             [EvLstat "testdata/a.txt"; EvOpen "testdata/a.txt";
              EvRead a_txt; EvWrite a_txt 5 None; EvRead []; EvClose]).
Proof. vm_compute. reflexivity. Qed.

Example test_success_c :
  let '(err, s) := cat testdata "./testdata/c.txt" (world newCompleteWriter) in
  err = None /\ cbuf (sink s) = a_txt.
Proof. vm_compute. auto. Qed.

Example test_success_png :
  let '(err, s) := cat testdata "./testdata/x.png" (world newCompleteWriter) in
  err = None /\ cbuf (sink s) = x_png.
Proof. vm_compute. auto. Qed.

Example test_fail_none :
  option_map Error (fst (cat testdata "none.txt" (world newIncompleteWriter)))
  = Some "none.txt: No such file or directory".
Proof. vm_compute. reflexivity. Qed.

Example test_fail_dir :
  option_map Error (fst (cat testdata "testdata" (world newIncompleteWriter)))
  = Some "testdata: Is a directory".
Proof. vm_compute. reflexivity. Qed.

Example test_fail_faulty :
  option_map Error (fst (cat testdata "testdata/a.txt" (world newFaultyWriter)))
  = Some "unexpected EOF".
Proof. vm_compute. reflexivity. Qed.

Example test_fail_dangling :
  option_map Error (fst (cat testdata "testdata/d.txt" (world newIncompleteWriter)))
  = Some "cannot open testdata/none.txt".
Proof. vm_compute. reflexivity. Qed.

Example test_main_b :
  let '(_, s) := main testdata ["testdata/b.md"] (mkFile [] None) (world newCompleteWriter) in
  cbuf (sink s) = b_md /\ stderr s = "".
Proof. vm_compute. auto. Qed.

Example test_main_d :
  let '(_, s) := main testdata ["testdata/d.txt"] (mkFile [] None) (world newCompleteWriter) in
  cbuf (sink s) = [] /\ stderr s = "cat: cannot open testdata/none.txt" +++ nl.
Proof. vm_compute. auto. Qed.

(** ** filepath.Clean *)

Lemma element_length (p : list ascii) :
  length (snd (filepath.element p)) <= length p.
Proof.
  induction p as [|c p IH]; simpl; [lia|].
  destruct (filepath.IsPathSeparator c); simpl; [lia|].
  destruct (filepath.element p) as [e rest]; simpl in *; lia.
Qed.

(** The loop of [Clean] has turns to spare: any two supplies that cover
    the length of the path left give the same result. *)
Lemma cleanLoop_fuel (fuel1 : nat) :
  forall (fuel2 : nat) (rooted : bool) (p out : list ascii) (dotdot : nat),
    length p <= fuel1 -> length p <= fuel2 ->
    filepath.cleanLoop fuel1 rooted p out dotdot
    = filepath.cleanLoop fuel2 rooted p out dotdot.
Proof.
  induction fuel1 as [|fuel1 IH]; intros fuel2 rooted p out dotdot H1 H2.
  - destruct p; [|simpl in H1; lia]. destruct fuel2; reflexivity.
  - destruct p as [|c p1]; [destruct fuel2; reflexivity|].
    destruct fuel2 as [|fuel2]; [simpl in H2; lia|].
    simpl in H1, H2.
    assert (Ht : length (tl p1) <= length p1) by (destruct p1; simpl; lia).
    pose proof (element_length p1) as He.
    cbn [filepath.cleanLoop].
    destruct (filepath.IsPathSeparator c) eqn:Hsep.
    { apply IH; lia. }
    destruct (filepath.isDot c && _).
    { apply IH; lia. }
    destruct (filepath.isDot c && _).
    { destruct (dotdot <? length out).
      - apply IH; lia.
      - destruct (negb rooted); apply IH; lia. }
    cbn [filepath.element]. rewrite Hsep.
    destruct (filepath.element p1) as [e rest]; simpl in He.
    apply IH; lia.
Qed.

Lemma Clean_nonempty (path : string) : filepath.Clean path <> "".
Proof.
  unfold filepath.Clean.
  destruct (list_ascii_of_string path) as [|c p]; [discriminate|].
  match goal with |- context [match ?o with [] => _ | _ :: _ => _ end] =>
    destruct o; simpl; discriminate end.
Qed.

(** So the metadata [cat] asks for is the answer of the file system. *)
Lemma sys_lstat_Clean (fs : FS) (path : string) :
  sys_lstat fs (filepath.Clean path) = lstat fs (filepath.Clean path).
Proof.
  unfold sys_lstat.
  destruct (String.eqb_spec (filepath.Clean path) "") as [E|_];
    [destruct (Clean_nonempty path E) | reflexivity].
Qed.

(** ** io.Copy *)

Section Copy.

Context {W : Type} `{Writer W}.

(** One turn of the loop, by what is left of the file. *)
Lemma copyLoop_S (fuel size : nat) (f : File) (wr : Z) (s : World W) :
  0 < size ->
  copyLoop (S fuel) size f wr s =
  match unread f with
  | [] => ((wr, endError f), after s [EvRead []] (sink s))
  | _ =>
      let buf := firstn size (unread f) in
      let '(w', (n, ew)) := Write (sink s) buf in
      let s1 := after s [EvRead buf; EvWrite buf n ew] w' in
      match writeError (length buf) n ew with
      | Some e => (((wr + counted (length buf) n)%Z, Some e), s1)
      | None =>
          copyLoop fuel size (mkFile (skipn size (unread f)) (fault f))
            (wr + counted (length buf) n)%Z s1
      end
  end.
Proof.
  intros Hsize. destruct size as [|size]; [lia|].
  destruct f as [data flt]. cbn [unread fault].
  destruct data as [|b data].
  - cbn. unfold endError, after. cbn.
    destruct flt as [e|]; [destruct (is_EOF e)|]; reflexivity.
  - cbn [copyLoop File_Read bind emit ret unread fault fst snd firstn skipn length].
    cbn [sink stderr trace].
    replace (0 <? Z.of_nat (S (length (firstn size data))))%Z with true
      by (symmetry; apply Z.ltb_lt; lia).
    unfold w_Write, bind, ret. cbn [sink stderr trace].
    destruct (Write (sink s) (b :: firstn size data)) as [w' [n ew]].
    unfold writeError, counted, after. cbn [length stderr trace].
    rewrite <- app_assoc. cbn [app].
    destruct ((n <? 0) || (Z.of_nat (S (length (firstn size data))) <? n))%Z.
    + destruct ew; reflexivity.
    + destruct ew; [reflexivity|].
      destruct (negb (Z.of_nat (S (length (firstn size data))) =? n)%Z); reflexivity.
Qed.

Lemma writeError_None (nr : nat) (n : Z) (ew : error) :
  writeError nr n ew = None -> n = Z.of_nat nr /\ ew = None.
Proof.
  unfold writeError.
  destruct ((n <? 0) || (Z.of_nat nr <? n))%Z; [destruct ew; discriminate|].
  destruct ew; [discriminate|].
  destruct (Z.eqb_spec (Z.of_nat nr) n); [auto | discriminate].
Qed.

Lemma writeError_Some (nr : nat) (n : Z) (e : errorValue) :
  writeError nr n (Some e) = Some e.
Proof.
  unfold writeError. destruct ((n <? 0) || (Z.of_nat nr <? n))%Z; reflexivity.
Qed.

Lemma writeError_full (nr : nat) : writeError nr (Z.of_nat nr) None = None.
Proof.
  unfold writeError.
  replace (Z.of_nat nr <? 0)%Z with false by (symmetry; apply Z.ltb_ge; lia).
  rewrite Z.ltb_irrefl, Z.eqb_refl. reflexivity.
Qed.

(** The loop is a run of [copyRun], given turns for every byte left and
    one more. *)
Lemma copyLoop_run (fuel : nat) :
  forall (size : nat) (f : File) (wr : Z) (s : World W),
    0 < size -> length (unread f) < fuel ->
    exists evs w' n err,
      copyLoop fuel size f wr s = ((n, err), after s evs w') /\
      copyRun size f (sink s) evs w' err.
Proof.
  induction fuel as [|fuel IH]; intros size f wr s Hsize Hfuel; [lia|].
  rewrite copyLoop_S by assumption.
  destruct f as [data flt]. cbn [unread fault] in *.
  destruct data as [|b data].
  - exists [EvRead []], (sink s), wr, (endError (mkFile [] flt)).
    split; [reflexivity | apply copy_end; reflexivity].
  - cbv zeta.
    destruct (Write (sink s) (firstn size (b :: data))) as [w' [n ew]] eqn:HW.
    destruct (writeError (length (firstn size (b :: data))) n ew) as [e|] eqn:HE.
    + eexists _, w', _, (Some e). split; [reflexivity|].
      apply (copy_break size (mkFile (b :: data) flt) (sink s) w' n ew e);
        [discriminate | exact HW | exact HE].
    + destruct (IH size (mkFile (skipn size (b :: data)) flt)
                  (wr + counted (length (firstn size (b :: data))) n)%Z
                  (after s [EvRead (firstn size (b :: data));
                            EvWrite (firstn size (b :: data)) n ew] w') Hsize)
        as (evs & w'' & n' & err & Hrun & Hcopy).
      { cbn [unread]. rewrite length_skipn. cbn [length] in *. lia. }
      rewrite Hrun.
      exists (EvRead (firstn size (b :: data))
                :: EvWrite (firstn size (b :: data)) n ew :: evs), w'', n', err.
      split.
      * unfold after. cbn [stderr trace]. rewrite <- app_assoc. reflexivity.
      * apply (copy_next size (mkFile (b :: data) flt) (sink s) w' w'' n ew evs err);
          [discriminate | exact HW | exact HE | exact Hcopy].
Qed.

(** Turns beyond that change nothing. *)
Lemma copyLoop_fuel (fuel1 : nat) :
  forall (fuel2 size : nat) (f : File) (wr : Z) (s : World W),
    0 < size -> length (unread f) < fuel1 -> length (unread f) < fuel2 ->
    copyLoop fuel1 size f wr s = copyLoop fuel2 size f wr s.
Proof.
  induction fuel1 as [|fuel1 IH]; intros fuel2 size f wr s Hsize H1 H2; [lia|].
  destruct fuel2 as [|fuel2]; [lia|].
  rewrite !copyLoop_S by assumption.
  destruct (unread f) as [|b data] eqn:Hf; [reflexivity|].
  cbv zeta.
  destruct (Write (sink s) (firstn size (b :: data))) as [w' [n ew]].
  destruct (writeError _ n ew); [reflexivity|].
  apply IH; [assumption | |]; cbn [unread]; rewrite length_skipn;
    cbn [length] in *; lia.
Qed.

(** The copy only reads and writes. *)
Lemma copyRun_io (size : nat) (f : File) (w w' : W) (evs : list event) (err : error) :
  copyRun size f w evs w' err -> Forall (fun e => isIO e = true) evs.
Proof.
  induction 1; repeat constructor; assumption.
Qed.

(** Whatever the copy returns, the bytes written are the first bytes of
    the file. *)
Lemma copyRun_prefix (size : nat) (f : File) (w w' : W) (evs : list event) (err : error) :
  copyRun size f w evs w' err -> exists rest, unread f = written evs ++ rest.
Proof.
  induction 1 as [f w Hf | f w w' n ew e Hf HW HE
                  | f w w' w'' n ew evs err Hf HW HE Hrun IH].
  - exists (unread f). reflexivity.
  - exists (skipn (Z.to_nat n) (firstn size (unread f)) ++ skipn size (unread f)).
    unfold written. cbn [flat_map accepted app]. rewrite app_nil_r, app_assoc.
    rewrite !firstn_skipn. reflexivity.
  - destruct IH as [rest IH]. cbn [unread] in IH.
    apply writeError_None in HE as [-> _].
    exists rest. unfold written in *. cbn [flat_map accepted app].
    rewrite Nat2Z.id, firstn_all, <- app_assoc, <- IH.
    symmetry. apply firstn_skipn.
Qed.

(** A copy that returns [nil] has written the whole file. *)
Lemma copyRun_nil (size : nat) (f : File) (w w' : W) (evs : list event) (err : error) :
  copyRun size f w evs w' err -> err = None -> written evs = unread f.
Proof.
  induction 1 as [f w Hf | f w w' n ew e Hf HW HE
                  | f w w' w'' n ew evs err Hf HW HE Hrun IH]; intros Herr.
  - rewrite Hf. reflexivity.
  - discriminate.
  - apply writeError_None in HE as [-> _].
    unfold written in *. cbn [flat_map accepted app].
    rewrite Nat2Z.id, firstn_all, (IH Herr). cbn [unread].
    apply firstn_skipn.
Qed.

(** A writer that accepts every write is never the reason to stop. *)
Lemma copyRun_accepting (size : nat) (f : File) (w w' : W) (evs : list event) (err : error) :
  accepts_every_write W ->
  copyRun size f w evs w' err -> err = endError f.
Proof.
  intros Hacc.
  induction 1 as [f w Hf | f w w' n ew e Hf HW HE
                  | f w w' w'' n ew evs err Hf HW HE Hrun IH].
  - reflexivity.
  - pose proof (Hacc w (firstn size (unread f))) as Ha.
    rewrite HW in Ha. cbn [snd] in Ha. injection Ha as -> ->.
    rewrite writeError_full in HE. discriminate.
  - exact IH.
Qed.

(** The error of a rejected write is what the copy returns. *)
Lemma copyRun_rejected (size : nat) (f : File) (w w' : W) (evs : list event) (err : error) :
  copyRun size f w evs w' err ->
  forall (p : bytes) (n : Z) (e : errorValue),
    In (EvWrite p n (Some e)) evs -> err = Some e.
Proof.
  induction 1 as [f w Hf | f w w' n ew e Hf HW HE
                  | f w w' w'' n ew evs err Hf HW HE Hrun IH]; intros p k e' Hin.
  - destruct Hin as [Hin|[]]; discriminate.
  - destruct Hin as [Hin|[Hin|[]]]; [discriminate|].
    injection Hin as _ _ ->. rewrite writeError_Some in HE. symmetry. exact HE.
  - apply writeError_None in HE as [_ ->].
    destruct Hin as [Hin|[Hin|Hin]]; [discriminate | discriminate |].
    exact (IH p k e' Hin).
Qed.

(** A writer that keeps what it takes holds, after the copy, what it held
    before and the bytes written. *)
Lemma copyRun_keeps (Bytes : W -> bytes) (size : nat) (f : File) (w w' : W)
    (evs : list event) (err : error) :
  keeps Bytes ->
  copyRun size f w evs w' err -> Bytes w' = Bytes w ++ written evs.
Proof.
  intros Hkeeps.
  induction 1 as [f w Hf | f w w' n ew e Hf HW HE
                  | f w w' w'' n ew evs err Hf HW HE Hrun IH].
  - cbn. rewrite app_nil_r. reflexivity.
  - pose proof (Hkeeps w (firstn size (unread f))) as Hk.
    rewrite HW in Hk. cbn [fst snd] in Hk.
    unfold written. cbn [flat_map accepted app]. rewrite app_nil_r. exact Hk.
  - pose proof (Hkeeps w (firstn size (unread f))) as Hk.
    rewrite HW in Hk. cbn [fst snd] in Hk.
    unfold written in *. cbn [flat_map accepted app].
    rewrite IH, Hk, <- app_assoc. reflexivity.
Qed.

(** An error of the copy is a failed write, or the fault of the file
    once all its bytes were written. *)
Lemma copyRun_error (size : nat) (f : File) (w w' : W) (evs : list event)
    (err : error) (e : errorValue) :
  copyRun size f w evs w' err -> err = Some e ->
  (exists p n ew, In (EvWrite p n ew) evs /\ writeError (length p) n ew = Some e) \/
  (fault f = Some e /\ is_EOF e = false /\ written evs = unread f /\
   forall p n ew, In (EvWrite p n ew) evs -> writeError (length p) n ew = None).
Proof.
  induction 1 as [f w Hf | f w w' n ew e0 Hf HW HE
                  | f w w' w'' n ew evs err Hf HW HE Hrun IH]; intros Herr.
  - right. unfold endError in Herr.
    destruct (fault f) as [e0|] eqn:Hflt; [|discriminate].
    destruct (is_EOF e0) eqn:Heof; [discriminate|].
    injection Herr as ->. rewrite Hf.
    repeat split; try assumption; try reflexivity.
    intros p n ew [Hin|[]]; discriminate.
  - left. injection Herr as ->.
    exists (firstn size (unread f)), n, ew. split; [right; left; reflexivity | exact HE].
  - destruct (IH Herr) as [(p & k & ew' & Hin & Hw) | (Hflt & Heof & Hall & Hno)].
    + left. exists p, k, ew'. split; [right; right; exact Hin | exact Hw].
    + right. cbn [fault unread] in *.
      pose proof HE as HE'. apply writeError_None in HE' as [-> ->].
      repeat split; try assumption.
      * unfold written in *. cbn [flat_map accepted app].
        rewrite Nat2Z.id, firstn_all, Hall. apply firstn_skipn.
      * intros p k ew' [Hin|[Hin|Hin]]; [discriminate | | exact (Hno p k ew' Hin)].
        injection Hin as <- <- <-. exact HE.
Qed.

End Copy.

(** ** File modes *)

Lemma regular_not_dir (m : FileMode) : IsRegular m = true -> modeIsDir m = false.
Proof.
  unfold IsRegular, modeIsDir. intros Hm. apply Z.eqb_eq in Hm.
  replace ModeDir with (Z.land ModeType ModeDir) by reflexivity.
  rewrite Z.land_assoc, Hm. reflexivity.
Qed.

Lemma regular_not_symlink (m : FileMode) : IsRegular m = true -> modeIsSymlink m = false.
Proof.
  unfold IsRegular, modeIsSymlink. intros Hm. apply Z.eqb_eq in Hm.
  replace ModeSymlink with (Z.land ModeType ModeSymlink) by reflexivity.
  rewrite Z.land_assoc, Hm. reflexivity.
Qed.

(** ** The four ways through cat *)

Lemma copyBufSize_pos : 0 < copyBufSize.
Proof. unfold copyBufSize. lia. Qed.

Section Cat.

Context {W : Type} `{Writer W}.
Variable fs : FS.

(** Run the calls of [cat] that come before the copy. *)
Ltac run_cat :=
  unfold cat, os_Lstat, os_Readlink, os_Open, File_Close, emit, ret, bind;
  cbn [sink stderr trace].

(** Two worlds that differ in how their traces are bracketed. *)
Ltac same_world :=
  unfold after; cbn [sink stderr trace app]; rewrite <- ?app_assoc;
  cbn [app]; reflexivity.

Lemma cat_not_found (p : string) (s : World W) (e : errorValue) :
  sys_lstat fs (filepath.Clean p) = Fail e ->
  cat fs p s
  = (Some (fmt_Errorf (filepath.Clean p +++ ": No such file or directory")),
     after s [EvLstat (filepath.Clean p)] (sink s)).
Proof.
  intros Hl. run_cat. rewrite Hl. reflexivity.
Qed.

Lemma cat_directory (p : string) (s : World W) (m : FileMode) :
  sys_lstat fs (filepath.Clean p) = Ok m -> modeIsDir m = true ->
  cat fs p s
  = (Some (fmt_Errorf (basename (filepath.Clean p) +++ ": Is a directory")),
     after s [EvLstat (filepath.Clean p)] (sink s)).
Proof.
  intros Hl Hd. run_cat. rewrite Hl.
  unfold IsDir. cbn [Mode Name]. unfold modeIsDir in Hd. rewrite Hd. reflexivity.
Qed.

Lemma cat_cannot_open (p : string) (s : World W) (m : FileMode) (e : errorValue) :
  sys_lstat fs (filepath.Clean p) = Ok m -> modeIsDir m = false ->
  sys_open fs (openPath fs (filepath.Clean p) m) = Fail e ->
  cat fs p s
  = (Some (fmt_Errorf ("cannot open " +++ openPath fs (filepath.Clean p) m)),
     after s (EvLstat (filepath.Clean p) :: resolveEvents (filepath.Clean p) m
              ++ [EvOpen (openPath fs (filepath.Clean p) m)]) (sink s)).
Proof.
  intros Hl Hd Ho. run_cat. rewrite Hl.
  unfold IsDir, isSymlink. cbn [Mode Name]. unfold modeIsDir in Hd. rewrite Hd.
  cbn [negb]. revert Ho. unfold openPath, resolveEvents, modeIsSymlink.
  destruct (negb (Z.land m ModeSymlink =? 0)%Z).
  - destruct (readlink fs (filepath.Clean p)) as [target|e']; intros Ho;
      cbn [sink stderr trace]; rewrite Ho; same_world.
  - intros Ho. cbn [sink stderr trace]. rewrite Ho. same_world.
Qed.

Lemma cat_copy (p : string) (s : World W) (m : FileMode) (f : File) :
  sys_lstat fs (filepath.Clean p) = Ok m -> modeIsDir m = false ->
  sys_open fs (openPath fs (filepath.Clean p) m) = Ok f ->
  exists io w' err,
    cat fs p s
    = (err, after s (EvLstat (filepath.Clean p) :: resolveEvents (filepath.Clean p) m
                     ++ [EvOpen (openPath fs (filepath.Clean p) m)] ++ io ++ [EvClose]) w') /\
    copyRun copyBufSize f (sink s) io w' err.
Proof.
  intros Hl Hd Ho. run_cat. rewrite Hl.
  unfold IsDir, isSymlink. cbn [Mode Name]. unfold modeIsDir in Hd. rewrite Hd.
  cbn [negb]. revert Ho. unfold openPath, resolveEvents, modeIsSymlink, io_Copy.
  destruct (negb (Z.land m ModeSymlink =? 0)%Z);
    [destruct (readlink fs (filepath.Clean p)) as [target|e']|];
    intros Ho; cbn [sink stderr trace]; rewrite Ho;
    match goal with |- context [copyLoop ?fuel ?size f ?z ?st] =>
      destruct (copyLoop_run fuel size f z st copyBufSize_pos (Nat.lt_succ_diag_r _))
        as (io & w' & n & err & Hrun & Hcopy);
      rewrite Hrun
    end;
    exists io, w', err; (split; [same_world | exact Hcopy]).
Qed.

End Cat.

(** ** Base names *)

Lemma untilSlash_no_separator (rname : list ascii) (c : ascii) :
  In c (untilSlash rname) -> filepath.IsPathSeparator c = false.
Proof.
  induction rname as [|a rname IH]; simpl; [intros []|].
  destruct (filepath.IsPathSeparator a) eqn:Ha; [intros []|].
  intros [<-|Hin]; [exact Ha | exact (IH Hin)].
Qed.

Lemma trimSlashes_head (rname : list ascii) (c : ascii) (rest : list ascii) :
  trimSlashes rname = c :: rest -> filepath.IsPathSeparator c = true -> rest = [].
Proof.
  induction rname as [|a rname IH]; [discriminate|].
  destruct rname as [|a' rname].
  - simpl. intros E _. injection E as _ <-. reflexivity.
  - cbn [trimSlashes]. destruct (filepath.IsPathSeparator a) eqn:Ha.
    + exact IH.
    + intros E Hc. injection E as -> _. congruence.
Qed.

(** A base name holds no separator, unless it is the root. *)
Lemma basename_no_separator (name : string) (c : ascii) :
  In c (list_ascii_of_string (basename name)) ->
  filepath.IsPathSeparator c = true -> basename name = "/".
Proof.
  unfold basename.
  destruct (trimSlashes (rev (list_ascii_of_string name))) as [|last before] eqn:E;
    [intros []|].
  rewrite list_ascii_of_string_of_list_ascii. intros Hin Hc.
  apply in_rev in Hin. destruct Hin as [<-|Hin].
  - rewrite (trimSlashes_head _ _ _ E Hc).
    apply Ascii.eqb_eq in Hc. rewrite Hc. reflexivity.
  - apply untilSlash_no_separator in Hin. congruence.
Qed.

(** ** Traces of cat and of main *)

Lemma append_assoc (a b c : string) : (a +++ b) +++ c = a +++ (b +++ c).
Proof. induction a as [|x a IH]; simpl; [reflexivity | rewrite IH; reflexivity]. Qed.

Lemma append_empty_r (a : string) : a +++ "" = a.
Proof. induction a as [|x a IH]; simpl; [reflexivity | rewrite IH; reflexivity]. Qed.

Lemma written_app (evs1 evs2 : list event) :
  written (evs1 ++ evs2) = written evs1 ++ written evs2.
Proof. apply flat_map_app. Qed.

Lemma lstats_app (evs1 evs2 : list event) :
  lstats (evs1 ++ evs2) = lstats evs1 ++ lstats evs2.
Proof. apply flat_map_app. Qed.

Lemma io_no_lstats (io : list event) :
  Forall (fun e => isIO e = true) io -> lstats io = [].
Proof.
  induction 1 as [|e io He _ IH]; [reflexivity|].
  destruct e; try discriminate; exact IH.
Qed.

Lemma io_no_stderr (io : list event) :
  Forall (fun e => isIO e = true) io -> Forall (fun e => isStderr e = false) io.
Proof.
  induction 1 as [|e io He _ IH]; constructor; [|exact IH].
  destruct e; try discriminate; reflexivity.
Qed.

(** Of the calls of [cat], only those of the copy write. *)
Lemma written_cat_events (name path : string) (m : FileMode) (io : list event) :
  written (EvLstat name :: resolveEvents name m ++ [EvOpen path] ++ io ++ [EvClose])
  = written io.
Proof.
  unfold resolveEvents. destruct (modeIsSymlink m);
    cbn [app]; unfold written; cbn [flat_map accepted app];
    rewrite flat_map_app; cbn [flat_map accepted app]; apply app_nil_r.
Qed.

Lemma lstats_cat_events (name path : string) (m : FileMode) (io : list event) :
  Forall (fun e => isIO e = true) io ->
  lstats (EvLstat name :: resolveEvents name m ++ [EvOpen path] ++ io ++ [EvClose])
  = [name].
Proof.
  intros Hio. apply io_no_lstats in Hio.
  unfold resolveEvents. destruct (modeIsSymlink m);
    cbn [app]; unfold lstats in *; cbn [flat_map app];
    rewrite flat_map_app, Hio; reflexivity.
Qed.

Lemma no_stderr_cat_events (name path : string) (m : FileMode) (io : list event) :
  Forall (fun e => isIO e = true) io ->
  Forall (fun e => isStderr e = false)
    (EvLstat name :: resolveEvents name m ++ [EvOpen path] ++ io ++ [EvClose]).
Proof.
  intros Hio. apply io_no_stderr in Hio.
  constructor; [reflexivity|].
  apply Forall_app. split.
  - unfold resolveEvents. destruct (modeIsSymlink m); repeat constructor.
  - constructor; [reflexivity|]. apply Forall_app. split; [exact Hio|].
    repeat constructor.
Qed.

Section Frames.

Context {W : Type} `{Writer W}.
Variable fs : FS.

(** Every call of [cat] asks once for the metadata of the cleaned path,
    prints nothing on standard error and leaves the earlier trace. *)
Lemma cat_frame (p : string) (s : World W) :
  exists err evs w',
    cat fs p s = (err, after s evs w') /\
    lstats evs = [filepath.Clean p] /\
    Forall (fun e => isStderr e = false) evs.
Proof.
  destruct (sys_lstat fs (filepath.Clean p)) as [m|e] eqn:Hl.
  2:{ eexists _, _, _. split; [exact (cat_not_found fs p s e Hl)|].
      split; [reflexivity | repeat constructor]. }
  destruct (modeIsDir m) eqn:Hd.
  { eexists _, _, _. split; [exact (cat_directory fs p s m Hl Hd)|].
    split; [reflexivity | repeat constructor]. }
  destruct (sys_open fs (openPath fs (filepath.Clean p) m)) as [f|e] eqn:Ho.
  - destruct (cat_copy fs p s m f Hl Hd Ho) as (io & w' & err & Hcat & Hrun).
    apply copyRun_io in Hrun.
    eexists _, _, _. split; [exact Hcat|].
    split; [apply lstats_cat_events | apply no_stderr_cat_events]; exact Hrun.
  - eexists _, _, _. split; [exact (cat_cannot_open fs p s m e Hl Hd Ho)|].
    split.
    + unfold resolveEvents. destruct (modeIsSymlink m); reflexivity.
    + unfold resolveEvents. destruct (modeIsSymlink m); repeat constructor.
Qed.

Lemma after_after (s : World W) (evs1 evs2 : list event) (w1 w2 : W) :
  after (after s evs1 w1) evs2 w2 = after s (evs1 ++ evs2) w2.
Proof. unfold after. cbn [stderr trace]. rewrite app_assoc. reflexivity. Qed.

Lemma streamAll_frame (args : list string) :
  forall s : World W,
  exists errs evs w',
    streamAll fs args s = (errs, after s evs w') /\
    length errs = length args /\
    lstats evs = map filepath.Clean args /\
    Forall (fun e => isStderr e = false) evs.
Proof.
  induction args as [|arg rest IH]; intros s.
  - exists [], [], (sink s). repeat split; [|constructor].
    destruct s; unfold after; cbn. rewrite app_nil_r. reflexivity.
  - destruct (cat_frame arg s) as (err & evs1 & w1 & Hcat & Hl1 & Hs1).
    destruct (IH (after s evs1 w1)) as (errs & evs2 & w2 & Hall & Hlen & Hl2 & Hs2).
    exists (err :: errs), (evs1 ++ evs2), w2.
    cbn [streamAll]. rewrite Hcat, Hall, after_after.
    repeat split.
    + cbn [length]. rewrite Hlen. reflexivity.
    + rewrite lstats_app, Hl1, Hl2. reflexivity.
    + apply Forall_app. split; assumption.
Qed.

(** The loop of [main] collects what streaming the files returns. *)
Lemma rangeArgs_streamAll (args : list string) :
  forall (errs : list error) (s : World W),
    rangeArgs fs args errs s
    = (errs ++ fst (streamAll fs args s), snd (streamAll fs args s)).
Proof.
  induction args as [|arg rest IH]; intros errs s.
  - cbn. rewrite app_nil_r. reflexivity.
  - cbn [rangeArgs streamAll]. unfold bind.
    destruct (cat fs arg s) as [err s1].
    rewrite IH. destruct (streamAll fs rest s1) as [errs' s2].
    cbn [fst snd]. rewrite <- app_assoc. reflexivity.
Qed.

(** The deferred function prints one line per error that is not [nil]. *)
Lemma reportErrs_run (errs : list error) :
  forall s : World W,
    reportErrs errs s
    = (tt, mkWorld (sink s) (stderr s +++ joined (errorLines errs))
             (trace s ++ map EvStderr (errorLines errs))).
Proof.
  induction errs as [|err errs IH]; intros s.
  - cbn. rewrite append_empty_r, app_nil_r. destruct s; reflexivity.
  - cbn [reportErrs]. unfold bind. destruct err as [e|].
    + unfold Fprintf_Stderr. rewrite IH. cbn [sink stderr trace].
      cbn [errorLines flat_map app map joined fold_right].
      rewrite append_assoc, <- app_assoc. reflexivity.
    + unfold ret. rewrite IH. reflexivity.
Qed.

End Frames.

(** ** What main streams and what it reports *)

Lemma failureLines_length (fs : FS) (args : list string) :
  forall outs : list (option bytes),
    length args = length outs ->
    length (failureLines fs args outs) = failures outs.
Proof.
  unfold failures.
  induction args as [|arg args IH]; intros [|[content|] outs] Hlen;
    try discriminate; cbn [failureLines filter length]; try reflexivity.
  - apply IH. injection Hlen as Hlen. exact Hlen.
  - f_equal. apply IH. injection Hlen as Hlen. exact Hlen.
Qed.

Lemma streams_to_yields (fs : FS) (arg : string) (out : option bytes) :
  streams_to fs arg out -> yields fs arg out.
Proof.
  destruct out as [content|]; cbn [streams_to yields]; intros Hout;
    [left|]; exact Hout.
Qed.

Section Streams.

Context {W : Type} `{Writer W}.
Variable fs : FS.

(** A call that fails before the copy returns the message the file
    system decides and leaves the writer alone. *)
Lemma cat_early_message (p : string) (s : World W) :
  fails_before_copy fs p ->
  exists evs,
    cat fs p s = (Some (fmt_Errorf (earlyMessage fs p)), after s evs (sink s)) /\
    written evs = [].
Proof.
  unfold earlyMessage.
  intros [(e & Hl) | [(m & Hl & Hd) | (m & e & Hl & Hd & Ho)]]; rewrite Hl.
  - eexists. split; [exact (cat_not_found fs p s e Hl) | reflexivity].
  - rewrite Hd. eexists. split; [exact (cat_directory fs p s m Hl Hd) | reflexivity].
  - rewrite Hd. eexists. split; [exact (cat_cannot_open fs p s m e Hl Hd Ho)|].
    unfold resolveEvents. destruct (modeIsSymlink m); reflexivity.
Qed.

(** A regular file, or a link whose text names one, goes to a writer
    that accepts every write as it is. *)
Lemma cat_yields_run (p : string) (content : bytes) (s : World W) :
  yields fs p (Some content) ->
  accepts_every_write W ->
  exists evs w',
    cat fs p s = (None, after s evs w') /\
    written evs = content /\
    forall Bytes : W -> bytes, keeps Bytes -> Bytes w' = Bytes (sink s) ++ content.
Proof.
  intros Hy Hacc.
  assert (Hopen : exists m,
             sys_lstat fs (filepath.Clean p) = Ok m /\ modeIsDir m = false /\
             sys_open fs (openPath fs (filepath.Clean p) m) = Ok (mkFile content None)).
  { destruct Hy as [(m & Hl & Hreg & Ho) | ((m & Hl & Hd & Hs) & t & Hr & (m' & _ & _ & Ho))].
    - exists m. split; [exact Hl|]. split; [exact (regular_not_dir m Hreg)|].
      unfold openPath. rewrite (regular_not_symlink m Hreg). exact Ho.
    - exists m. split; [exact Hl|]. split; [exact Hd|].
      unfold openPath. rewrite Hs, Hr. exact Ho. }
  destruct Hopen as (m & Hl & Hd & Ho).
  destruct (cat_copy fs p s m _ Hl Hd Ho) as (io & w' & err & Hcat & Hrun).
  pose proof (copyRun_accepting _ _ _ _ _ _ Hacc Hrun) as Herr.
  cbn in Herr. subst err.
  pose proof (copyRun_nil _ _ _ _ _ _ Hrun eq_refl) as Hw. cbn [unread] in Hw.
  eexists _, w'. split; [exact Hcat|]. split.
  - rewrite written_cat_events. exact Hw.
  - intros Bytes Hk. rewrite (copyRun_keeps Bytes _ _ _ _ _ _ Hk Hrun), Hw.
    reflexivity.
Qed.

(** Streaming files, links to files and paths that fail early to a
    writer that accepts every write: the bytes of the files in order,
    and for every failure the error with its message. *)
Lemma streamAll_yields (args : list string) (outs : list (option bytes)) :
  accepts_every_write W ->
  Forall2 (yields fs) args outs ->
  forall s : World W,
  exists errs evs w',
    streamAll fs args s = (errs, after s evs w') /\
    written evs = delivered outs /\
    errorLines errs = failureLines fs args outs /\
    forall Bytes : W -> bytes,
      keeps Bytes -> Bytes w' = Bytes (sink s) ++ delivered outs.
Proof.
  intros Hacc Hall.
  induction Hall as [|arg out args outs Hout _ IH]; intros s.
  - exists [], [], (sink s). split; [|split; [reflexivity|split; [reflexivity|]]].
    + destruct s; unfold after; cbn. rewrite app_nil_r. reflexivity.
    + intros Bytes _. cbn. rewrite app_nil_r. reflexivity.
  - destruct out as [content|].
    + destruct (cat_yields_run arg content s Hout Hacc) as (evs1 & w1 & Hcat & Hw & Hb1).
      destruct (IH (after s evs1 w1)) as (errs & evs & w2 & Hrest & Hw2 & Hlines & Hb).
      exists (None :: errs), (evs1 ++ evs), w2.
      cbn [streamAll]. rewrite Hcat, Hrest, after_after.
      split; [reflexivity|]. split; [|split].
      * rewrite written_app, Hw, Hw2. reflexivity.
      * exact Hlines.
      * intros Bytes Hk. rewrite (Hb Bytes Hk). cbn [sink after].
        rewrite (Hb1 Bytes Hk). cbn [delivered flat_map].
        rewrite <- app_assoc. reflexivity.
    + cbn [yields] in Hout.
      destruct (cat_early_message arg s Hout) as (evs1 & Hcat & Hw).
      destruct (IH (after s evs1 (sink s)))
        as (errs & evs & w2 & Hrest & Hw2 & Hlines & Hb).
      eexists (Some _ :: errs), (evs1 ++ evs), w2.
      cbn [streamAll]. rewrite Hcat, Hrest, after_after.
      split; [reflexivity|]. split; [|split].
      * rewrite written_app, Hw, Hw2. reflexivity.
      * cbn [errorLines flat_map app failureLines Error]. fold (errorLines errs).
        rewrite Hlines. reflexivity.
      * intros Bytes Hk. rewrite (Hb Bytes Hk). reflexivity.
Qed.

(** What streaming returned and left, read off its result. *)
Lemma streamAll_result (args : list string) (s : World W)
    (errs errs0 : list error) (evs evs0 : list event) (w w0 : W) :
  streamAll fs args s = (errs, after s evs w) ->
  streamAll fs args s = (errs0, after s evs0 w0) ->
  errs = errs0 /\ evs = evs0 /\ w = w0.
Proof.
  intros Hall Hall0. rewrite Hall in Hall0.
  pose proof (f_equal fst Hall0) as E1.
  pose proof (f_equal (fun r => trace (snd r)) Hall0) as E2.
  pose proof (f_equal (fun r => sink (snd r)) Hall0) as E3.
  unfold after in E2, E3. cbn [fst snd trace sink] in E1, E2, E3.
  apply app_inv_head in E2. auto.
Qed.

(** With arguments, [main] streams them and then prints the lines. *)
Lemma main_streams (args : list string) (stdin : File) (s : World W)
    (errs : list error) (evs : list event) (w' : W) :
  args <> [] ->
  streamAll fs args s = (errs, after s evs w') ->
  main fs args stdin s
  = (tt, mkWorld w' (stderr s +++ joined (errorLines errs))
           (trace s ++ evs ++ map EvStderr (errorLines errs))).
Proof.
  intros Hargs Hall. destruct args as [|arg rest]; [contradiction|].
  unfold main, bind. rewrite rangeArgs_streamAll, Hall. cbn [fst snd app].
  rewrite reportErrs_run. unfold after. cbn [sink stderr trace].
  rewrite <- app_assoc. reflexivity.
Qed.

End Streams.

(** * The specification, claim by claim *)

(** C1: for every regular file whose bytes the file system returns,
    found at the cleaned form of the path handed to [cat], and every
    writer that accepts every write, [cat] returns [nil]; the bytes
    written to the writer are the bytes of the file, in order and each
    once, text or not; a writer that keeps what it takes then holds what
    it held before followed by those bytes. *)
Theorem cat_regular_file {W : Type} `{Writer W} (fs : FS) (p : string)
    (content : bytes) (s : World W) :
  regular_file_at fs (filepath.Clean p) content ->
  accepts_every_write W ->
  exists evs w',
    cat fs p s = (None, after s evs w') /\
    written evs = content /\
    forall Bytes : W -> bytes, keeps Bytes -> Bytes w' = Bytes (sink s) ++ content.
Proof.
  intros (m & Hl & Hreg & Ho) Hacc.
  pose proof (regular_not_dir m Hreg) as Hd.
  pose proof (regular_not_symlink m Hreg) as Hs.
  assert (Hpath : openPath fs (filepath.Clean p) m = filepath.Clean p)
    by (unfold openPath; rewrite Hs; reflexivity).
  rewrite <- Hpath in Ho.
  destruct (cat_copy fs p s m _ Hl Hd Ho) as (io & w' & err & Hcat & Hrun).
  pose proof (copyRun_accepting _ _ _ _ _ _ Hacc Hrun) as Herr.
  cbn in Herr. subst err.
  pose proof (copyRun_nil _ _ _ _ _ _ Hrun eq_refl) as Hw. cbn [unread] in Hw.
  eexists _, w'. split; [exact Hcat|]. split.
  - rewrite written_cat_events. exact Hw.
  - intros Bytes Hk. rewrite (copyRun_keeps Bytes _ _ _ _ _ _ Hk Hrun), Hw.
    reflexivity.
Qed.

Lemma cat_regular_file_witness :
  regular_file_at testdata (filepath.Clean "./testdata/x.png") x_png /\
  accepts_every_write completeWriter /\
  exists evs w',
    cat testdata "./testdata/x.png" (world newCompleteWriter)
    = (None, after (world newCompleteWriter) evs w') /\
    written evs = x_png /\
    forall Bytes : completeWriter -> bytes,
      keeps Bytes -> Bytes w' = Bytes (sink (world newCompleteWriter)) ++ x_png.
Proof.
  assert (Hreg : regular_file_at testdata (filepath.Clean "./testdata/x.png") x_png)
    by (exists 420%Z; vm_compute; auto).
  assert (Hacc : accepts_every_write completeWriter)
    by (intros w q; reflexivity).
  split; [exact Hreg|]. split; [exact Hacc|].
  exact (cat_regular_file testdata "./testdata/x.png" x_png
           (world newCompleteWriter) Hreg Hacc).
Defined.

(** C2, as the code has it: when the metadata of the cleaned path cannot
    be retrieved, [cat] fails with a not-found error whose message names
    the cleaned path, followed by ": No such file or directory"; it has
    asked for the metadata and done nothing else. *)
Theorem cat_not_found_names_cleaned_path {W : Type} `{Writer W} (fs : FS)
    (p : string) (s : World W) (e : errorValue) :
  sys_lstat fs (filepath.Clean p) = Fail e ->
  exists err,
    cat fs p s = (Some err, after s [EvLstat (filepath.Clean p)] (sink s)) /\
    Error err = filepath.Clean p +++ ": No such file or directory".
Proof.
  intros Hl. eexists. split; [exact (cat_not_found fs p s e Hl) | reflexivity].
Qed.

Lemma cat_not_found_names_cleaned_path_witness :
  sys_lstat testdata (filepath.Clean "./none.txt")
  = Fail (os_PathError "lstat" "none.txt" ENOENT) /\
  exists err,
    cat testdata "./none.txt" (world newIncompleteWriter)
    = (Some err, after (world newIncompleteWriter)
                   [EvLstat (filepath.Clean "./none.txt")] newIncompleteWriter) /\
    Error err = filepath.Clean "./none.txt" +++ ": No such file or directory".
Proof.
  assert (Hl : sys_lstat testdata (filepath.Clean "./none.txt")
               = Fail (os_PathError "lstat" "none.txt" ENOENT))
    by (vm_compute; reflexivity).
  split; [exact Hl|].
  exact (cat_not_found_names_cleaned_path testdata "./none.txt"
           (world newIncompleteWriter) _ Hl).
Defined.

(** C2, as stated, fails: neither ./none.txt nor its cleaned form exists,
    and the message of the error names none.txt, the cleaned form; the
    path as given does not occur in it.  And the metadata of
    nowhere/../testdata/b.md cannot be retrieved, there being no entry
    nowhere, yet [cat] cleans the path to testdata/b.md and succeeds. *)
Lemma cat_not_found_path_as_given_counterexample :
  sys_lstat testdata "./none.txt" = Fail (os_PathError "lstat" "./none.txt" ENOENT) /\
  sys_lstat testdata (filepath.Clean "./none.txt")
  = Fail (os_PathError "lstat" "none.txt" ENOENT) /\
  option_map Error (fst (cat testdata "./none.txt" (world newIncompleteWriter)))
  = Some "none.txt: No such file or directory" /\
  option_map Error (fst (cat testdata "./none.txt" (world newIncompleteWriter)))
  <> Some ("./none.txt" +++ ": No such file or directory") /\
  String.index 0 "./none.txt" "none.txt: No such file or directory" = None /\
  sys_lstat testdata "nowhere/../testdata/b.md"
  = Fail (os_PathError "lstat" "nowhere/../testdata/b.md" ENOENT) /\
  fst (cat testdata "nowhere/../testdata/b.md" (world newCompleteWriter)) = None.
Proof.
  repeat split; try (vm_compute; reflexivity).
  vm_compute. discriminate.
Qed.

(** C3: for every path whose cleaned form is a directory (the entry
    itself, links not followed), [cat] fails with an is-a-directory error
    whose message names the base name of that path, followed by
    ": Is a directory"; the base name holds no separator, unless it is
    the root itself. *)
Theorem cat_directory_names_base {W : Type} `{Writer W} (fs : FS)
    (p : string) (s : World W) :
  directory_at fs (filepath.Clean p) ->
  exists err,
    cat fs p s = (Some err, after s [EvLstat (filepath.Clean p)] (sink s)) /\
    Error err = basename (filepath.Clean p) +++ ": Is a directory" /\
    forall c : ascii,
      In c (list_ascii_of_string (basename (filepath.Clean p))) ->
      filepath.IsPathSeparator c = true -> basename (filepath.Clean p) = "/".
Proof.
  intros (m & Hl & Hd). eexists. split; [exact (cat_directory fs p s m Hl Hd)|].
  split; [reflexivity|]. apply basename_no_separator.
Qed.

Lemma cat_directory_names_base_witness :
  directory_at testdata (filepath.Clean "testdata/sub/") /\
  basename (filepath.Clean "testdata/sub/") = "sub" /\
  exists err,
    cat testdata "testdata/sub/" (world newIncompleteWriter)
    = (Some err, after (world newIncompleteWriter)
                   [EvLstat (filepath.Clean "testdata/sub/")] newIncompleteWriter) /\
    Error err = basename (filepath.Clean "testdata/sub/") +++ ": Is a directory" /\
    forall c : ascii,
      In c (list_ascii_of_string (basename (filepath.Clean "testdata/sub/"))) ->
      filepath.IsPathSeparator c = true ->
      basename (filepath.Clean "testdata/sub/") = "/".
Proof.
  assert (Hdir : directory_at testdata (filepath.Clean "testdata/sub/"))
    by (exists (Z.lor ModeDir 493); vm_compute; auto).
  split; [exact Hdir|]. split; [vm_compute; reflexivity|].
  exact (cat_directory_names_base testdata "testdata/sub/"
           (world newIncompleteWriter) Hdir).
Defined.



(** C5, as the code has it: for every path whose cleaned form is a
    symbolic link with the text [t], when [t], taken as a path as it was
    read (the process opens it from its working directory, not from the
    directory of the link), is a regular file whose bytes the file
    system returns, and the writer accepts every write, [cat] returns
    [nil] and the bytes written are the bytes of that file; the link is
    read once, [t] is opened as it was read, and all further calls are
    reads of the file and writes, up to the close. *)
Theorem cat_symlink_to_regular_file {W : Type} `{Writer W} (fs : FS)
    (p t : string) (content : bytes) (s : World W) :
  symlink_at fs (filepath.Clean p) ->
  readlink fs (filepath.Clean p) = Ok t ->
  regular_file_at fs t content ->
  accepts_every_write W ->
  exists io w',
    cat fs p s
    = (None, after s ([EvLstat (filepath.Clean p); EvReadlink (filepath.Clean p);
                       EvOpen t] ++ io ++ [EvClose]) w') /\
    Forall (fun e => isIO e = true) io /\
    written io = content /\
    forall Bytes : W -> bytes, keeps Bytes -> Bytes w' = Bytes (sink s) ++ content.
Proof.
  intros (m & Hl & Hd & Hs) Hr (m' & _ & _ & Ho) Hacc.
  assert (Hpath : openPath fs (filepath.Clean p) m = t)
    by (unfold openPath; rewrite Hs, Hr; reflexivity).
  rewrite <- Hpath in Ho.
  destruct (cat_copy fs p s m _ Hl Hd Ho) as (io & w' & err & Hcat & Hrun).
  pose proof (copyRun_accepting _ _ _ _ _ _ Hacc Hrun) as Herr.
  cbn in Herr. subst err.
  pose proof (copyRun_nil _ _ _ _ _ _ Hrun eq_refl) as Hw. cbn [unread] in Hw.
  unfold resolveEvents in Hcat. rewrite Hs, Hpath in Hcat.
  exists io, w'. split; [exact Hcat|].
  split; [exact (copyRun_io _ _ _ _ _ _ Hrun)|]. split; [exact Hw|].
  intros Bytes Hk. rewrite (copyRun_keeps Bytes _ _ _ _ _ _ Hk Hrun), Hw.
  reflexivity.
Qed.

Lemma cat_symlink_to_regular_file_witness :
  symlink_at testdata (filepath.Clean "./testdata/c.txt") /\
  readlink testdata (filepath.Clean "./testdata/c.txt") = Ok "testdata/a.txt" /\
  regular_file_at testdata "testdata/a.txt" a_txt /\
  accepts_every_write completeWriter /\
  exists io w',
    cat testdata "./testdata/c.txt" (world newCompleteWriter)
    = (None, after (world newCompleteWriter)
               ([EvLstat (filepath.Clean "./testdata/c.txt");
                 EvReadlink (filepath.Clean "./testdata/c.txt");
                 EvOpen "testdata/a.txt"] ++ io ++ [EvClose]) w') /\
    Forall (fun e => isIO e = true) io /\
    written io = a_txt /\
    forall Bytes : completeWriter -> bytes,
      keeps Bytes -> Bytes w' = Bytes (sink (world newCompleteWriter)) ++ a_txt.
Proof.
  assert (Hs : symlink_at testdata (filepath.Clean "./testdata/c.txt"))
    by (exists (Z.lor ModeSymlink 511); vm_compute; auto).
  assert (Hr : readlink testdata (filepath.Clean "./testdata/c.txt")
               = Ok "testdata/a.txt") by (vm_compute; reflexivity).
  assert (Hreg : regular_file_at testdata "testdata/a.txt" a_txt)
    by (exists 420%Z; vm_compute; auto).
  assert (Hacc : accepts_every_write completeWriter)
    by (intros w q; reflexivity).
  split; [exact Hs|]. split; [exact Hr|]. split; [exact Hreg|]. split; [exact Hacc|].
  exact (cat_symlink_to_regular_file testdata "./testdata/c.txt" "testdata/a.txt"
           a_txt (world newCompleteWriter) Hs Hr Hreg Hacc).
Defined.

(** C5, as stated, fails: [d/l] is a symbolic link with the text [f],
    so its target is the regular file [d/f] beside it, which exists and
    which the kernel reaches when [d/l] is opened.  [cat] reads the link
    and opens its text [f] as it stands, from the working directory,
    where there is no such entry: it fails with cannot open f and writes
    nothing, though the writer accepts every write. *)
Lemma cat_relative_symlink_counterexample :
  symlink_at reldata (filepath.Clean "d/l") /\
  readlink reldata (filepath.Clean "d/l") = Ok "f" /\
  regular_file_at reldata "d/f" b_md /\
  sys_open reldata "d/l" = Ok (mkFile b_md None) /\
  sys_lstat reldata "f" = Fail (os_PathError "lstat" "f" ENOENT) /\
  accepts_every_write completeWriter /\
  cat reldata "d/l" (world newCompleteWriter)
  = (Some (fmt_Errorf "cannot open f"),
     mkWorld newCompleteWriter ""
       [EvLstat "d/l"; EvReadlink "d/l"; EvOpen "f"]) /\
  fst (cat reldata "d/l" (world newCompleteWriter)) <> None /\
  written (trace (snd (cat reldata "d/l" (world newCompleteWriter)))) <> b_md.
Proof.
  split; [exists (Z.lor ModeSymlink 511); vm_compute; auto|].
  split; [vm_compute; reflexivity|].
  split; [exists 420%Z; vm_compute; auto|].
  split; [vm_compute; reflexivity|].
  split; [vm_compute; reflexivity|].
  split; [intros w q; reflexivity|].
  split; [vm_compute; reflexivity|].
  split; vm_compute; discriminate.
Qed.

(** C6: for every regular file at the cleaned form of the path and every
    writer, when a write of the call is rejected with the error [e],
    [cat] returns [e] itself; the bytes the writer took before are the
    first bytes of the file, and a writer that keeps what it takes still
    holds them after what it held before. *)
Theorem cat_write_failure {W : Type} `{Writer W} (fs : FS) (p : string)
    (content : bytes) (s s' : World W) (err : error) (evs : list event)
    (q : bytes) (n : Z) (e : errorValue) :
  regular_file_at fs (filepath.Clean p) content ->
  cat fs p s = (err, s') ->
  trace s' = trace s ++ evs ->
  In (EvWrite q n (Some e)) evs ->
  err = Some e /\
  (exists rest, content = written evs ++ rest) /\
  forall Bytes : W -> bytes,
    keeps Bytes -> Bytes (sink s') = Bytes (sink s) ++ written evs.
Proof.
  intros (m & Hl & Hreg & Ho) Hcat Htrace Hin.
  pose proof (regular_not_dir m Hreg) as Hd.
  pose proof (regular_not_symlink m Hreg) as Hs.
  assert (Hpath : openPath fs (filepath.Clean p) m = filepath.Clean p)
    by (unfold openPath; rewrite Hs; reflexivity).
  rewrite <- Hpath in Ho.
  destruct (cat_copy fs p s m _ Hl Hd Ho) as (io & w' & err' & Hcat' & Hrun).
  rewrite Hcat in Hcat'.
  pose proof (f_equal fst Hcat') as E1. pose proof (f_equal snd Hcat') as E2.
  cbn [fst snd] in E1, E2. subst err s'. clear Hcat'.
  unfold after in Htrace |- *. cbn [trace sink] in Htrace |- *.
  apply app_inv_head in Htrace. subst evs.
  rewrite written_cat_events.
  assert (Hio : In (EvWrite q n (Some e)) io).
  { unfold resolveEvents in Hin. rewrite Hs in Hin. cbn [app] in Hin.
    destruct Hin as [Hin|[Hin|Hin]]; [discriminate | discriminate |].
    apply in_app_or in Hin as [Hin|[Hin|[]]]; [exact Hin | discriminate]. }
  split; [exact (copyRun_rejected _ _ _ _ _ _ Hrun q n e Hio)|].
  split; [exact (copyRun_prefix _ _ _ _ _ _ Hrun)|].
  intros Bytes Hk. exact (copyRun_keeps Bytes _ _ _ _ _ _ Hk Hrun).
Qed.

Lemma cat_write_failure_witness :
  regular_file_at testdata (filepath.Clean "testdata/a.txt") a_txt /\
  cat testdata "testdata/a.txt" (world newFaultyWriter)
  = (Some io_ErrUnexpectedEOF,
     mkWorld newFaultyWriter ""
       [EvLstat "testdata/a.txt"; EvOpen "testdata/a.txt"; EvRead a_txt;
        EvWrite a_txt 0 (Some io_ErrUnexpectedEOF); EvClose]) /\
  Some io_ErrUnexpectedEOF = Some io_ErrUnexpectedEOF /\
  (exists rest,
     a_txt = written [EvLstat "testdata/a.txt"; EvOpen "testdata/a.txt"; EvRead a_txt;
                      EvWrite a_txt 0 (Some io_ErrUnexpectedEOF); EvClose] ++ rest) /\
  forall Bytes : faultyWriter -> bytes,
    keeps Bytes ->
    Bytes newFaultyWriter
    = Bytes newFaultyWriter
      ++ written [EvLstat "testdata/a.txt"; EvOpen "testdata/a.txt"; EvRead a_txt;
                  EvWrite a_txt 0 (Some io_ErrUnexpectedEOF); EvClose].
Proof.
  assert (Hreg : regular_file_at testdata (filepath.Clean "testdata/a.txt") a_txt)
    by (exists 420%Z; vm_compute; auto).
  assert (Hcat : cat testdata "testdata/a.txt" (world newFaultyWriter)
                 = (Some io_ErrUnexpectedEOF,
                    mkWorld newFaultyWriter ""
                      [EvLstat "testdata/a.txt"; EvOpen "testdata/a.txt"; EvRead a_txt;
                       EvWrite a_txt 0 (Some io_ErrUnexpectedEOF); EvClose]))
    by (vm_compute; reflexivity).
  split; [exact Hreg|]. split; [exact Hcat|].
  exact (cat_write_failure testdata "testdata/a.txt" a_txt (world newFaultyWriter)
           _ _ _ a_txt 0%Z io_ErrUnexpectedEOF Hreg Hcat eq_refl
           (or_intror (or_intror (or_intror (or_introl eq_refl))))).
Defined.

(** C7, as the code has it: [cat] returns at most one error, settled by
    checks in a fixed order, each reached only when the ones before did
    not fail: the metadata of the cleaned path (not-found), the directory
    bit (is-a-directory), the open of the path or of the text of the link
    (cannot-open), and then the copy, whose error is that of a failed
    write or, once every byte was written, the failure to read the
    opened file.  The calls made show how far it went, and the writer is
    untouched before the copy. *)
Theorem cat_error_order {W : Type} `{Writer W} (fs : FS) (p : string) (s : World W) :
  exists err evs w',
    cat fs p s = (err, after s evs w') /\
    match sys_lstat fs (filepath.Clean p) with
    | Fail _ =>
        err = Some (fmt_Errorf (filepath.Clean p +++ ": No such file or directory")) /\
        evs = [EvLstat (filepath.Clean p)] /\ w' = sink s
    | Ok m =>
        if modeIsDir m then
          err = Some (fmt_Errorf (basename (filepath.Clean p) +++ ": Is a directory")) /\
          evs = [EvLstat (filepath.Clean p)] /\ w' = sink s
        else
          match sys_open fs (openPath fs (filepath.Clean p) m) with
          | Fail _ =>
              err = Some (fmt_Errorf ("cannot open " +++ openPath fs (filepath.Clean p) m)) /\
              evs = EvLstat (filepath.Clean p) :: resolveEvents (filepath.Clean p) m
                    ++ [EvOpen (openPath fs (filepath.Clean p) m)] /\
              w' = sink s
          | Ok f =>
              exists io,
                evs = EvLstat (filepath.Clean p) :: resolveEvents (filepath.Clean p) m
                      ++ [EvOpen (openPath fs (filepath.Clean p) m)] ++ io ++ [EvClose] /\
                Forall (fun e => isIO e = true) io /\
                forall e, err = Some e ->
                  (exists q n ew, In (EvWrite q n ew) io /\
                                  writeError (length q) n ew = Some e) \/
                  (fault f = Some e /\ is_EOF e = false /\ written io = unread f /\
                   forall q n ew, In (EvWrite q n ew) io ->
                                  writeError (length q) n ew = None)
          end
    end.
Proof.
  destruct (sys_lstat fs (filepath.Clean p)) as [m|e] eqn:Hl.
  2:{ eexists _, _, _. split; [exact (cat_not_found fs p s e Hl)|]. auto. }
  destruct (modeIsDir m) eqn:Hd.
  { eexists _, _, _. split; [exact (cat_directory fs p s m Hl Hd)|]. auto. }
  destruct (sys_open fs (openPath fs (filepath.Clean p) m)) as [f|e] eqn:Ho.
  - destruct (cat_copy fs p s m f Hl Hd Ho) as (io & w' & err & Hcat & Hrun).
    eexists _, _, _. split; [exact Hcat|].
    exists io. split; [reflexivity|].
    split; [exact (copyRun_io _ _ _ _ _ _ Hrun)|].
    intros e He. exact (copyRun_error _ _ _ _ _ _ e Hrun He).
  - eexists _, _, _. split; [exact (cat_cannot_open fs p s m e Hl Hd Ho)|]. auto.
Qed.

(** C7, as stated, fails: [testdata/up] is a link to the directory
    [testdata].  Its metadata is there, it is no directory itself, the
    open succeeds, no write is made, and yet [cat] returns an error: the
    read of the opened directory failed. *)
Lemma cat_read_failure_counterexample :
  cat testdata "testdata/up" (world newCompleteWriter)
  = (Some (os_PathError "read" "testdata" "is a directory"),
     mkWorld newCompleteWriter ""
       [EvLstat "testdata/up"; EvReadlink "testdata/up"; EvOpen "testdata";
        EvRead []; EvClose]) /\
  Error (os_PathError "read" "testdata" "is a directory")
  = "read testdata: is a directory" /\
  sys_lstat testdata (filepath.Clean "testdata/up") = Ok (Z.lor ModeSymlink 511) /\
  modeIsDir (Z.lor ModeSymlink 511) = false /\
  sys_open testdata (openPath testdata (filepath.Clean "testdata/up") (Z.lor ModeSymlink 511))
  = Ok (mkFile [] (Some (os_PathError "read" "testdata" "is a directory"))) /\
  accepts_every_write completeWriter.
Proof.
  repeat split; try (vm_compute; reflexivity).
Qed.

(** C8: for every list of one or more file arguments, [main] streams the
    files to standard output one after the other in the order of the
    arguments, each whatever the ones before returned; the metadata of
    every argument is asked for, once and in that order; and standard
    error receives, after all of these calls and not among them, one line
    "cat: " message newline per file that failed, in the order of the
    arguments.  What reaches standard output: when it accepts every
    write and every argument is a regular file, a link whose text names
    one, or a path on which [cat] fails before the copy, the bytes
    written are the contents of the files, in the order of the
    arguments, the failing ones adding nothing and stopping nothing, and
    the lines on standard error are those of the failing arguments, each
    with the message of its failure. *)
Theorem main_streams_every_file {W : Type} `{Writer W} (fs : FS)
    (args : list string) (stdin : File) (s : World W) :
  args <> [] ->
  exists errs evs w',
    streamAll fs args s = (errs, after s evs w') /\
    main fs args stdin s
    = (tt, mkWorld w' (stderr s +++ joined (errorLines errs))
             (trace s ++ evs ++ map EvStderr (errorLines errs))) /\
    length errs = length args /\
    lstats evs = map filepath.Clean args /\
    Forall (fun e => isStderr e = false) evs /\
    forall outs : list (option bytes),
      accepts_every_write W ->
      Forall2 (yields fs) args outs ->
      written evs = delivered outs /\
      errorLines errs = failureLines fs args outs /\
      length (errorLines errs) = failures outs /\
      forall Bytes : W -> bytes,
        keeps Bytes -> Bytes w' = Bytes (sink s) ++ delivered outs.
Proof.
  intros Hargs.
  destruct (streamAll_frame fs args s) as (errs & evs & w' & Hall & Hlen & Hl & Hs).
  exists errs, evs, w'. split; [exact Hall|].
  split; [exact (main_streams fs args stdin s errs evs w' Hargs Hall)|].
  split; [exact Hlen|]. split; [exact Hl|]. split; [exact Hs|].
  intros outs Hacc Houts.
  destruct (streamAll_yields fs args outs Hacc Houts s)
    as (errs0 & evs0 & w0 & Hall0 & Hw & Hlines & Hb).
  destruct (streamAll_result fs args s _ _ _ _ _ _ Hall Hall0) as (-> & -> & ->).
  split; [exact Hw|]. split; [exact Hlines|]. split; [|exact Hb].
  rewrite Hlines. apply failureLines_length.
  exact (Forall2_length Houts).
Qed.

Lemma main_streams_every_file_witness :
  ["testdata/a.txt"; "none.txt"; "testdata/c.txt"; "testdata"; "testdata/b.md"] <> [] /\
  accepts_every_write completeWriter /\
  Forall2 (yields testdata)
    ["testdata/a.txt"; "none.txt"; "testdata/c.txt"; "testdata"; "testdata/b.md"]
    [Some a_txt; None; Some a_txt; None; Some b_md] /\
  failureLines testdata
    ["testdata/a.txt"; "none.txt"; "testdata/c.txt"; "testdata"; "testdata/b.md"]
    [Some a_txt; None; Some a_txt; None; Some b_md]
  = ["cat: none.txt: No such file or directory" +++ nl;
     "cat: testdata: Is a directory" +++ nl] /\
  exists errs evs w',
    streamAll testdata
      ["testdata/a.txt"; "none.txt"; "testdata/c.txt"; "testdata"; "testdata/b.md"]
      (world newCompleteWriter)
    = (errs, after (world newCompleteWriter) evs w') /\
    main testdata
      ["testdata/a.txt"; "none.txt"; "testdata/c.txt"; "testdata"; "testdata/b.md"]
      (mkFile [] None) (world newCompleteWriter)
    = (tt, mkWorld w' (stderr (world newCompleteWriter) +++ joined (errorLines errs))
             (trace (world newCompleteWriter) ++ evs ++ map EvStderr (errorLines errs))) /\
    length errs
    = length ["testdata/a.txt"; "none.txt"; "testdata/c.txt"; "testdata"; "testdata/b.md"] /\
    lstats evs
    = map filepath.Clean
        ["testdata/a.txt"; "none.txt"; "testdata/c.txt"; "testdata"; "testdata/b.md"] /\
    Forall (fun e => isStderr e = false) evs /\
    written evs = delivered [Some a_txt; None; Some a_txt; None; Some b_md] /\
    errorLines errs
    = failureLines testdata
        ["testdata/a.txt"; "none.txt"; "testdata/c.txt"; "testdata"; "testdata/b.md"]
        [Some a_txt; None; Some a_txt; None; Some b_md] /\
    length (errorLines errs) = failures [Some a_txt; None; Some a_txt; None; Some b_md] /\
    forall Bytes : completeWriter -> bytes,
      keeps Bytes ->
      Bytes w' = Bytes (sink (world newCompleteWriter))
                 ++ delivered [Some a_txt; None; Some a_txt; None; Some b_md].
Proof.
  assert (Hargs : ["testdata/a.txt"; "none.txt"; "testdata/c.txt"; "testdata";
                   "testdata/b.md"] <> []) by discriminate.
  assert (Hacc : accepts_every_write completeWriter) by (intros w q; reflexivity).
  assert (Houts : Forall2 (yields testdata)
                    ["testdata/a.txt"; "none.txt"; "testdata/c.txt"; "testdata";
                     "testdata/b.md"]
                    [Some a_txt; None; Some a_txt; None; Some b_md]).
  { constructor.
    { left. exists 420%Z. vm_compute. auto. }
    constructor.
    { left. exists (os_PathError "lstat" "none.txt" ENOENT). vm_compute. reflexivity. }
    constructor.
    { right. split.
      - exists (Z.lor ModeSymlink 511). vm_compute. auto.
      - exists "testdata/a.txt". split; [vm_compute; reflexivity|].
        exists 420%Z. vm_compute. auto. }
    constructor.
    { right. left. exists (Z.lor ModeDir 493). vm_compute. auto. }
    constructor; [|constructor].
    left. exists 420%Z. vm_compute. auto. }
  split; [exact Hargs|]. split; [exact Hacc|]. split; [exact Houts|].
  split; [vm_compute; reflexivity|].
  destruct (main_streams_every_file testdata
              ["testdata/a.txt"; "none.txt"; "testdata/c.txt"; "testdata"; "testdata/b.md"]
              (mkFile [] None) (world newCompleteWriter) Hargs)
    as (errs & evs & w' & Hall & Hmain & Hlen & Hl & Hs & Hout).
  destruct (Hout _ Hacc Houts) as (Hw & Hlines & Hcount & Hb).
  exists errs, evs, w'.
  repeat (split; [assumption|]). exact Hb.
Defined.

(** The run of the witness: both files that exist on standard output,
    the line for the missing one on standard error, last. *)
Example main_three_files :
  main testdata ["testdata/a.txt"; "none.txt"; "testdata/b.md"] (mkFile [] None)
    (world newCompleteWriter)
  = (tt, mkWorld (mkCompleteWriter (a_txt ++ b_md))
           ("cat: none.txt: No such file or directory" +++ nl)
           [EvLstat "testdata/a.txt"; EvOpen "testdata/a.txt"; EvRead a_txt;
            EvWrite a_txt 5 None; EvRead []; EvClose;
            EvLstat "none.txt";
            EvLstat "testdata/b.md"; EvOpen "testdata/b.md"; EvRead b_md;
            EvWrite b_md 5 None; EvRead []; EvClose;
            EvStderr ("cat: none.txt: No such file or directory" +++ nl)]).
Proof. vm_compute. reflexivity. Qed.

(** C9: for every path whose cleaned form is a symbolic link whose text
    cannot be read, [cat] goes on to the open with the empty string as
    the path; the open fails and [cat] returns the cannot-open error that
    names the empty string, neither the link nor a target. *)
Theorem cat_unreadable_symlink {W : Type} `{Writer W} (fs : FS) (p : string)
    (s : World W) (e : errorValue) :
  symlink_at fs (filepath.Clean p) ->
  readlink fs (filepath.Clean p) = Fail e ->
  exists err,
    cat fs p s
    = (Some err, after s [EvLstat (filepath.Clean p); EvReadlink (filepath.Clean p);
                          EvOpen ""] (sink s)) /\
    Error err = "cannot open " +++ "".
Proof.
  intros (m & Hl & Hd & Hs) Hr.
  assert (Hpath : openPath fs (filepath.Clean p) m = "")
    by (unfold openPath; rewrite Hs, Hr; reflexivity).
  assert (Ho : sys_open fs (openPath fs (filepath.Clean p) m)
               = Fail (os_PathError "open" "" ENOENT))
    by (rewrite Hpath; reflexivity).
  pose proof (cat_cannot_open fs p s m _ Hl Hd Ho) as Hcat.
  unfold resolveEvents in Hcat. rewrite Hs, Hpath in Hcat.
  eexists. split; [exact Hcat | reflexivity].
Qed.

Lemma cat_unreadable_symlink_witness :
  symlink_at testdata (filepath.Clean "testdata/gone") /\
  readlink testdata (filepath.Clean "testdata/gone")
  = Fail (os_PathError "readlink" "testdata/gone" ENOENT) /\
  exists err,
    cat testdata "testdata/gone" (world newIncompleteWriter)
    = (Some err, after (world newIncompleteWriter)
                   [EvLstat (filepath.Clean "testdata/gone");
                    EvReadlink (filepath.Clean "testdata/gone");
                    EvOpen ""] newIncompleteWriter) /\
    Error err = "cannot open " +++ "".
Proof.
  assert (Hs : symlink_at testdata (filepath.Clean "testdata/gone"))
    by (exists (Z.lor ModeSymlink 511); vm_compute; auto).
  assert (Hr : readlink testdata (filepath.Clean "testdata/gone")
               = Fail (os_PathError "readlink" "testdata/gone" ENOENT))
    by (vm_compute; reflexivity).
  split; [exact Hs|]. split; [exact Hr|].
  exact (cat_unreadable_symlink testdata "testdata/gone"
           (world newIncompleteWriter) _ Hs Hr).
Defined.

(** C10: for every path and writer, when [cat] fails before the copy
    (metadata not found, a directory, or the open failing), it returns an
    error, no write was made and the writer is as it was. *)
Theorem cat_early_failure_writes_nothing {W : Type} `{Writer W} (fs : FS)
    (p : string) (s : World W) :
  fails_before_copy fs p ->
  exists err evs,
    cat fs p s = (Some err, after s evs (sink s)) /\
    (forall q n ew, ~ In (EvWrite q n ew) evs) /\
    written evs = [].
Proof.
  intros [(e & Hl) | [(m & Hl & Hd) | (m & e & Hl & Hd & Ho)]].
  - eexists _, _. split; [exact (cat_not_found fs p s e Hl)|].
    split; [|reflexivity]. intros q n ew [Hin|[]]; discriminate.
  - eexists _, _. split; [exact (cat_directory fs p s m Hl Hd)|].
    split; [|reflexivity]. intros q n ew [Hin|[]]; discriminate.
  - eexists _, _. split; [exact (cat_cannot_open fs p s m e Hl Hd Ho)|].
    unfold resolveEvents. destruct (modeIsSymlink m); (split; [|reflexivity]).
    + intros q n ew [Hin|[Hin|[Hin|[]]]]; discriminate.
    + intros q n ew [Hin|[Hin|[]]]; discriminate.
Qed.

Lemma cat_early_failure_writes_nothing_witness :
  fails_before_copy testdata "testdata/d.txt" /\
  exists err evs,
    cat testdata "testdata/d.txt" (world (mkIncompleteWriter a_txt))
    = (Some err, after (world (mkIncompleteWriter a_txt)) evs
                   (sink (world (mkIncompleteWriter a_txt)))) /\
    (forall q n ew, ~ In (EvWrite q n ew) evs) /\
    written evs = [].
Proof.
  assert (Hf : fails_before_copy testdata "testdata/d.txt").
  { right. right. exists (Z.lor ModeSymlink 511).
    exists (os_PathError "open" "testdata/none.txt" ENOENT).
    vm_compute. auto. }
  split; [exact Hf|].
  exact (cat_early_failure_writes_nothing testdata "testdata/d.txt"
           (world (mkIncompleteWriter a_txt)) Hf).
Defined.

(** A file longer than the buffer of [io.Copy] goes through in two
    writes, the first of [copyBufSize] bytes. *)
Example copy_two_buffers :
  let content := repeat x61 (Z.to_nat 40000) in
  let fs := mkFS (fun _ => Ok 420%Z) (fun _ => Fail io_EOF)
                 (fun _ => Ok (mkFile content None)) in
  let '(err, s) := cat fs "long.txt" (world newCompleteWriter) in
  match err with None => true | Some _ => false end
  && forallb (Byte.eqb x61) (cbuf (sink s))
  && (Z.of_nat (length (cbuf (sink s))) =? 40000)%Z
  && match filter isWrite (trace s) with
     | [EvWrite _ n1 None; EvWrite _ n2 None] => (n1 =? 32768)%Z && (n2 =? 7232)%Z
     | _ => false
     end
  = true.
Proof. vm_compute. reflexivity. Qed.

(** An empty file asks nothing of the writer: even the writer that
    rejects every write sees no call, and [cat] returns [nil]. *)
Example empty_file_faulty_writer :
  let fs := mkFS (fun _ => Ok 420%Z) (fun _ => Fail io_EOF)
                 (fun _ => Ok (mkFile [] None)) in
  cat fs "empty.txt" (world newFaultyWriter)
  = (None, mkWorld newFaultyWriter ""
             [EvLstat "empty.txt"; EvOpen "empty.txt"; EvRead []; EvClose]).
Proof. vm_compute. reflexivity. Qed.

(** * Further properties of the program *)

(** ** More on the copy *)

Section CopyMore.

Context {W : Type} `{Writer W}.

(** With no byte to read the copy asks the writer nothing. *)
Lemma copyRun_empty (size : nat) (f : File) (w w' : W) (evs : list event) (err : error) :
  unread f = [] ->
  copyRun size f w evs w' err ->
  evs = [EvRead []] /\ w' = w /\ err = endError f.
Proof.
  intros Hf Hrun. inversion Hrun; subst; [auto | contradiction | contradiction].
Qed.

(** A writer that accepts every write is written every byte, fault or not. *)
Lemma copyRun_accepting_written (size : nat) (f : File) (w w' : W)
    (evs : list event) (err : error) :
  accepts_every_write W ->
  copyRun size f w evs w' err -> written evs = unread f.
Proof.
  intros Hacc.
  induction 1 as [f w Hf | f w w' n ew e Hf HW HE
                  | f w w' w'' n ew evs err Hf HW HE Hrun IH].
  - rewrite Hf. reflexivity.
  - pose proof (Hacc w (firstn size (unread f))) as Ha.
    rewrite HW in Ha. cbn [snd] in Ha. injection Ha as -> ->.
    rewrite writeError_full in HE. discriminate.
  - apply writeError_None in HE as [-> _].
    unfold written in *. cbn [flat_map accepted app].
    rewrite Nat2Z.id, firstn_all, IH. cbn [unread]. apply firstn_skipn.
Qed.

(** A write that reports, without an error of its own, a count other
    than the bytes it was handed ends the copy with [countError]. *)
Lemma copyRun_miscounted (size : nat) (f : File) (w w' : W) (evs : list event) (err : error) :
  copyRun size f w evs w' err ->
  forall (q : bytes) (n : Z),
    In (EvWrite q n None) evs -> n <> Z.of_nat (length q) ->
    err = Some (countError (length q) n).
Proof.
  induction 1 as [f w Hf | f w w' n ew e Hf HW HE
                  | f w w' w'' n ew evs err Hf HW HE Hrun IH]; intros q k Hin Hk.
  - destruct Hin as [Hin|[]]; discriminate.
  - destruct Hin as [Hin|[Hin|[]]]; [discriminate|].
    injection Hin as <- <- ->. rewrite <- HE.
    unfold writeError, countError.
    destruct ((n <? 0) || (Z.of_nat _ <? n))%Z; [reflexivity|].
    destruct (Z.eqb_spec (Z.of_nat (length (firstn size (unread f)))) n) as [E|_];
      [congruence | reflexivity].
  - destruct Hin as [Hin|[Hin|Hin]]; [discriminate | | exact (IH q k Hin Hk)].
    injection Hin as <- <- _. apply writeError_None in HE as [E _]. contradiction.
Qed.

(** A rejected write is the last call of the copy. *)
Lemma copyRun_rejected_last (size : nat) (f : File) (w w' : W) (evs : list event)
    (err : error) :
  copyRun size f w evs w' err ->
  forall (q : bytes) (n : Z) (e : errorValue),
    In (EvWrite q n (Some e)) evs ->
    exists before, evs = before ++ [EvWrite q n (Some e)].
Proof.
  induction 1 as [f w Hf | f w w' k ew e0 Hf HW HE
                  | f w w' w'' k ew evs err Hf HW HE Hrun IH]; intros q n e Hin.
  - destruct Hin as [Hin|[]]; discriminate.
  - destruct Hin as [Hin|[Hin|[]]]; [discriminate|].
    rewrite Hin. exists [EvRead (firstn size (unread f))]. reflexivity.
  - apply writeError_None in HE as [_ ->].
    destruct Hin as [Hin|[Hin|Hin]]; [discriminate | discriminate |].
    destruct (IH q n e Hin) as [before ->].
    eexists (_ :: _ :: before). reflexivity.
Qed.

(** The first turn of a copy that has bytes to read. *)
Lemma copyRun_first (size : nat) (f : File) (w w' : W) (evs : list event) (err : error) :
  unread f <> [] ->
  copyRun size f w evs w' err ->
  exists w1 n ew,
    Write w (firstn size (unread f)) = (w1, (n, ew)) /\
    match writeError (length (firstn size (unread f))) n ew with
    | Some e =>
        evs = [EvRead (firstn size (unread f)); EvWrite (firstn size (unread f)) n ew] /\
        w' = w1 /\ err = Some e
    | None =>
        exists evs',
          evs = EvRead (firstn size (unread f))
                  :: EvWrite (firstn size (unread f)) n ew :: evs' /\
          copyRun size (mkFile (skipn size (unread f)) (fault f)) w1 evs' w' err
    end.
Proof.
  intros Hf Hrun.
  destruct Hrun as [f w Hnil | f w w' n ew e _ HW HE
                    | f w w' w'' n ew evs err _ HW HE Hrun].
  - contradiction.
  - exists w', n, ew. split; [exact HW|]. rewrite HE. auto.
  - exists w', n, ew. split; [exact HW|]. rewrite HE. exists evs. auto.
Qed.

End CopyMore.

(** ** More on cat *)

Lemma write_in_cat_events (name path : string) (m : FileMode) (io : list event)
    (q : bytes) (n : Z) (ew : error) :
  In (EvWrite q n ew)
     (EvLstat name :: resolveEvents name m ++ [EvOpen path] ++ io ++ [EvClose]) ->
  In (EvWrite q n ew) io.
Proof.
  intros [Hin|Hin]; [discriminate|].
  apply in_app_or in Hin as [Hin|Hin].
  - unfold resolveEvents in Hin. destruct (modeIsSymlink m);
      [destruct Hin as [Hin|[]]; discriminate | destruct Hin].
  - apply in_app_or in Hin as [[Hin|[]]|Hin]; [discriminate|].
    apply in_app_or in Hin as [Hin|[Hin|[]]]; [exact Hin | discriminate].
Qed.

Lemma closes_cat_events (name path : string) (m : FileMode) (io : list event) :
  Forall (fun e => isIO e = true) io ->
  closes (EvLstat name :: resolveEvents name m ++ [EvOpen path] ++ io ++ [EvClose]) = 1.
Proof.
  intros Hio. unfold closes.
  assert (Hnone : filter isClose io = []).
  { induction Hio as [|e io He _ IH]; [reflexivity|].
    destruct e; try discriminate; exact IH. }
  unfold resolveEvents. destruct (modeIsSymlink m);
    cbn [app filter isClose]; rewrite filter_app, Hnone; reflexivity.
Qed.

Section CatMore.

Context {W : Type} `{Writer W}.
Variable fs : FS.

(** A call of [cat] either fails before the copy, the writer untouched
    and nothing opened, or opens a file, copies it and closes it. *)
Lemma cat_run_cases (p : string) (s : World W) :
  (exists err evs,
     cat fs p s = (Some err, after s evs (sink s)) /\
     (forall q n ew, ~ In (EvWrite q n ew) evs) /\ closes evs = 0 /\
     fails_before_copy fs p) \/
  (exists m f io w' err,
     sys_lstat fs (filepath.Clean p) = Ok m /\ modeIsDir m = false /\
     sys_open fs (openPath fs (filepath.Clean p) m) = Ok f /\
     cat fs p s
     = (err, after s (EvLstat (filepath.Clean p) :: resolveEvents (filepath.Clean p) m
                      ++ [EvOpen (openPath fs (filepath.Clean p) m)] ++ io ++ [EvClose]) w') /\
     copyRun copyBufSize f (sink s) io w' err).
Proof.
  destruct (sys_lstat fs (filepath.Clean p)) as [m|e] eqn:Hl.
  2:{ left. eexists _, _. split; [exact (cat_not_found fs p s e Hl)|].
      split; [intros q n ew [Hin|[]]; discriminate|].
      split; [reflexivity|]. left. exists e. exact Hl. }
  destruct (modeIsDir m) eqn:Hd.
  { left. eexists _, _. split; [exact (cat_directory fs p s m Hl Hd)|].
    split; [intros q n ew [Hin|[]]; discriminate|].
    split; [reflexivity|]. right. left. exists m. auto. }
  destruct (sys_open fs (openPath fs (filepath.Clean p) m)) as [f|e] eqn:Ho.
  - right. destruct (cat_copy fs p s m f Hl Hd Ho) as (io & w' & err & Hcat & Hrun).
    exists m, f, io, w', err. auto.
  - left. eexists _, _. split; [exact (cat_cannot_open fs p s m e Hl Hd Ho)|].
    split; [|split].
    + unfold resolveEvents. destruct (modeIsSymlink m).
      * intros q n ew [Hin|[Hin|[Hin|[]]]]; discriminate.
      * intros q n ew [Hin|[Hin|[]]]; discriminate.
    + unfold resolveEvents. destruct (modeIsSymlink m); reflexivity.
    + right. right. exists m, e. auto.
Qed.

(** What a call returned and left, read off its result. *)
Lemma cat_result (p : string) (s s' : World W) (err err0 : error)
    (evs evs0 : list event) (w0 : W) :
  cat fs p s = (err, s') -> trace s' = trace s ++ evs ->
  cat fs p s = (err0, after s evs0 w0) ->
  err = err0 /\ evs = evs0 /\ sink s' = w0 /\ stderr s' = stderr s.
Proof.
  intros Hcat Htrace Hcat0. rewrite Hcat in Hcat0.
  pose proof (f_equal fst Hcat0) as E1. pose proof (f_equal snd Hcat0) as E2.
  cbn [fst snd] in E1, E2. subst err s'.
  unfold after in Htrace |- *. cbn [trace sink stderr] in Htrace |- *.
  apply app_inv_head in Htrace. auto.
Qed.

(** The run on a regular file, for a writer that accepts every write. *)
Lemma cat_regular_run (p : string) (content : bytes) (s : World W) :
  regular_file_at fs (filepath.Clean p) content ->
  accepts_every_write W ->
  exists io w',
    cat fs p s
    = (None, after s ([EvLstat (filepath.Clean p); EvOpen (filepath.Clean p)]
                      ++ io ++ [EvClose]) w') /\
    copyRun copyBufSize (mkFile content None) (sink s) io w' None /\
    written io = content.
Proof.
  intros (m & Hl & Hreg & Ho) Hacc.
  pose proof (regular_not_dir m Hreg) as Hd.
  pose proof (regular_not_symlink m Hreg) as Hs.
  assert (Hpath : openPath fs (filepath.Clean p) m = filepath.Clean p)
    by (unfold openPath; rewrite Hs; reflexivity).
  rewrite <- Hpath in Ho.
  destruct (cat_copy fs p s m _ Hl Hd Ho) as (io & w' & err & Hcat & Hrun).
  pose proof (copyRun_accepting _ _ _ _ _ _ Hacc Hrun) as Herr.
  cbn in Herr. subst err.
  unfold resolveEvents in Hcat. rewrite Hs, Hpath in Hcat.
  exists io, w'. split; [exact Hcat|]. split; [exact Hrun|].
  exact (copyRun_nil _ _ _ _ _ _ Hrun eq_refl).
Qed.

(** The run on a regular file, for any writer. *)
Lemma cat_regular_copy (p : string) (content : bytes) (s : World W) :
  regular_file_at fs (filepath.Clean p) content ->
  exists io w' err,
    cat fs p s
    = (err, after s ([EvLstat (filepath.Clean p); EvOpen (filepath.Clean p)]
                     ++ io ++ [EvClose]) w') /\
    copyRun copyBufSize (mkFile content None) (sink s) io w' err.
Proof.
  intros (m & Hl & Hreg & Ho).
  pose proof (regular_not_dir m Hreg) as Hd.
  pose proof (regular_not_symlink m Hreg) as Hs.
  assert (Hpath : openPath fs (filepath.Clean p) m = filepath.Clean p)
    by (unfold openPath; rewrite Hs; reflexivity).
  rewrite <- Hpath in Ho.
  destruct (cat_copy fs p s m _ Hl Hd Ho) as (io & w' & err & Hcat & Hrun).
  unfold resolveEvents in Hcat. rewrite Hs, Hpath in Hcat.
  exists io, w', err. auto.
Qed.

End CatMore.

Lemma copyBufSize_two : exists k, copyBufSize = S (S k).
Proof. exists (copyBufSize - 2). unfold copyBufSize. lia. Qed.

(** X1: for an empty regular file [cat] returns [nil] whatever the writer
    is: it asks for the metadata, opens, reads the end of the file and
    closes, and never calls the writer. *)
Theorem cat_empty_file {W : Type} `{Writer W} (fs : FS) (p : string) (s : World W) :
  regular_file_at fs (filepath.Clean p) [] ->
  cat fs p s
  = (None, after s [EvLstat (filepath.Clean p); EvOpen (filepath.Clean p);
                    EvRead []; EvClose] (sink s)).
Proof.
  intros Hreg.
  destruct (cat_regular_copy fs p [] s Hreg) as (io & w' & err & Hcat & Hrun).
  apply copyRun_empty in Hrun as (-> & -> & ->); [|reflexivity].
  exact Hcat.
Qed.

Lemma cat_empty_file_witness :
  regular_file_at moredata (filepath.Clean "./empty.txt") [] /\
  cat moredata "./empty.txt" (world newFaultyWriter)
  = (None, after (world newFaultyWriter)
             [EvLstat (filepath.Clean "./empty.txt"); EvOpen (filepath.Clean "./empty.txt");
              EvRead []; EvClose] (sink (world newFaultyWriter))).
Proof.
  assert (Hreg : regular_file_at moredata (filepath.Clean "./empty.txt") [])
    by (exists 420%Z; vm_compute; auto).
  split; [exact Hreg|].
  exact (cat_empty_file moredata "./empty.txt" (world newFaultyWriter) Hreg).
Defined.

(** X2: for every regular file, [cat] into a [completeWriter] returns
    [nil] and leaves in its buffer what was there followed by the bytes
    of the file: what [TestCat] checks with [Bytes()], for every file. *)
Theorem cat_complete_writer (fs : FS) (p : string) (content : bytes)
    (s : World completeWriter) :
  regular_file_at fs (filepath.Clean p) content ->
  exists evs,
    cat fs p s = (None, after s evs (mkCompleteWriter (cbuf (sink s) ++ content))) /\
    written evs = content.
Proof.
  intros Hreg.
  assert (Hacc : accepts_every_write completeWriter) by (intros w q; reflexivity).
  assert (Hkeeps : keeps cbuf).
  { intros w q. cbn. rewrite Nat2Z.id, firstn_all. reflexivity. }
  destruct (cat_regular_run fs p content s Hreg Hacc) as (io & w' & Hcat & Hrun & Hw).
  pose proof (copyRun_keeps cbuf _ _ _ _ _ _ Hkeeps Hrun) as Hbuf.
  rewrite Hw in Hbuf. destruct w' as [buf]. cbn [cbuf] in Hbuf. subst buf.
  eexists. split; [exact Hcat|].
  unfold written in *. cbn [app flat_map accepted]. rewrite flat_map_app.
  cbn [flat_map accepted]. rewrite app_nil_r. exact Hw.
Qed.

Lemma cat_complete_writer_witness :
  regular_file_at testdata (filepath.Clean "testdata/b.md") b_md /\
  exists evs,
    cat testdata "testdata/b.md" (world (mkCompleteWriter a_txt))
    = (None, after (world (mkCompleteWriter a_txt)) evs
               (mkCompleteWriter (cbuf (sink (world (mkCompleteWriter a_txt))) ++ b_md))) /\
    written evs = b_md.
Proof.
  assert (Hreg : regular_file_at testdata (filepath.Clean "testdata/b.md") b_md)
    by (exists 420%Z; vm_compute; auto).
  split; [exact Hreg|].
  exact (cat_complete_writer testdata "testdata/b.md" b_md
           (world (mkCompleteWriter a_txt)) Hreg).
Defined.

(** X3: for every regular file that is not empty, [cat] into a
    [faultyWriter] returns [io.ErrUnexpectedEOF]: the first buffer read
    is offered to the writer, which takes nothing, and the file is
    closed. *)
Theorem cat_faulty_writer (fs : FS) (p : string) (content : bytes)
    (s : World faultyWriter) :
  regular_file_at fs (filepath.Clean p) content ->
  content <> [] ->
  cat fs p s
  = (Some io_ErrUnexpectedEOF,
     after s [EvLstat (filepath.Clean p); EvOpen (filepath.Clean p);
              EvRead (firstn copyBufSize content);
              EvWrite (firstn copyBufSize content) 0 (Some io_ErrUnexpectedEOF);
              EvClose] (sink s)).
Proof.
  intros Hreg Hne.
  destruct (cat_regular_copy fs p content s Hreg) as (io & w' & err & Hcat & Hrun).
  apply copyRun_first in Hrun as (w1 & n & ew & HW & Hstep); [|exact Hne].
  cbn [unread fault] in HW, Hstep.
  unfold Write, faultyWriter_Write in HW. injection HW as <- <- <-.
  rewrite writeError_Some in Hstep. destruct Hstep as (-> & -> & ->).
  exact Hcat.
Qed.

Lemma cat_faulty_writer_witness :
  regular_file_at testdata (filepath.Clean "testdata/a.txt") a_txt /\
  a_txt <> [] /\
  cat testdata "testdata/a.txt" (world newFaultyWriter)
  = (Some io_ErrUnexpectedEOF,
     after (world newFaultyWriter)
       [EvLstat (filepath.Clean "testdata/a.txt"); EvOpen (filepath.Clean "testdata/a.txt");
        EvRead (firstn copyBufSize a_txt);
        EvWrite (firstn copyBufSize a_txt) 0 (Some io_ErrUnexpectedEOF);
        EvClose] (sink (world newFaultyWriter))).
Proof.
  assert (Hreg : regular_file_at testdata (filepath.Clean "testdata/a.txt") a_txt)
    by (exists 420%Z; vm_compute; auto).
  assert (Hne : a_txt <> []) by discriminate.
  split; [exact Hreg|]. split; [exact Hne|].
  exact (cat_faulty_writer testdata "testdata/a.txt" a_txt (world newFaultyWriter)
           Hreg Hne).
Defined.

(** X4: for every regular file that is not empty, an [incompleteWriter]
    ends up with what it held followed by the first byte of the file and
    no more; [cat] returns [nil] when that byte is the whole file and
    [io.ErrShortWrite] otherwise. *)
Theorem cat_incomplete_writer (fs : FS) (p : string) (b0 : byte) (rest : bytes)
    (s : World incompleteWriter) :
  regular_file_at fs (filepath.Clean p) (b0 :: rest) ->
  exists evs,
    cat fs p s
    = (match rest with [] => None | _ :: _ => Some io_ErrShortWrite end,
       after s evs (mkIncompleteWriter (ibuf (sink s) ++ [b0]))) /\
    written evs = [b0].
Proof.
  intros Hreg.
  destruct (cat_regular_copy fs p (b0 :: rest) s Hreg) as (io & w' & err & Hcat & Hrun).
  apply copyRun_first in Hrun as (w1 & n & ew & HW & Hstep); [|discriminate].
  cbn [unread fault] in HW, Hstep.
  destruct copyBufSize_two as [k Hk]. rewrite Hk in *.
  destruct rest as [|b1 rest].
  - cbn [firstn skipn length] in HW, Hstep.
    unfold Write, incompleteWriter_Write in HW. injection HW as <- <- <-.
    cbn in Hstep. destruct Hstep as (evs' & -> & Hrun).
    apply copyRun_empty in Hrun as (-> & -> & ->); [|reflexivity].
    eexists. split; [exact Hcat | reflexivity].
  - cbn [firstn length] in HW, Hstep.
    unfold Write, incompleteWriter_Write in HW. injection HW as <- <- <-.
    assert (HE : writeError (S (S (length (firstn k rest)))) 1 None
                 = Some io_ErrShortWrite).
    { unfold writeError.
      replace (1 <? 0)%Z with false by reflexivity.
      replace (Z.of_nat (S (S (length (firstn k rest)))) <? 1)%Z with false
        by (symmetry; apply Z.ltb_ge; lia).
      replace (Z.of_nat (S (S (length (firstn k rest)))) =? 1)%Z with false
        by (symmetry; apply Z.eqb_neq; lia).
      reflexivity. }
    rewrite HE in Hstep. destruct Hstep as (-> & -> & ->).
    eexists. split; [exact Hcat | reflexivity].
Qed.

Lemma cat_incomplete_writer_witness :
  regular_file_at testdata (filepath.Clean "testdata/a.txt")
    ("h"%byte :: bytes_of_string "ello") /\
  exists evs,
    cat testdata "testdata/a.txt" (world newIncompleteWriter)
    = (match bytes_of_string "ello" with [] => None | _ :: _ => Some io_ErrShortWrite end,
       after (world newIncompleteWriter) evs
         (mkIncompleteWriter (ibuf (sink (world newIncompleteWriter)) ++ ["h"%byte]))) /\
    written evs = ["h"%byte].
Proof.
  assert (Hreg : regular_file_at testdata (filepath.Clean "testdata/a.txt")
                   ("h"%byte :: bytes_of_string "ello"))
    by (exists 420%Z; vm_compute; auto).
  split; [exact Hreg|].
  exact (cat_incomplete_writer testdata "testdata/a.txt" "h"%byte
           (bytes_of_string "ello") (world newIncompleteWriter) Hreg).
Defined.

(** X5: when the entry is no directory, the open succeeds and the
    kernel fails to read the file after some bytes, [cat] with a writer
    that accepts every write returns that read error as it is, having
    written every byte read before it and closed the file. *)
Theorem cat_read_failure {W : Type} `{Writer W} (fs : FS) (p : string)
    (s : World W) (m : FileMode) (f : File) (e : errorValue) :
  sys_lstat fs (filepath.Clean p) = Ok m ->
  modeIsDir m = false ->
  sys_open fs (openPath fs (filepath.Clean p) m) = Ok f ->
  fault f = Some e ->
  is_EOF e = false ->
  accepts_every_write W ->
  exists io w',
    cat fs p s
    = (Some e, after s (EvLstat (filepath.Clean p) :: resolveEvents (filepath.Clean p) m
                        ++ [EvOpen (openPath fs (filepath.Clean p) m)] ++ io ++ [EvClose]) w') /\
    written io = unread f.
Proof.
  intros Hl Hd Ho Hflt Heof Hacc.
  destruct (cat_copy fs p s m f Hl Hd Ho) as (io & w' & err & Hcat & Hrun).
  pose proof (copyRun_accepting _ _ _ _ _ _ Hacc Hrun) as Herr.
  unfold endError in Herr. rewrite Hflt, Heof in Herr. subst err.
  exists io, w'. split; [exact Hcat|].
  exact (copyRun_accepting_written _ _ _ _ _ _ Hacc Hrun).
Qed.

Lemma cat_read_failure_witness :
  sys_lstat moredata (filepath.Clean "bad.txt") = Ok 420%Z /\
  modeIsDir 420%Z = false /\
  sys_open moredata (openPath moredata (filepath.Clean "bad.txt") 420%Z)
  = Ok (mkFile (bytes_of_string "he")
          (Some (os_PathError "read" "bad.txt" "input/output error"))) /\
  accepts_every_write completeWriter /\
  exists io w',
    cat moredata "bad.txt" (world newCompleteWriter)
    = (Some (os_PathError "read" "bad.txt" "input/output error"),
       after (world newCompleteWriter)
         (EvLstat (filepath.Clean "bad.txt") :: resolveEvents (filepath.Clean "bad.txt") 420%Z
          ++ [EvOpen (openPath moredata (filepath.Clean "bad.txt") 420%Z)] ++ io ++ [EvClose])
         w') /\
    written io = bytes_of_string "he".
Proof.
  assert (Hl : sys_lstat moredata (filepath.Clean "bad.txt") = Ok 420%Z)
    by (vm_compute; reflexivity).
  assert (Hd : modeIsDir 420%Z = false) by (vm_compute; reflexivity).
  assert (Ho : sys_open moredata (openPath moredata (filepath.Clean "bad.txt") 420%Z)
               = Ok (mkFile (bytes_of_string "he")
                       (Some (os_PathError "read" "bad.txt" "input/output error"))))
    by (vm_compute; reflexivity).
  assert (Hacc : accepts_every_write completeWriter) by (intros w q; reflexivity).
  split; [exact Hl|]. split; [exact Hd|]. split; [exact Ho|]. split; [exact Hacc|].
  exact (cat_read_failure moredata "bad.txt" (world newCompleteWriter) 420%Z _ _
           Hl Hd Ho eq_refl eq_refl Hacc).
Defined.

(** X6: whatever the path names, when a write of the call reports no
    error but a count other than the bytes it was handed, [cat] returns
    [io.ErrShortWrite], or the invalid-write error of [io.Copy] for a
    count below zero or above the bytes handed. *)
Theorem cat_miscounted_write {W : Type} `{Writer W} (fs : FS) (p : string)
    (s s' : World W) (err : error) (evs : list event) (q : bytes) (n : Z) :
  cat fs p s = (err, s') ->
  trace s' = trace s ++ evs ->
  In (EvWrite q n None) evs ->
  n <> Z.of_nat (length q) ->
  err = Some (countError (length q) n).
Proof.
  intros Hcat Htrace Hin Hn.
  destruct (cat_run_cases fs p s)
    as [(err0 & evs0 & Hcat0 & Hnone & _)
       | (m & f & io & w' & err0 & _ & _ & _ & Hcat0 & Hrun)].
  - destruct (cat_result fs p s s' _ _ _ _ _ Hcat Htrace Hcat0) as (_ & -> & _).
    destruct (Hnone q n None Hin).
  - destruct (cat_result fs p s s' _ _ _ _ _ Hcat Htrace Hcat0) as (-> & -> & _).
    apply write_in_cat_events in Hin.
    exact (copyRun_miscounted _ _ _ _ _ _ Hrun q n Hin Hn).
Qed.

Lemma cat_miscounted_write_witness :
  cat testdata "testdata/a.txt" (world newIncompleteWriter)
  = (Some io_ErrShortWrite,
     mkWorld (mkIncompleteWriter ["h"%byte]) ""
       [EvLstat "testdata/a.txt"; EvOpen "testdata/a.txt"; EvRead a_txt;
        EvWrite a_txt 1 None; EvClose]) /\
  (1 <> Z.of_nat (length a_txt))%Z /\
  Some io_ErrShortWrite = Some (countError (length a_txt) 1).
Proof.
  assert (Hcat : cat testdata "testdata/a.txt" (world newIncompleteWriter)
                 = (Some io_ErrShortWrite,
                    mkWorld (mkIncompleteWriter ["h"%byte]) ""
                      [EvLstat "testdata/a.txt"; EvOpen "testdata/a.txt"; EvRead a_txt;
                       EvWrite a_txt 1 None; EvClose]))
    by (vm_compute; reflexivity).
  assert (Hn : (1 <> Z.of_nat (length a_txt))%Z) by (vm_compute; discriminate).
  split; [exact Hcat|]. split; [exact Hn|].
  exact (cat_miscounted_write testdata "testdata/a.txt" (world newIncompleteWriter)
           _ _ _ a_txt 1%Z Hcat eq_refl
           (or_intror (or_intror (or_intror (or_introl eq_refl)))) Hn).
Defined.

(** X7: whatever the path names (a file reached through a link, a pipe,
    a device), when a write of the call is rejected with an error, [cat]
    returns that error and the rejected write was the last one. *)
Theorem cat_rejected_write_any_path {W : Type} `{Writer W} (fs : FS) (p : string)
    (s s' : World W) (err : error) (evs : list event) (q : bytes) (n : Z)
    (e : errorValue) :
  cat fs p s = (err, s') ->
  trace s' = trace s ++ evs ->
  In (EvWrite q n (Some e)) evs ->
  err = Some e /\
  exists before, evs = before ++ [EvWrite q n (Some e); EvClose].
Proof.
  intros Hcat Htrace Hin.
  destruct (cat_run_cases fs p s)
    as [(err0 & evs0 & Hcat0 & Hnone & _)
       | (m & f & io & w' & err0 & _ & _ & _ & Hcat0 & Hrun)].
  - destruct (cat_result fs p s s' _ _ _ _ _ Hcat Htrace Hcat0) as (_ & -> & _).
    destruct (Hnone q n (Some e) Hin).
  - destruct (cat_result fs p s s' _ _ _ _ _ Hcat Htrace Hcat0) as (-> & -> & _).
    apply write_in_cat_events in Hin.
    split; [exact (copyRun_rejected _ _ _ _ _ _ Hrun q n e Hin)|].
    pose proof (copyRun_rejected_last _ _ _ _ _ _ Hrun q n e Hin) as Hlast.
    destruct Hlast as [before ->].
    exists (EvLstat (filepath.Clean p) :: resolveEvents (filepath.Clean p) m
            ++ [EvOpen (openPath fs (filepath.Clean p) m)] ++ before).
    cbn [app]. rewrite <- !app_assoc. reflexivity.
Qed.

Lemma cat_rejected_write_any_path_witness :
  cat testdata "testdata/c.txt" (world newFaultyWriter)
  = (Some io_ErrUnexpectedEOF,
     mkWorld newFaultyWriter ""
       [EvLstat "testdata/c.txt"; EvReadlink "testdata/c.txt"; EvOpen "testdata/a.txt";
        EvRead a_txt; EvWrite a_txt 0 (Some io_ErrUnexpectedEOF); EvClose]) /\
  Some io_ErrUnexpectedEOF = Some io_ErrUnexpectedEOF /\
  exists before,
    [EvLstat "testdata/c.txt"; EvReadlink "testdata/c.txt"; EvOpen "testdata/a.txt";
     EvRead a_txt; EvWrite a_txt 0 (Some io_ErrUnexpectedEOF); EvClose]
    = before ++ [EvWrite a_txt 0 (Some io_ErrUnexpectedEOF); EvClose].
Proof.
  assert (Hcat : cat testdata "testdata/c.txt" (world newFaultyWriter)
                 = (Some io_ErrUnexpectedEOF,
                    mkWorld newFaultyWriter ""
                      [EvLstat "testdata/c.txt"; EvReadlink "testdata/c.txt";
                       EvOpen "testdata/a.txt"; EvRead a_txt;
                       EvWrite a_txt 0 (Some io_ErrUnexpectedEOF); EvClose]))
    by (vm_compute; reflexivity).
  split; [exact Hcat|].
  exact (cat_rejected_write_any_path testdata "testdata/c.txt" (world newFaultyWriter)
           _ _ _ a_txt 0%Z io_ErrUnexpectedEOF Hcat eq_refl
           (or_intror (or_intror (or_intror (or_intror (or_introl eq_refl)))))).
Defined.

(** X8: [cat] closes what it opens and nothing else: when it fails
    before the copy no file is closed; otherwise the file is closed
    once, as the last call, whatever the copy returned. *)
Theorem cat_closes_what_it_opens {W : Type} `{Writer W} (fs : FS) (p : string)
    (s : World W) :
  exists err evs w',
    cat fs p s = (err, after s evs w') /\
    ((fails_before_copy fs p /\ closes evs = 0) \/
     (~ fails_before_copy fs p /\ closes evs = 1 /\
      exists before, evs = before ++ [EvClose])).
Proof.
  destruct (cat_run_cases fs p s)
    as [(err & evs & Hcat & _ & Hc & Hf)
       | (m & f & io & w' & err & Hl & Hd & Ho & Hcat & Hrun)].
  - exists (Some err), evs, (sink s). split; [exact Hcat|]. left. auto.
  - eexists err, _, w'. split; [exact Hcat|]. right. split; [|split].
    + intros [(e & Hl') | [(m' & Hl' & Hd') | (m' & e & Hl' & _ & Ho')]];
        rewrite Hl in Hl'; try discriminate;
        injection Hl' as <-; congruence.
    + apply closes_cat_events. exact (copyRun_io _ _ _ _ _ _ Hrun).
    + exists (EvLstat (filepath.Clean p) :: resolveEvents (filepath.Clean p) m
              ++ [EvOpen (openPath fs (filepath.Clean p) m)] ++ io).
      cbn [app]. rewrite <- !app_assoc. reflexivity.
Qed.

(** X9: every call of [cat] asks for metadata once, for the cleaned
    path, which is never the empty path, and prints nothing on standard
    error: its error is only returned. *)
Theorem cat_asks_once_prints_nothing {W : Type} `{Writer W} (fs : FS) (p : string)
    (s : World W) :
  exists err evs w',
    cat fs p s = (err, after s evs w') /\
    lstats evs = [filepath.Clean p] /\
    filepath.Clean p <> "" /\
    Forall (fun e => isStderr e = false) evs.
Proof.
  destruct (cat_frame fs p s) as (err & evs & w' & Hcat & Hl & Hs).
  exists err, evs, w'. split; [exact Hcat|]. split; [exact Hl|].
  split; [apply Clean_nonempty | exact Hs].
Qed.

(** ** More on main *)

Lemma delivered_Some (contents : list bytes) :
  delivered (map Some contents) = concat contents.
Proof.
  induction contents as [|c contents IH]; [reflexivity|].
  cbn [map delivered flat_map concat]. fold (delivered (map Some contents)).
  rewrite IH. reflexivity.
Qed.

Lemma failures_Some (contents : list bytes) : failures (map Some contents) = 0.
Proof.
  unfold failures. induction contents as [|c contents IH]; [reflexivity | exact IH].
Qed.

Section MainMore.

Context {W : Type} `{Writer W}.
Variable fs : FS.

(** With no argument [main] copies standard input and reports what the
    copy returned. *)
Lemma main_no_args_run (stdin : File) (s : World W) :
  exists io w' err,
    copyRun copyBufSize stdin (sink s) io w' err /\
    main fs [] stdin s
    = (tt, mkWorld w' (stderr s +++ joined (errorLines [err]))
             (trace s ++ io ++ map EvStderr (errorLines [err]))).
Proof.
  destruct (copyLoop_run (S (length (unread stdin))) copyBufSize stdin 0%Z s
              copyBufSize_pos (Nat.lt_succ_diag_r _))
    as (io & w' & n & err & Hloop & Hrun).
  exists io, w', err. split; [exact Hrun|].
  unfold main, bind, io_Copy. rewrite Hloop. unfold ret.
  rewrite reportErrs_run. unfold after. cbn [sink stderr trace].
  rewrite <- app_assoc. reflexivity.
Qed.

(** With arguments [main] streams them and then reports. *)
Lemma main_files_run (args : list string) (stdin : File) (s : World W) :
  args <> [] ->
  main fs args stdin s
  = (tt, mkWorld (sink (snd (streamAll fs args s)))
           (stderr (snd (streamAll fs args s))
            +++ joined (errorLines (fst (streamAll fs args s))))
           (trace (snd (streamAll fs args s))
            ++ map EvStderr (errorLines (fst (streamAll fs args s))))).
Proof.
  intros Hargs. destruct args as [|arg rest]; [contradiction|].
  unfold main, bind. rewrite rangeArgs_streamAll. cbn [app].
  apply reportErrs_run.
Qed.

Lemma cat_early_run (p : string) (s : World W) :
  fails_before_copy fs p ->
  exists err evs,
    cat fs p s = (Some err, after s evs (sink s)) /\ written evs = [].
Proof.
  intros [(e & Hl) | [(m & Hl & Hd) | (m & e & Hl & Hd & Ho)]].
  - eexists _, _. split; [exact (cat_not_found fs p s e Hl) | reflexivity].
  - eexists _, _. split; [exact (cat_directory fs p s m Hl Hd) | reflexivity].
  - eexists _, _. split; [exact (cat_cannot_open fs p s m e Hl Hd Ho)|].
    unfold resolveEvents. destruct (modeIsSymlink m); reflexivity.
Qed.

(** Streaming regular files and paths that fail early to a writer that
    accepts every write: the bytes of the files, one error per failure. *)
Lemma streamAll_outcomes (args : list string) (outs : list (option bytes)) :
  accepts_every_write W ->
  Forall2 (streams_to fs) args outs ->
  forall s : World W,
  exists errs evs w',
    streamAll fs args s = (errs, after s evs w') /\
    written evs = delivered outs /\
    length (errorLines errs) = failures outs /\
    forall Bytes : W -> bytes,
      keeps Bytes -> Bytes w' = Bytes (sink s) ++ delivered outs.
Proof.
  intros Hacc Hall.
  induction Hall as [|arg out args outs Hout _ IH]; intros s.
  - exists [], [], (sink s). split; [|split; [reflexivity|split; [reflexivity|]]].
    + destruct s; unfold after; cbn. rewrite app_nil_r. reflexivity.
    + intros Bytes _. cbn. rewrite app_nil_r. reflexivity.
  - destruct out as [content|]; cbn [streams_to] in Hout.
    + destruct (cat_regular_run fs arg content s Hout Hacc)
        as (io & w1 & Hcat & Hrun & Hw).
      destruct (IH (after s ([EvLstat (filepath.Clean arg); EvOpen (filepath.Clean arg)]
                              ++ io ++ [EvClose]) w1))
        as (errs & evs & w2 & Hrest & Hw2 & Hlen & Hb).
      eexists (None :: errs), _, w2.
      cbn [streamAll]. rewrite Hcat, Hrest, after_after.
      split; [reflexivity|]. split; [|split].
      * rewrite written_app, Hw2. cbn [delivered flat_map]. f_equal.
        unfold written in *. cbn [app flat_map accepted]. rewrite flat_map_app.
        cbn [flat_map accepted]. rewrite app_nil_r. exact Hw.
      * exact Hlen.
      * intros Bytes Hk. rewrite (Hb Bytes Hk). cbn [sink after].
        rewrite (copyRun_keeps Bytes _ _ _ _ _ _ Hk Hrun), Hw.
        cbn [delivered flat_map]. rewrite <- app_assoc. reflexivity.
    + destruct (cat_early_run arg s Hout) as (err & evs1 & Hcat & Hw).
      destruct (IH (after s evs1 (sink s)))
        as (errs & evs & w2 & Hrest & Hw2 & Hlen & Hb).
      eexists (Some err :: errs), _, w2.
      cbn [streamAll]. rewrite Hcat, Hrest, after_after.
      split; [reflexivity|]. split; [|split].
      * rewrite written_app, Hw, Hw2. reflexivity.
      * cbn [errorLines flat_map app length]. fold (errorLines errs).
        rewrite Hlen. reflexivity.
      * intros Bytes Hk. rewrite (Hb Bytes Hk). reflexivity.
Qed.

End MainMore.

(** X10: with no file argument, a standard input that reads to its end
    and a standard output that accepts every write, [main] writes the
    bytes of standard input to standard output, unchanged and in order,
    asks the file system nothing and prints nothing on standard error. *)
Theorem main_no_args_copies_stdin {W : Type} `{Writer W} (fs : FS) (stdin : File)
    (s : World W) :
  fault stdin = None ->
  accepts_every_write W ->
  exists io w',
    main fs [] stdin s = (tt, after s io w') /\
    Forall (fun e => isIO e = true) io /\
    written io = unread stdin /\
    forall Bytes : W -> bytes, keeps Bytes -> Bytes w' = Bytes (sink s) ++ unread stdin.
Proof.
  intros Hflt Hacc.
  destruct (main_no_args_run fs stdin s) as (io & w' & err & Hrun & Hmain).
  pose proof (copyRun_accepting _ _ _ _ _ _ Hacc Hrun) as Herr.
  unfold endError in Herr. rewrite Hflt in Herr. subst err.
  pose proof (copyRun_nil _ _ _ _ _ _ Hrun eq_refl) as Hw.
  exists io, w'. split; [|split; [exact (copyRun_io _ _ _ _ _ _ Hrun)|split; [exact Hw|]]].
  - rewrite Hmain. unfold after. cbn [errorLines flat_map joined fold_right map].
    rewrite append_empty_r, app_nil_r. reflexivity.
  - intros Bytes Hk. rewrite (copyRun_keeps Bytes _ _ _ _ _ _ Hk Hrun), Hw. reflexivity.
Qed.

Lemma main_no_args_copies_stdin_witness :
  fault (mkFile x_png None) = None /\
  accepts_every_write completeWriter /\
  exists io w',
    main testdata [] (mkFile x_png None) (world newCompleteWriter)
    = (tt, after (world newCompleteWriter) io w') /\
    Forall (fun e => isIO e = true) io /\
    written io = unread (mkFile x_png None) /\
    forall Bytes : completeWriter -> bytes,
      keeps Bytes ->
      Bytes w' = Bytes (sink (world newCompleteWriter)) ++ unread (mkFile x_png None).
Proof.
  assert (Hacc : accepts_every_write completeWriter) by (intros w q; reflexivity).
  split; [reflexivity|]. split; [exact Hacc|].
  exact (main_no_args_copies_stdin testdata (mkFile x_png None)
           (world newCompleteWriter) eq_refl Hacc).
Defined.

(** X11: with no file argument, when standard output rejects a write
    with an error, [main] stops copying there and prints, as its last
    call, the one line "cat: " message newline for that error on standard
    error. *)
Theorem main_no_args_reports_failure {W : Type} `{Writer W} (fs : FS) (stdin : File)
    (s s' : World W) (evs : list event) (q : bytes) (n : Z) (e : errorValue) :
  main fs [] stdin s = (tt, s') ->
  trace s' = trace s ++ evs ->
  In (EvWrite q n (Some e)) evs ->
  stderr s' = stderr s +++ "cat: " +++ Error e +++ nl /\
  exists before,
    evs = before ++ [EvWrite q n (Some e); EvStderr ("cat: " +++ Error e +++ nl)].
Proof.
  intros Hmain Htrace Hin.
  destruct (main_no_args_run fs stdin s) as (io & w' & err & Hrun & Hmain').
  rewrite Hmain in Hmain'.
  pose proof (f_equal snd Hmain') as E. cbn [snd] in E. subst s'. clear Hmain'.
  cbn [trace stderr] in Htrace |- *. apply app_inv_head in Htrace. subst evs.
  assert (Hio : In (EvWrite q n (Some e)) io).
  { apply in_app_or in Hin as [Hin|Hin]; [exact Hin|].
    apply in_map_iff in Hin as (line & Hline & _). discriminate. }
  rewrite (copyRun_rejected _ _ _ _ _ _ Hrun q n e Hio).
  destruct (copyRun_rejected_last _ _ _ _ _ _ Hrun q n e Hio) as [before ->].
  cbn [errorLines flat_map joined fold_right map app].
  rewrite append_empty_r. split; [reflexivity|].
  exists before. rewrite <- app_assoc. reflexivity.
Qed.

Lemma main_no_args_reports_failure_witness :
  main testdata [] (mkFile a_txt None) (world newFaultyWriter)
  = (tt, mkWorld newFaultyWriter ("cat: unexpected EOF" +++ nl)
           [EvRead a_txt; EvWrite a_txt 0 (Some io_ErrUnexpectedEOF);
            EvStderr ("cat: unexpected EOF" +++ nl)]) /\
  "cat: unexpected EOF" +++ nl = "" +++ "cat: " +++ Error io_ErrUnexpectedEOF +++ nl /\
  exists before,
    [EvRead a_txt; EvWrite a_txt 0 (Some io_ErrUnexpectedEOF);
     EvStderr ("cat: unexpected EOF" +++ nl)]
    = before ++ [EvWrite a_txt 0 (Some io_ErrUnexpectedEOF);
                 EvStderr ("cat: " +++ Error io_ErrUnexpectedEOF +++ nl)].
Proof.
  assert (Hmain : main testdata [] (mkFile a_txt None) (world newFaultyWriter)
                  = (tt, mkWorld newFaultyWriter ("cat: unexpected EOF" +++ nl)
                           [EvRead a_txt; EvWrite a_txt 0 (Some io_ErrUnexpectedEOF);
                            EvStderr ("cat: unexpected EOF" +++ nl)]))
    by (vm_compute; reflexivity).
  split; [exact Hmain|].
  exact (main_no_args_reports_failure testdata (mkFile a_txt None)
           (world newFaultyWriter) _ _ a_txt 0%Z io_ErrUnexpectedEOF Hmain eq_refl
           (or_intror (or_introl eq_refl))).
Defined.

(** X12: when every argument is a regular file and standard output
    accepts every write, [main] writes the contents of the files one
    after the other in the order of the arguments, nothing else, and
    leaves standard error as it was. *)
Theorem main_concatenates_regular_files {W : Type} `{Writer W} (fs : FS)
    (args : list string) (contents : list bytes) (stdin : File) (s : World W) :
  args <> [] ->
  accepts_every_write W ->
  Forall2 (fun arg content => regular_file_at fs (filepath.Clean arg) content)
    args contents ->
  exists evs w',
    main fs args stdin s = (tt, after s evs w') /\
    written evs = concat contents /\
    forall Bytes : W -> bytes,
      keeps Bytes -> Bytes w' = Bytes (sink s) ++ concat contents.
Proof.
  intros Hargs Hacc Hall.
  assert (Hall' : Forall2 (streams_to fs) args (map Some contents)).
  { clear Hargs. induction Hall as [|arg c args contents Hc _ IH];
      cbn [map]; constructor; assumption. }
  destruct (streamAll_outcomes fs args _ Hacc Hall' s)
    as (errs & evs & w' & Hstream & Hw & Hlen & Hb).
  rewrite delivered_Some in Hw, Hb. rewrite failures_Some in Hlen.
  apply length_zero_iff_nil in Hlen.
  exists evs, w'. split; [|auto].
  rewrite (main_files_run fs args stdin s Hargs), Hstream. cbn [fst snd].
  rewrite Hlen. unfold after. cbn [sink stderr trace joined fold_right map].
  rewrite append_empty_r, app_nil_r. reflexivity.
Qed.

Lemma main_concatenates_regular_files_witness :
  ["testdata/b.md"; "./testdata/a.txt"; "testdata/b.md"] <> [] /\
  accepts_every_write completeWriter /\
  Forall2 (fun arg content => regular_file_at testdata (filepath.Clean arg) content)
    ["testdata/b.md"; "./testdata/a.txt"; "testdata/b.md"] [b_md; a_txt; b_md] /\
  exists evs w',
    main testdata ["testdata/b.md"; "./testdata/a.txt"; "testdata/b.md"]
      (mkFile [] None) (world newCompleteWriter)
    = (tt, after (world newCompleteWriter) evs w') /\
    written evs = concat [b_md; a_txt; b_md] /\
    forall Bytes : completeWriter -> bytes,
      keeps Bytes ->
      Bytes w' = Bytes (sink (world newCompleteWriter)) ++ concat [b_md; a_txt; b_md].
Proof.
  assert (Hargs : ["testdata/b.md"; "./testdata/a.txt"; "testdata/b.md"] <> [])
    by discriminate.
  assert (Hacc : accepts_every_write completeWriter) by (intros w q; reflexivity).
  assert (Hall : Forall2
                   (fun arg content => regular_file_at testdata (filepath.Clean arg) content)
                   ["testdata/b.md"; "./testdata/a.txt"; "testdata/b.md"]
                   [b_md; a_txt; b_md])
    by (repeat constructor; exists 420%Z; vm_compute; auto).
  split; [exact Hargs|]. split; [exact Hacc|]. split; [exact Hall|].
  exact (main_concatenates_regular_files testdata _ _ (mkFile [] None)
           (world newCompleteWriter) Hargs Hacc Hall).
Defined.

(** X13: when every argument is a regular file or a path on which [cat]
    fails before the copy, and standard output accepts every write,
    standard output receives the contents of the regular files in the
    order of the arguments, the failing ones adding nothing, and standard
    error receives afterwards, and not before, exactly the lines of the
    arguments that failed, in their order: "cat: ", the message of the
    failure, a newline; they are as many as arguments failed. *)
Theorem main_delivers_files_and_counts_failures {W : Type} `{Writer W} (fs : FS)
    (args : list string) (outs : list (option bytes)) (stdin : File) (s : World W) :
  args <> [] ->
  accepts_every_write W ->
  Forall2 (streams_to fs) args outs ->
  exists evs w',
    main fs args stdin s
    = (tt, mkWorld w' (stderr s +++ joined (failureLines fs args outs))
             (trace s ++ evs ++ map EvStderr (failureLines fs args outs))) /\
    Forall (fun e => isStderr e = false) evs /\
    written evs = delivered outs /\
    length (failureLines fs args outs) = failures outs /\
    forall Bytes : W -> bytes,
      keeps Bytes -> Bytes w' = Bytes (sink s) ++ delivered outs.
Proof.
  intros Hargs Hacc Hall.
  assert (Houts : Forall2 (yields fs) args outs).
  { clear Hargs. induction Hall as [|arg out args outs Hout _ IH]; constructor;
      [exact (streams_to_yields fs arg out Hout) | exact IH]. }
  destruct (streamAll_frame fs args s) as (errs & evs & w' & Hstream & _ & _ & Hs).
  destruct (streamAll_yields fs args outs Hacc Houts s)
    as (errs0 & evs0 & w0 & Hstream0 & Hw & Hlines & Hb).
  destruct (streamAll_result fs args s _ _ _ _ _ _ Hstream Hstream0) as (-> & -> & ->).
  exists evs0, w0. split; [|split; [exact Hs|split; [exact Hw|split; [|exact Hb]]]].
  - rewrite <- Hlines. exact (main_streams fs args stdin s errs0 evs0 w0 Hargs Hstream).
  - apply failureLines_length. exact (Forall2_length Hall).
Qed.

Lemma main_delivers_files_and_counts_failures_witness :
  ["testdata"; "testdata/a.txt"; "none.txt"; "testdata/x.png"; "testdata/d.txt"] <> [] /\
  accepts_every_write completeWriter /\
  Forall2 (streams_to testdata)
    ["testdata"; "testdata/a.txt"; "none.txt"; "testdata/x.png"; "testdata/d.txt"]
    [None; Some a_txt; None; Some x_png; None] /\
  failureLines testdata
    ["testdata"; "testdata/a.txt"; "none.txt"; "testdata/x.png"; "testdata/d.txt"]
    [None; Some a_txt; None; Some x_png; None]
  = ["cat: testdata: Is a directory" +++ nl;
     "cat: none.txt: No such file or directory" +++ nl;
     "cat: cannot open testdata/none.txt" +++ nl] /\
  exists evs w',
    main testdata
      ["testdata"; "testdata/a.txt"; "none.txt"; "testdata/x.png"; "testdata/d.txt"]
      (mkFile [] None) (world newCompleteWriter)
    = (tt, mkWorld w'
             (stderr (world newCompleteWriter)
              +++ joined (failureLines testdata
                            ["testdata"; "testdata/a.txt"; "none.txt"; "testdata/x.png";
                             "testdata/d.txt"]
                            [None; Some a_txt; None; Some x_png; None]))
             (trace (world newCompleteWriter) ++ evs
              ++ map EvStderr
                   (failureLines testdata
                      ["testdata"; "testdata/a.txt"; "none.txt"; "testdata/x.png";
                       "testdata/d.txt"]
                      [None; Some a_txt; None; Some x_png; None]))) /\
    Forall (fun e => isStderr e = false) evs /\
    written evs = delivered [None; Some a_txt; None; Some x_png; None] /\
    length (failureLines testdata
              ["testdata"; "testdata/a.txt"; "none.txt"; "testdata/x.png"; "testdata/d.txt"]
              [None; Some a_txt; None; Some x_png; None])
    = failures [None; Some a_txt; None; Some x_png; None] /\
    forall Bytes : completeWriter -> bytes,
      keeps Bytes ->
      Bytes w' = Bytes (sink (world newCompleteWriter))
                 ++ delivered [None; Some a_txt; None; Some x_png; None].
Proof.
  assert (Hargs : ["testdata"; "testdata/a.txt"; "none.txt"; "testdata/x.png";
                   "testdata/d.txt"] <> []) by discriminate.
  assert (Hacc : accepts_every_write completeWriter) by (intros w q; reflexivity).
  assert (Hall : Forall2 (streams_to testdata)
                   ["testdata"; "testdata/a.txt"; "none.txt"; "testdata/x.png";
                    "testdata/d.txt"]
                   [None; Some a_txt; None; Some x_png; None]).
  { constructor.
    { right. left. exists (Z.lor ModeDir 493). vm_compute. auto. }
    constructor.
    { exists 420%Z. vm_compute. auto. }
    constructor.
    { left. exists (os_PathError "lstat" "none.txt" ENOENT). vm_compute. reflexivity. }
    constructor.
    { exists 420%Z. vm_compute. auto. }
    constructor; [|constructor].
    right. right. exists (Z.lor ModeSymlink 511).
    exists (os_PathError "open" "testdata/none.txt" ENOENT). vm_compute. auto. }
  split; [exact Hargs|]. split; [exact Hacc|]. split; [exact Hall|].
  split; [vm_compute; reflexivity|].
  exact (main_delivers_files_and_counts_failures testdata _ _ (mkFile [] None)
           (world newCompleteWriter) Hargs Hacc Hall).
Defined.

(** ** The flags *)

Lemma parseOne_no_flag (arguments : list string) :
  (forall a rest, arguments = a :: rest -> looksLikeFlag a = false) ->
  parseOne arguments = (arguments, None).
Proof.
  intros Hfirst. destruct arguments as [|a rest]; [reflexivity|].
  specialize (Hfirst a rest eq_refl). unfold looksLikeFlag in Hfirst.
  unfold parseOne. destruct (list_ascii_of_string a) as [|c0 [|c1 cs]];
    [reflexivity | reflexivity |].
  rewrite Hfirst. reflexivity.
Qed.

Lemma parseOne_flag (a : string) (rest : list string) :
  looksLikeFlag a = true -> a <> "--" ->
  exists e,
    (parseOne (a :: rest) = (rest, Some e) /\ (e = ErrHelp \/ exists name, e = NotDefined name))
    \/ parseOne (a :: rest) = (a :: rest, Some (BadSyntax a)).
Proof.
  intros Hflag Hdd. unfold looksLikeFlag in Hflag. unfold parseOne.
  destruct (list_ascii_of_string a) as [|c0 [|c1 cs]] eqn:Ha; try discriminate.
  rewrite Hflag. cbn [negb].
  destruct (isMinus c1) eqn:Hc1.
  - destruct cs as [|n0 name].
    + exfalso. apply Hdd. rewrite <- (string_of_list_ascii_of_string a), Ha.
      apply Ascii.eqb_eq in Hflag, Hc1. subst. reflexivity.
    + cbn [andb]. destruct (isMinus n0 || isEquals n0).
      * exists ErrHelp. right. reflexivity.
      * destruct (String.eqb _ "help" || String.eqb _ "h").
        -- exists ErrHelp. left. auto.
        -- eexists. left. split; [reflexivity|]. right. eexists. reflexivity.
  - cbn [andb]. destruct (isMinus c1 || isEquals c1).
    + exists ErrHelp. right. reflexivity.
    + destruct (String.eqb _ "help" || String.eqb _ "h").
      * exists ErrHelp. left. auto.
      * eexists. left. split; [reflexivity|]. right. eexists. reflexivity.
Qed.

(** X14: when there is no argument, or the first argument does not look
    like a flag (it is shorter than two bytes, a single minus included,
    or does not begin with a minus), the flag parsing prints nothing and
    drops nothing, under every error handling: all the arguments are
    streamed as files, later ones that begin with a minus too. *)
Theorem program_files_pass_through {W : Type} `{Writer W} (fs : FS)
    (handling : ErrorHandling) (arguments : list string) (stdin : File) (s : World W) :
  (forall a rest, arguments = a :: rest -> looksLikeFlag a = false) ->
  program fs handling arguments stdin s
  = (Returned, snd (main fs arguments stdin s)).
Proof.
  intros Hfirst. unfold program, flag_Parse, bind.
  rewrite (parseOne_no_flag arguments Hfirst). unfold ret.
  destruct (main fs arguments stdin s) as [[] s'].
  destruct handling; reflexivity.
Qed.

Lemma program_files_pass_through_witness :
  (forall a rest, ["-"; "-n"; "empty.txt"] = a :: rest -> looksLikeFlag a = false) /\
  program moredata ExitOnError ["-"; "-n"; "empty.txt"] (mkFile [] None)
    (world newCompleteWriter)
  = (Returned,
     snd (main moredata ["-"; "-n"; "empty.txt"] (mkFile [] None) (world newCompleteWriter))).
Proof.
  assert (Hfirst : forall a rest,
             ["-"; "-n"; "empty.txt"] = a :: rest -> looksLikeFlag a = false)
    by (intros a rest E; injection E as <- _; reflexivity).
  split; [exact Hfirst|].
  exact (program_files_pass_through moredata ExitOnError _ (mkFile [] None)
           (world newCompleteWriter) Hfirst).
Defined.

(** The run of the witness: the file named by a single minus is
    streamed, and -n, coming after it, is looked up as a file. *)
Example program_minus_is_a_file :
  program moredata ExitOnError ["-"; "-n"; "empty.txt"] (mkFile [] None)
    (world newCompleteWriter)
  = (Returned,
     mkWorld (mkCompleteWriter (bytes_of_string "dash"))
       ("cat: -n: No such file or directory" +++ nl)
       [EvLstat "-"; EvOpen "-"; EvRead (bytes_of_string "dash");
        EvWrite (bytes_of_string "dash") 4 None; EvRead []; EvClose;
        EvLstat "-n";
        EvLstat "empty.txt"; EvOpen "empty.txt"; EvRead []; EvClose;
        EvStderr ("cat: -n: No such file or directory" +++ nl)]).
Proof. vm_compute. reflexivity. Qed.

(** *** Flags read as text *)

Example asksForHelp_table :
  map asksForHelp
    ["-h"; "--h"; "-help"; "--help"; "-h=1"; "--help=x"; "-help=";
     "-abc"; "-he"; "-helpme"; "--"; "---h"; "-=h"; "h"; "-hel=p"; "-H"]
  = [true; true; true; true; true; true; true;
     false; false; false; false; false; false; false; false; false].
Proof. vm_compute. reflexivity. Qed.

Example illFormed_table :
  map illFormed ["---"; "---x"; "--=x"; "-="; "-=x"; "-abc"; "--n"; "-h"; "-a-b"; "-a=b"]
  = [true; true; true; true; true; false; false; false; false; false].
Proof. vm_compute. reflexivity. Qed.

(** Run the tests on the bytes that are known. *)
Ltac flag_settle :=
  cbn; unfold isMinus, isEquals;
  repeat match goal with E : Ascii.eqb _ _ = false |- _ => rewrite E end;
  cbn.

Ltac flag_decided :=
  solve [ left; split; [reflexivity | split; reflexivity]
        | right; left; split; [reflexivity | split; reflexivity]
        | right; right; split; [reflexivity | split; [reflexivity | eexists; reflexivity]] ].

(** Tell the byte [c] from the byte [lit]. *)
Ltac flag_byte c lit :=
  try (is_var c;
       let E := fresh "E" in
       destruct (Ascii.eqb c lit) eqn:E;
       [apply Ascii.eqb_eq in E; subst c; flag_settle; try flag_decided | ]).

(** The bytes the parser and the help flags look for. *)
Ltac flag_bytes c :=
  flag_byte c "-"%char; flag_byte c "="%char; flag_byte c "h"%char;
  flag_byte c "e"%char; flag_byte c "l"%char; flag_byte c "p"%char;
  flag_settle; try flag_decided.

(** Look at the next byte of the argument. *)
Ltac flag_next :=
  match goal with
  | s : string |- _ =>
      let c := fresh "c" in
      let s' := fresh "s" in
      destruct s as [|c s']; flag_settle; try flag_decided; [flag_bytes c]
  end.

(** What [parseOne] makes of a first argument that looks like a flag,
    told from the text of the argument: an ill-formed flag stays in the
    arguments, a help flag and any other flag are dropped from them. *)
Lemma parseOne_flag_text (a : string) (rest : list string) :
  looksLikeFlag a = true -> a <> "--" ->
  (illFormed a = true /\ asksForHelp a = false /\
   parseOne (a :: rest) = (a :: rest, Some (BadSyntax a))) \/
  (illFormed a = false /\ asksForHelp a = true /\
   parseOne (a :: rest) = (rest, Some ErrHelp)) \/
  (illFormed a = false /\ asksForHelp a = false /\
   exists name, parseOne (a :: rest) = (rest, Some (NotDefined name))).
Proof.
  intros Hflag Hdd. unfold looksLikeFlag in Hflag.
  destruct a as [|c0 [|c1 s]]; try discriminate.
  cbn [list_ascii_of_string] in Hflag.
  unfold isMinus in Hflag. apply Ascii.eqb_eq in Hflag. subst c0.
  unfold parseOne, illFormed, asksForHelp, helpFlags.
  destruct (Ascii.eqb c1 "-") eqn:E1.
  - apply Ascii.eqb_eq in E1. subst c1.
    destruct s as [|n0 s]; [contradiction|].
    flag_settle. flag_bytes n0. do 4 flag_next.
  - flag_settle. flag_bytes c1. do 4 flag_next.
Qed.

(** X15: under the error handling [flag.ExitOnError], the one of the
    command line, a first argument that looks like a flag and is not the
    terminator of two minuses makes the program print the usage banner
    on standard error and exit: with status 0 when the argument is one
    of -h, --h, -help and --help, alone or with an equals sign and a
    value after it, and with status 2 for every other; no file is looked
    up and standard output is untouched. *)
Theorem program_flag_prints_usage_and_exits {W : Type} `{Writer W} (fs : FS)
    (a : string) (rest : list string) (stdin : File) (s : World W) :
  looksLikeFlag a = true ->
  a <> "--" ->
  program fs ExitOnError (a :: rest) stdin s
  = (Exited (if asksForHelp a then 0 else 2),
     mkWorld (sink s) (stderr s +++ usageBanner) (trace s ++ [EvStderr usageBanner])).
Proof.
  intros Hflag Hdd. unfold program, flag_Parse, bind.
  destruct (parseOne_flag_text a rest Hflag Hdd)
    as [(_ & -> & ->) | [(_ & -> & ->) | (_ & -> & name & ->)]]; reflexivity.
Qed.

Lemma program_flag_prints_usage_and_exits_witness :
  looksLikeFlag "--help" = true /\
  "--help" <> "--" /\
  asksForHelp "--help" = true /\
  program testdata ExitOnError ["--help"; "testdata/a.txt"] (mkFile [] None)
    (world newCompleteWriter)
  = (Exited (if asksForHelp "--help" then 0 else 2),
     mkWorld (sink (world newCompleteWriter))
       (stderr (world newCompleteWriter) +++ usageBanner)
       (trace (world newCompleteWriter) ++ [EvStderr usageBanner])).
Proof.
  assert (Hdd : "--help" <> "--") by discriminate.
  split; [reflexivity|]. split; [exact Hdd|]. split; [reflexivity|].
  exact (program_flag_prints_usage_and_exits testdata "--help" ["testdata/a.txt"]
           (mkFile [] None) (world newCompleteWriter) eq_refl Hdd).
Defined.

(** The exit status is 0 for the help flags and 2 for any other. *)
Example program_exit_status :
  map (fun a => fst (program testdata ExitOnError [a; "testdata/a.txt"] (mkFile [] None)
                       (world newCompleteWriter)))
      ["-h"; "--help"; "-help=1"; "-abc"; "--n"; "---"; "-=x"]
  = [Exited 0; Exited 0; Exited 0; Exited 2; Exited 2; Exited 2; Exited 2].
Proof. vm_compute. reflexivity. Qed.

(** X16: under [flag.ContinueOnError], the handling [TestMainProg] gives
    the command line, a first argument that looks like a flag and is not
    the terminator makes the program print the usage banner first and
    then go on as [main] does on the arguments left: all of them, the
    flag included, when the flag is ill-formed (after its one or two
    minuses comes another minus or an equals sign), and those after the
    flag otherwise. *)
Theorem program_flag_continues {W : Type} `{Writer W} (fs : FS)
    (a : string) (rest : list string) (stdin : File) (s : World W) :
  looksLikeFlag a = true ->
  a <> "--" ->
  program fs ContinueOnError (a :: rest) stdin s
  = (Returned,
     snd (main fs (if illFormed a then a :: rest else rest) stdin
            (mkWorld (sink s) (stderr s +++ usageBanner)
               (trace s ++ [EvStderr usageBanner])))).
Proof.
  intros Hflag Hdd. unfold program, flag_Parse, bind.
  destruct (parseOne_flag_text a rest Hflag Hdd)
    as [(-> & _ & ->) | [(-> & _ & ->) | (-> & _ & name & ->)]];
    unfold Usage, Fprintf_Stderr, ret;
    match goal with |- context [main fs ?left stdin ?st] =>
      destruct (main fs left stdin st) as [[] s'] end; reflexivity.
Qed.

Lemma program_flag_continues_witness :
  looksLikeFlag "-abc" = true /\
  "-abc" <> "--" /\
  illFormed "-abc" = false /\
  program testdata ContinueOnError ["-abc"] (mkFile [] None) (world newCompleteWriter)
  = (Returned,
     snd (main testdata (if illFormed "-abc" then ["-abc"] else []) (mkFile [] None)
            (mkWorld (sink (world newCompleteWriter))
               (stderr (world newCompleteWriter) +++ usageBanner)
               (trace (world newCompleteWriter) ++ [EvStderr usageBanner])))).
Proof.
  assert (Hdd : "-abc" <> "--") by discriminate.
  split; [reflexivity|]. split; [exact Hdd|]. split; [reflexivity|].
  exact (program_flag_continues testdata "-abc" [] (mkFile [] None)
           (world newCompleteWriter) eq_refl Hdd).
Defined.

(** The third case of [TestMainProg]: the banner and nothing else. *)
Example test_main_usage :
  program testdata ContinueOnError ["-abc"] (mkFile [] None) (world newCompleteWriter)
  = (Returned, mkWorld newCompleteWriter usageBanner [EvStderr usageBanner; EvRead []]).
Proof. vm_compute. reflexivity. Qed.

(** An ill-formed flag is kept and looked up as a file. *)
Example program_ill_formed_flag :
  program moredata ContinueOnError ["-=x"; "one.txt"] (mkFile [] None)
    (world newCompleteWriter)
  = (Returned,
     mkWorld (mkCompleteWriter (bytes_of_string "x"))
       (usageBanner +++ "cat: -=x: No such file or directory" +++ nl)
       [EvStderr usageBanner; EvLstat "-=x";
        EvLstat "one.txt"; EvOpen "one.txt"; EvRead (bytes_of_string "x");
        EvWrite (bytes_of_string "x") 1 None; EvRead []; EvClose;
        EvStderr ("cat: -=x: No such file or directory" +++ nl)]).
Proof. vm_compute. reflexivity. Qed.

(** After the terminator of two minuses every argument is a file, under
    every error handling: the terminator is dropped and nothing is
    printed by the parsing. *)
Lemma program_double_dash {W : Type} `{Writer W} (fs : FS)
    (handling : ErrorHandling) (rest : list string) (stdin : File) (s : World W) :
  program fs handling ("--" :: rest) stdin s = (Returned, snd (main fs rest stdin s)).
Proof.
  unfold program, flag_Parse, bind. cbn [parseOne list_ascii_of_string]. unfold ret.
  cbn. destruct (main fs rest stdin s) as [[] s']. destruct handling; reflexivity.
Qed.

(** ** The loop of Clean, element by element *)

Lemma dot_not_separator (c : ascii) :
  filepath.isDot c = true -> filepath.IsPathSeparator c = false.
Proof.
  unfold filepath.isDot, filepath.IsPathSeparator. intros Hc.
  apply Ascii.eqb_eq in Hc. subst c. reflexivity.
Qed.

(** What [element] cuts off is the first component, and the elements of
    what it leaves are the later ones. *)
Lemma comps_element (p : list ascii) :
  fst (comps p) = fst (filepath.element p) /\
  snd (comps p) = elems (snd (filepath.element p)).
Proof.
  induction p as [|c p [IH1 IH2]]; [split; reflexivity|].
  cbn [comps filepath.element]. destruct (comps p) as [e es] eqn:Hc.
  cbn [fst snd] in IH1, IH2.
  destruct (filepath.IsPathSeparator c) eqn:Hsep.
  - cbn [fst snd]. split; [reflexivity|].
    unfold elems. cbn [comps]. rewrite Hc, Hsep. reflexivity.
  - destruct (filepath.element p) as [e' rest]. cbn [fst snd] in *.
    subst. split; reflexivity.
Qed.

Lemma elems_separator (c : ascii) (p : list ascii) :
  filepath.IsPathSeparator c = true -> elems (c :: p) = elems p.
Proof.
  intros Hsep. unfold elems. cbn [comps].
  destruct (comps p) as [e es]. rewrite Hsep. reflexivity.
Qed.

Lemma elems_element (c : ascii) (p : list ascii) :
  filepath.IsPathSeparator c = false ->
  elems (c :: p)
  = fst (filepath.element (c :: p)) :: elems (snd (filepath.element (c :: p))).
Proof.
  intros Hsep. destruct (comps_element (c :: p)) as [H1 H2].
  unfold elems at 1. rewrite H1, H2.
  cbn [filepath.element]. rewrite Hsep.
  destruct (filepath.element p) as [e rest]. reflexivity.
Qed.

Lemma element_plain (c : ascii) (p : list ascii) :
  filepath.IsPathSeparator c = false ->
  plainElem (fst (filepath.element (c :: p))).
Proof.
  intros Hsep. cbn [filepath.element]. rewrite Hsep.
  assert (Hall : forall q, Forall (fun a => filepath.IsPathSeparator a = false)
                             (fst (filepath.element q))).
  { induction q as [|a q IH]; [constructor|].
    cbn [filepath.element]. destruct (filepath.IsPathSeparator a) eqn:Ha; [constructor|].
    destruct (filepath.element q) as [e rest]. cbn [fst] in *. constructor; assumption. }
  specialize (Hall p). destruct (filepath.element p) as [e rest]. cbn [fst] in *.
  split; [discriminate | constructor; assumption].
Qed.

Lemma elems_plain (p : list ascii) : Forall plainElem (elems p).
Proof.
  remember (length p) as n eqn:Hn. revert p Hn.
  induction n as [n IH] using lt_wf_ind. intros p Hn.
  destruct p as [|c p]; [constructor|].
  destruct (filepath.IsPathSeparator c) eqn:Hsep.
  - rewrite (elems_separator c p Hsep). apply (IH (length p)); [subst; simpl; lia | reflexivity].
  - rewrite (elems_element c p Hsep). constructor; [apply element_plain; exact Hsep|].
    apply (IH (length (snd (filepath.element (c :: p))))); [|reflexivity].
    subst n. cbn [filepath.element]. rewrite Hsep.
    pose proof (element_length p) as Hl.
    destruct (filepath.element p) as [e rest]. cbn [snd length] in *. lia.
Qed.

(** A turn of the loop on a byte that is no separator is [cleanElem] on
    the element that begins there. *)
Lemma cleanLoop_elem (fuel : nat) (rooted : bool) (c : ascii) (p1 out : list ascii)
    (dotdot : nat) :
  filepath.IsPathSeparator c = false ->
  filepath.cleanLoop (S fuel) rooted (c :: p1) out dotdot
  = filepath.cleanLoop fuel rooted (snd (filepath.element (c :: p1)))
      (fst (cleanElem rooted (fst (filepath.element (c :: p1))) (out, dotdot)))
      (snd (cleanElem rooted (fst (filepath.element (c :: p1))) (out, dotdot))).
Proof.
  intros Hsep. cbn [filepath.cleanLoop]. rewrite Hsep.
  cbn [filepath.element]. rewrite Hsep.
  destruct p1 as [|c1 p2].
  - cbn [filepath.element fst snd tl]. unfold cleanElem.
    cbn [isDotElem isDotDotElem]. rewrite andb_true_r, andb_false_r.
    destruct (filepath.isDot c); reflexivity.
  - cbn [filepath.element]. destruct (filepath.IsPathSeparator c1) eqn:Hsep1.
    + cbn [fst snd]. unfold cleanElem. cbn [isDotElem isDotDotElem].
      rewrite andb_true_r.
      destruct (filepath.isDot c) eqn:Hc; [reflexivity|].
      cbn [andb]. reflexivity.
    + rewrite andb_false_r.
      destruct p2 as [|c2 p3].
      * cbn [filepath.element fst snd tl]. unfold cleanElem.
        cbn [isDotElem isDotDotElem].
        destruct (filepath.isDot c && filepath.isDot c1).
        -- destruct (dotdot <? length out); [reflexivity|].
           destruct (negb rooted); reflexivity.
        -- reflexivity.
      * cbn [filepath.element]. destruct (filepath.IsPathSeparator c2) eqn:Hsep2.
        -- cbn [fst snd tl]. unfold cleanElem. cbn [isDotElem isDotDotElem].
           rewrite andb_true_r.
           destruct (filepath.isDot c && filepath.isDot c1).
           ++ destruct (dotdot <? length out); [reflexivity|].
              destruct (negb rooted); reflexivity.
           ++ reflexivity.
        -- rewrite !andb_false_r.
           destruct (filepath.element p3) as [e3 rest3]. cbn [fst snd].
           unfold cleanElem. cbn [isDotElem isDotDotElem].
           try rewrite Hsep1; try rewrite Hsep2. reflexivity.
Qed.

(** The loop is [cleanElem] folded over the elements of the path. *)
Lemma cleanLoop_fold (fuel : nat) :
  forall (rooted : bool) (p out : list ascii) (dotdot : nat),
    length p <= fuel ->
    filepath.cleanLoop fuel rooted p out dotdot
    = fst (fold_left (fun st e => cleanElem rooted e st) (elems p) (out, dotdot)).
Proof.
  induction fuel as [|fuel IH]; intros rooted p out dotdot Hlen.
  - destruct p; [reflexivity | simpl in Hlen; lia].
  - destruct p as [|c p1]; [reflexivity|].
    destruct (filepath.IsPathSeparator c) eqn:Hsep.
    + rewrite (elems_separator c p1 Hsep). cbn [filepath.cleanLoop]. rewrite Hsep.
      apply IH. simpl in Hlen. lia.
    + rewrite (cleanLoop_elem fuel rooted c p1 out dotdot Hsep).
      rewrite (elems_element c p1 Hsep). cbn [fold_left].
      destruct (cleanElem rooted (fst (filepath.element (c :: p1))) (out, dotdot))
        as [out' dotdot'].
      cbn [fst snd]. apply IH.
      cbn [filepath.element]. rewrite Hsep.
      pose proof (element_length p1) as Hl.
      destruct (filepath.element p1) as [e rest]. cbn [snd length] in *. lia.
Qed.

(** [Clean] is that fold, from the leading separator of a rooted path or
    from nothing, the empty result turned into a dot. *)
Lemma Clean_fold (path : string) :
  list_ascii_of_string (filepath.Clean path)
  = orDot (fst (fold_left
                  (fun st e => cleanElem (isRooted (list_ascii_of_string path)) e st)
                  (elems (list_ascii_of_string path))
                  (if isRooted (list_ascii_of_string path)
                   then ([filepath.Separator], 1) else ([], 0)))).
Proof.
  unfold filepath.Clean.
  destruct (list_ascii_of_string path) as [|c p]; [reflexivity|].
  rewrite list_ascii_of_string_of_list_ascii. cbn [isRooted].
  destruct (filepath.IsPathSeparator c) eqn:Hsep.
  - rewrite (elems_separator c p Hsep).
    rewrite cleanLoop_fold by (cbn [length]; lia). reflexivity.
  - rewrite cleanLoop_fold by (cbn [length]; lia). reflexivity.
Qed.

(** ** The buffer of Clean as a stack of elements *)

Lemma render_step (rooted : bool) (e : list ascii) (below : list (list ascii)) :
  render rooted (e :: below)
  = (match below with
     | [] => render rooted []
     | _ :: _ => render rooted below ++ [filepath.Separator]
     end) ++ e.
Proof. destruct below; reflexivity. Qed.

Lemma render_grows (rooted : bool) (e : list ascii) (below : list (list ascii)) :
  e <> [] -> length (render rooted below) < length (render rooted (e :: below)).
Proof.
  intros He. rewrite render_step.
  assert (0 < length e) by (destruct e; [contradiction | simpl; lia]).
  destruct below; rewrite ?length_app; cbn [length]; lia.
Qed.

Lemma render_monotone (rooted : bool) (above below : list (list ascii)) :
  Forall (fun e => e <> []) above ->
  length (render rooted below) <= length (render rooted (above ++ below)).
Proof.
  induction 1 as [|e above He _ IH]; [cbn [app]; lia|].
  cbn [app]. pose proof (render_grows rooted e (above ++ below) He). lia.
Qed.

(** The test of the loop for writing a separator before an element: the
    stack is not empty. *)
Lemma render_needs_separator (rooted : bool) (stack : list (list ascii)) :
  Forall (fun e => e <> []) stack ->
  (rooted && negb (length (render rooted stack) =? 1))
  || (negb rooted && negb (length (render rooted stack) =? 0))
  = match stack with [] => false | _ :: _ => true end.
Proof.
  intros Hall. destruct stack as [|e below].
  - destruct rooted; reflexivity.
  - inversion Hall as [|? ? He Hbelow]; subst.
    pose proof (render_grows rooted e below He) as Hg.
    pose proof (render_monotone rooted below [] Hbelow) as Hm.
    rewrite app_nil_r in Hm.
    assert (Ht : length (render true []) = 1) by reflexivity.
    assert (Hf : length (render false []) = 0) by reflexivity.
    destruct rooted; cbn [andb negb orb].
    + destruct (Nat.eqb_spec (length (render true (e :: below))) 1); [lia | reflexivity].
    + destruct (Nat.eqb_spec (length (render false (e :: below))) 0); [lia | reflexivity].
Qed.

Lemma backtrack_in_element (o mid e : list ascii) (dotdot : nat) :
  Forall (fun c => filepath.IsPathSeparator c = false) e ->
  (mid = [filepath.Separator] /\ dotdot <= length o) \/ (mid = [] /\ dotdot = length o) ->
  forall i, i < length e ->
    filepath.backtrack (o ++ mid ++ e) dotdot (length o + length mid + i) = length o.
Proof.
  intros He Hmid.
  assert (Hnth : forall i, i < length e ->
            filepath.IsPathSeparator (nth (length o + length mid + i) (o ++ mid ++ e) "000"%char)
            = false).
  { intros i Hi. rewrite app_nth2 by lia. rewrite app_nth2 by lia.
    replace (length o + length mid + i - length o - length mid) with i by lia.
    rewrite Forall_forall in He. apply He. apply nth_In. exact Hi. }
  induction i as [|i IH]; intros Hi.
  - rewrite Nat.add_0_r. pose proof (Hnth 0 Hi) as Hc. rewrite Nat.add_0_r in Hc.
    destruct Hmid as [[-> Hdd] | [-> Hdd]]; cbn [length] in *.
    + rewrite Nat.add_1_r in *. cbn [filepath.backtrack]. rewrite Hc.
      replace (dotdot <? S (length o)) with true by (symmetry; apply Nat.ltb_lt; lia).
      cbn [andb negb].
      destruct (length o) as [|n] eqn:Hn; [reflexivity|].
      cbn [filepath.backtrack].
      replace (nth (S n) (o ++ [filepath.Separator] ++ e) "000"%char)
        with filepath.Separator.
      * replace (filepath.IsPathSeparator filepath.Separator) with true by reflexivity.
        rewrite andb_false_r. reflexivity.
      * rewrite app_nth2 by lia. rewrite Hn, Nat.sub_diag. reflexivity.
    + rewrite Nat.add_0_r. subst dotdot.
      destruct (length o) as [|n]; [reflexivity|].
      cbn [filepath.backtrack]. rewrite Nat.ltb_irrefl. reflexivity.
  - rewrite Nat.add_succ_r. cbn [filepath.backtrack].
    rewrite <- Nat.add_succ_r. rewrite (Hnth (S i) Hi). rewrite Nat.add_succ_r.
    replace (dotdot <? S (length o + length mid + i)) with true
      by (symmetry; apply Nat.ltb_lt; destruct Hmid as [[_ ?]|[_ ?]]; lia).
    cbn [andb negb]. apply IH. lia.
Qed.

(** Backtracking over the last element goes to where it was appended. *)
Lemma backtrack_spec (o mid e : list ascii) (dotdot : nat) :
  e <> [] ->
  Forall (fun c => filepath.IsPathSeparator c = false) e ->
  (mid = [filepath.Separator] /\ dotdot <= length o) \/ (mid = [] /\ dotdot = length o) ->
  filepath.backtrack (o ++ mid ++ e) dotdot (length (o ++ mid ++ e) - 1) = length o.
Proof.
  intros Hne He Hmid.
  assert (0 < length e) by (destruct e; [contradiction | simpl; lia]).
  rewrite !length_app.
  replace (length o + (length mid + length e) - 1)
    with (length o + length mid + (length e - 1)) by lia.
  apply backtrack_in_element; [assumption | assumption | lia].
Qed.

Lemma dotdotElem_plain : plainElem dotdotElem.
Proof. split; [discriminate | repeat constructor]. Qed.

Lemma cleanStack_plain (rooted : bool) (names : list (list ascii)) (k : nat) :
  cleanStack rooted names k -> Forall plainElem (names ++ repeat dotdotElem k).
Proof.
  intros [Hnames _]. apply Forall_app. split.
  - eapply Forall_impl; [|exact Hnames]. intros e [He _]. exact He.
  - induction k as [|k IH]; constructor; [exact dotdotElem_plain | exact IH].
Qed.

Lemma plain_nonempty (stack : list (list ascii)) :
  Forall plainElem stack -> Forall (fun e => e <> []) stack.
Proof. apply Forall_impl. intros e [He _]. exact He. Qed.

(** A name is pushed. *)
Lemma cleanElem_name (rooted : bool) (e : list ascii) (stack : list (list ascii))
    (dotdot : nat) :
  nameElem e -> Forall (fun e => e <> []) stack ->
  cleanElem rooted e (render rooted stack, dotdot) = (render rooted (e :: stack), dotdot).
Proof.
  intros (_ & Hdot & Hdotdot) Hstack. unfold cleanElem.
  rewrite Hdot, Hdotdot, (render_needs_separator rooted stack Hstack), render_step.
  destruct stack; reflexivity.
Qed.

(** Two dots pop the name on top. *)
Lemma cleanElem_pop (rooted : bool) (e e0 : list ascii) (names : list (list ascii))
    (k : nat) :
  isDotDotElem e = true -> cleanStack rooted (e0 :: names) k ->
  cleanElem rooted e (render rooted ((e0 :: names) ++ repeat dotdotElem k),
                      length (render rooted (repeat dotdotElem k)))
  = (render rooted (names ++ repeat dotdotElem k),
     length (render rooted (repeat dotdotElem k))).
Proof.
  intros He Hstack.
  pose proof (plain_nonempty _ (cleanStack_plain rooted _ k Hstack)) as Hne.
  destruct Hstack as [Hnames Hk].
  inversion Hnames as [|? ? [[He0 Hsep0] _] Hnames']; subst.
  cbn [app] in Hne. inversion Hne as [|? ? _ Hne']; subst.
  assert (Hne'' : Forall (fun e => e <> []) names)
    by (apply Forall_app in Hne' as [? _]; assumption).
  pose proof (render_monotone rooted names (repeat dotdotElem k) Hne'') as Hmono.
  pose proof (render_grows rooted e0 (names ++ repeat dotdotElem k) He0) as Hgrow.
  unfold cleanElem.
  assert (Hdot : isDotElem e = false)
    by (destruct e as [|c1 [|c2 [|c3 e]]]; try discriminate; reflexivity).
  rewrite Hdot, He. cbn [app].
  replace (length (render rooted (repeat dotdotElem k))
           <? length (render rooted (e0 :: names ++ repeat dotdotElem k)))
    with true by (symmetry; apply Nat.ltb_lt; lia).
  f_equal. rewrite render_step.
  set (below := names ++ repeat dotdotElem k) in *.
  assert (Hmid : exists mid,
             (match below with
              | [] => render rooted []
              | _ :: _ => render rooted below ++ [filepath.Separator]
              end) ++ e0 = render rooted below ++ mid ++ e0 /\
             ((mid = [filepath.Separator] /\
               length (render rooted (repeat dotdotElem k)) <= length (render rooted below)) \/
              (mid = [] /\
               length (render rooted (repeat dotdotElem k)) = length (render rooted below)))).
  { destruct below as [|b bs] eqn:Hbelow.
    - exists []. split; [reflexivity|]. right. split; [reflexivity|].
      subst below. apply app_eq_nil in Hbelow as [_ ->]. reflexivity.
    - exists [filepath.Separator]. split; [rewrite <- app_assoc; reflexivity|].
      left. split; [reflexivity | exact Hmono]. }
  destruct Hmid as (mid & -> & Hmid).
  rewrite (backtrack_spec _ mid e0 _ He0 Hsep0 Hmid).
  rewrite firstn_app, Nat.sub_diag, firstn_all, firstn_O, app_nil_r. reflexivity.
Qed.

(** Two dots that cannot pop are pushed on a path that is not rooted. *)
Lemma cleanElem_dotdot (e : list ascii) (k : nat) :
  isDotDotElem e = true ->
  cleanElem false e (render false (repeat dotdotElem k),
                     length (render false (repeat dotdotElem k)))
  = (render false (repeat dotdotElem (S k)),
     length (render false (repeat dotdotElem (S k)))).
Proof.
  intros He. unfold cleanElem.
  assert (Hdot : isDotElem e = false)
    by (destruct e as [|c1 [|c2 [|c3 e]]]; try discriminate; reflexivity).
  rewrite Hdot, He, Nat.ltb_irrefl. cbn [negb repeat]. rewrite render_step.
  destruct k as [|k]; [reflexivity|].
  assert (Hpos : 0 < length (render false (repeat dotdotElem (S k)))).
  { cbn [repeat]. pose proof (render_grows false dotdotElem (repeat dotdotElem k)) as Hg.
    assert (dotdotElem <> []) by discriminate. specialize (Hg H). lia. }
  replace (0 <? length (render false (repeat dotdotElem (S k)))) with true
    by (symmetry; apply Nat.ltb_lt; exact Hpos).
  reflexivity.
Qed.

(** Two dots at the root are dropped. *)
Lemma cleanElem_root (e : list ascii) :
  isDotDotElem e = true ->
  cleanElem true e (render true [], length (render true [])) = (render true [], length (render true [])).
Proof.
  intros He. unfold cleanElem.
  assert (Hdot : isDotElem e = false)
    by (destruct e as [|c1 [|c2 [|c3 e]]]; try discriminate; reflexivity).
  rewrite Hdot, He. reflexivity.
Qed.

(** The loop keeps the buffer the path of a stack of names above two-dot
    elements, and the mark at the end of those. *)
Lemma fold_cleanStack (rooted : bool) (es : list (list ascii)) :
  Forall plainElem es ->
  forall (names : list (list ascii)) (k : nat),
    cleanStack rooted names k ->
    exists names' k',
      cleanStack rooted names' k' /\
      fold_left (fun st e => cleanElem rooted e st) es
        (render rooted (names ++ repeat dotdotElem k),
         length (render rooted (repeat dotdotElem k)))
      = (render rooted (names' ++ repeat dotdotElem k'),
         length (render rooted (repeat dotdotElem k'))).
Proof.
  induction 1 as [|e es He _ IH]; intros names k Hstack.
  - exists names, k. auto.
  - cbn [fold_left].
    destruct (isDotElem e) eqn:Hdot.
    { unfold cleanElem at 2. rewrite Hdot. apply IH. exact Hstack. }
    destruct (isDotDotElem e) eqn:Hdotdot.
    { destruct names as [|e0 names].
      - destruct rooted.
        + destruct Hstack as [Hn Hk]. rewrite (Hk eq_refl). cbn [app repeat].
          rewrite (cleanElem_root e Hdotdot).
          apply (IH [] 0). split; [constructor | auto].
        + cbn [app]. rewrite (cleanElem_dotdot e k Hdotdot).
          apply (IH [] (S k)). split; [constructor | discriminate].
      - rewrite (cleanElem_pop rooted e e0 names k Hdotdot Hstack).
        apply IH. destruct Hstack as [Hn Hk]. inversion Hn; subst. split; assumption. }
    assert (Hname : nameElem e) by (split; [exact He | auto]).
    rewrite (cleanElem_name rooted e _ _ Hname
               (plain_nonempty _ (cleanStack_plain rooted names k Hstack))).
    apply (IH (e :: names) k). destruct Hstack as [Hn Hk].
    split; [constructor; assumption | exact Hk].
Qed.

(** The form of every cleaned path. *)
Lemma Clean_stack (path : string) :
  exists names k,
    cleanStack (isRooted (list_ascii_of_string path)) names k /\
    list_ascii_of_string (filepath.Clean path)
    = orDot (render (isRooted (list_ascii_of_string path)) (names ++ repeat dotdotElem k)).
Proof.
  rewrite Clean_fold.
  set (rooted := isRooted (list_ascii_of_string path)).
  assert (Hinit : (if rooted then ([filepath.Separator], 1) else ([], 0))
                  = (render rooted ([] ++ repeat dotdotElem 0),
                     length (render rooted (repeat dotdotElem 0))))
    by (destruct rooted; reflexivity).
  rewrite Hinit.
  destruct (fold_cleanStack rooted _ (elems_plain (list_ascii_of_string path)) [] 0)
    as (names & k & Hstack & Hfold).
  { split; [constructor | auto]. }
  rewrite Hfold. exists names, k. split; [exact Hstack | reflexivity].
Qed.

(** ** Cleaning a cleaned path *)

Lemma consElem_app (e : list ascii) (es more : list (list ascii)) :
  consElem e (es ++ more) = consElem e es ++ more.
Proof. destruct e; reflexivity. Qed.

Lemma comps_app_separator (x y : list ascii) :
  comps (x ++ filepath.Separator :: y) = (fst (comps x), snd (comps x) ++ elems y).
Proof.
  induction x as [|c x IH].
  - cbn [app comps]. unfold elems. destruct (comps y) as [e es].
    replace (filepath.IsPathSeparator filepath.Separator) with true by reflexivity.
    reflexivity.
  - cbn [app comps]. rewrite IH. destruct (comps x) as [e es]. cbn [fst snd].
    destruct (filepath.IsPathSeparator c); [|reflexivity].
    rewrite consElem_app. reflexivity.
Qed.

Lemma elems_app_separator (x y : list ascii) :
  elems (x ++ filepath.Separator :: y) = elems x ++ elems y.
Proof.
  unfold elems at 1. rewrite comps_app_separator. cbn [fst snd].
  rewrite consElem_app. reflexivity.
Qed.

Lemma elems_single (e : list ascii) : plainElem e -> elems e = [e].
Proof.
  intros [Hne Hsep].
  assert (Hc : comps e = (e, [])).
  { induction Hsep as [|c e Hc _ IH]; [reflexivity|].
    cbn [comps]. destruct e as [|c' e'].
    - cbn [comps]. rewrite Hc. reflexivity.
    - rewrite IH by discriminate. rewrite Hc. reflexivity. }
  unfold elems. rewrite Hc. destruct e; [contradiction | reflexivity].
Qed.

(** The elements of the path of a stack are the stack. *)
Lemma elems_render (rooted : bool) (stack : list (list ascii)) :
  Forall plainElem stack -> elems (render rooted stack) = rev stack.
Proof.
  induction 1 as [|e below He _ IH].
  - destruct rooted; reflexivity.
  - rewrite render_step. cbn [rev]. destruct below as [|b bs].
    + destruct rooted; cbn [render app rev].
      * rewrite elems_separator by reflexivity. apply elems_single. exact He.
      * apply elems_single. exact He.
    + rewrite <- app_assoc. cbn [app]. rewrite elems_app_separator, IH.
      rewrite (elems_single e He). reflexivity.
Qed.

Lemma render_rooted (stack : list (list ascii)) :
  exists rest, render true stack = filepath.Separator :: rest.
Proof.
  induction stack as [|e below [rest IH]]; [exists []; reflexivity|].
  rewrite render_step. destruct below; [exists e; reflexivity|].
  rewrite IH. eexists. reflexivity.
Qed.

Lemma render_relative (stack : list (list ascii)) :
  Forall plainElem stack -> isRooted (render false stack) = false.
Proof.
  induction 1 as [|e below He Hbelow IH]; [reflexivity|].
  rewrite render_step. destruct below as [|b bs].
  - cbn [render app]. destruct He as [Hne Hsep].
    destruct e as [|c e]; [contradiction|]. inversion Hsep; subst. assumption.
  - inversion Hbelow as [|? ? [Hb _] _]; subst.
    pose proof (render_grows false b bs Hb) as Hg.
    destruct (render false (b :: bs)) as [|c r]; [cbn [length] in Hg; lia|].
    exact IH.
Qed.

(** The path of a stack is rooted when the stack is. *)
Lemma isRooted_render (rooted : bool) (stack : list (list ascii)) :
  Forall plainElem stack -> isRooted (orDot (render rooted stack)) = rooted.
Proof.
  intros Hstack. destruct rooted.
  - destruct (render_rooted stack) as [rest ->]. reflexivity.
  - pose proof (render_relative stack Hstack) as Hr.
    destruct (render false stack); [reflexivity | exact Hr].
Qed.

(** Running the loop over the elements of a clean stack builds its path. *)
Lemma fold_render (rooted : bool) (names : list (list ascii)) (k : nat) :
  cleanStack rooted names k ->
  fold_left (fun st e => cleanElem rooted e st) (rev (names ++ repeat dotdotElem k))
    (render rooted [], length (render rooted []))
  = (render rooted (names ++ repeat dotdotElem k),
     length (render rooted (repeat dotdotElem k))).
Proof.
  intros Hstack. rewrite rev_app_distr, fold_left_app.
  assert (Hdots : fold_left (fun st e => cleanElem rooted e st)
                    (rev (repeat dotdotElem k))
                    (render rooted [], length (render rooted []))
                  = (render rooted (repeat dotdotElem k),
                     length (render rooted (repeat dotdotElem k)))).
  { destruct Hstack as [_ Hk]. clear names.
    induction k as [|k IH]; [reflexivity|].
    destruct rooted; [discriminate (Hk eq_refl)|].
    cbn [repeat rev]. rewrite fold_left_app, IH by discriminate.
    cbn [fold_left]. apply (cleanElem_dotdot dotdotElem k). reflexivity. }
  rewrite Hdots. clear Hdots.
  induction names as [|e names IH]; [reflexivity|].
  assert (Hbelow : cleanStack rooted names k)
    by (destruct Hstack as [Hn Hk]; inversion Hn; subst; split; assumption).
  cbn [rev app]. rewrite fold_left_app, (IH Hbelow). cbn [fold_left].
  destruct Hstack as [Hn _]. inversion Hn; subst.
  apply cleanElem_name; [assumption|].
  exact (plain_nonempty _ (cleanStack_plain rooted names k Hbelow)).
Qed.

(** [Clean] leaves the path of a clean stack as it is. *)
Lemma Clean_render (rooted : bool) (names : list (list ascii)) (k : nat) :
  cleanStack rooted names k ->
  filepath.Clean (string_of_list_ascii (orDot (render rooted (names ++ repeat dotdotElem k))))
  = string_of_list_ascii (orDot (render rooted (names ++ repeat dotdotElem k))).
Proof.
  intros Hstack.
  pose proof (cleanStack_plain rooted names k Hstack) as Hplain.
  destruct (render rooted (names ++ repeat dotdotElem k)) as [|c r] eqn:Hr.
  - reflexivity.
  - rewrite <- (string_of_list_ascii_of_string (filepath.Clean _)).
    f_equal. rewrite Clean_fold, list_ascii_of_string_of_list_ascii.
    cbn [orDot]. rewrite <- Hr.
    assert (Hrooted : isRooted (render rooted (names ++ repeat dotdotElem k)) = rooted).
    { pose proof (isRooted_render rooted _ Hplain) as Hi. rewrite Hr in Hi |- *. exact Hi. }
    rewrite Hrooted, (elems_render rooted _ Hplain).
    replace (if rooted then ([filepath.Separator], 1) else ([], 0))
      with (render rooted [], length (render rooted []))
      by (destruct rooted; reflexivity).
    rewrite (fold_render rooted names k Hstack). cbn [fst]. rewrite Hr. reflexivity.
Qed.

Lemma Clean_Clean (path : string) :
  filepath.Clean (filepath.Clean path) = filepath.Clean path.
Proof.
  destruct (Clean_stack path) as (names & k & Hstack & Hform).
  rewrite <- (string_of_list_ascii_of_string (filepath.Clean path)), Hform.
  exact (Clean_render _ names k Hstack).
Qed.

(** X17: cleaning is idempotent: the cleaned form of a cleaned path is
    that path, for every path. *)
Theorem Clean_idempotent (path : string) :
  filepath.Clean (filepath.Clean path) = filepath.Clean path.
Proof. exact (Clean_Clean path). Qed.

(** X18: [cat] on the cleaned form of a path does what [cat] does on the
    path itself: the same error, the same calls, the same writes. *)
Theorem cat_cleaned_path {W : Type} `{Writer W} (fs : FS) (p : string) (s : World W) :
  cat fs (filepath.Clean p) s = cat fs p s.
Proof. unfold cat. rewrite Clean_Clean. reflexivity. Qed.

(** X19: the form of every cleaned path.  It is rooted exactly when the
    path given is; it is a single dot, or it is made of two-dot elements,
    none in a rooted path, followed by names that are not empty, hold no
    separator and are neither a dot nor two dots, with one separator
    between two elements and, in a rooted path, one before the first. *)
Theorem Clean_canonical (path : string) :
  isRooted (list_ascii_of_string (filepath.Clean path))
  = isRooted (list_ascii_of_string path) /\
  exists names k,
    Forall nameElem names /\
    (isRooted (list_ascii_of_string path) = true -> k = 0) /\
    list_ascii_of_string (filepath.Clean path)
    = orDot (render (isRooted (list_ascii_of_string path))
               (names ++ repeat dotdotElem k)).
Proof.
  destruct (Clean_stack path) as (names & k & Hstack & Hform).
  split.
  - rewrite Hform. apply isRooted_render. exact (cleanStack_plain _ names k Hstack).
  - exists names, k. destruct Hstack as [Hn Hk]. auto.
Qed.

(** The form of some cleaned paths, read off the stack. *)
Example render_table :
  map (fun '(rooted, stack) => string_of_list_ascii (orDot (render rooted stack)))
      [ (false, []); (true, []);
        (false, [list_ascii_of_string "b.md"; list_ascii_of_string "testdata"]);
        (true, [list_ascii_of_string "cat"; list_ascii_of_string "bin";
                list_ascii_of_string "usr"]);
        (false, [list_ascii_of_string "x"; dotdotElem; dotdotElem]) ]
  = ["."; "/"; "testdata/b.md"; "/usr/bin/cat"; "../../x"].
Proof. vm_compute. reflexivity. Qed.

(** X20: a cleaned path ends with a separator only when it is the root
    itself: the separators at the end of a path are cleaned away. *)
Theorem Clean_no_trailing_separator (path : string) (before : list ascii) (c : ascii) :
  list_ascii_of_string (filepath.Clean path) = before ++ [c] ->
  filepath.IsPathSeparator c = true ->
  filepath.Clean path = "/".
Proof.
  intros Hlast Hsep.
  destruct (Clean_stack path) as (names & k & Hstack & Hform).
  pose proof (cleanStack_plain _ names k Hstack) as Hplain.
  rewrite Hform in Hlast.
  destruct (names ++ repeat dotdotElem k) as [|e below] eqn:Hs.
  - rewrite <- (string_of_list_ascii_of_string (filepath.Clean path)), Hform.
    destruct (isRooted (list_ascii_of_string path)); [reflexivity|].
    cbn in Hlast. destruct before as [|b before]; [|destruct before; discriminate].
    injection Hlast as <-. discriminate.
  - exfalso. inversion Hplain as [|? ? [Hne He] _]; subst.
    destruct (exists_last Hne) as (e' & x & ->).
    rewrite render_step in Hlast.
    assert (Hx : filepath.IsPathSeparator x = false).
    { rewrite Forall_forall in He. apply He. apply in_or_app. right. left. reflexivity. }
    set (o := match below with
              | [] => render (isRooted (list_ascii_of_string path)) []
              | _ :: _ => render (isRooted (list_ascii_of_string path)) below
                          ++ [filepath.Separator]
              end) in *.
    assert (Hpos : orDot (o ++ e' ++ [x]) = (o ++ e') ++ [x]).
    { rewrite app_assoc. destruct ((o ++ e') ++ [x]) eqn:E; [|reflexivity].
      apply app_eq_nil in E as [_ E]. discriminate. }
    rewrite Hpos in Hlast. apply app_inj_tail in Hlast as [_ ->]. congruence.
Qed.

Lemma Clean_no_trailing_separator_witness :
  list_ascii_of_string (filepath.Clean "//tmp/..//") = [] ++ ["/"%char] /\
  filepath.IsPathSeparator "/"%char = true /\
  filepath.Clean "//tmp/..//" = "/".
Proof.
  split; [reflexivity|]. split; [reflexivity|].
  exact (Clean_no_trailing_separator "//tmp/..//" [] "/"%char eq_refl eq_refl).
Defined.

(** ** The base name of a cleaned path *)

Lemma untilSlash_app (a b : list ascii) :
  Forall (fun c => filepath.IsPathSeparator c = false) a ->
  untilSlash (a ++ b) = a ++ untilSlash b.
Proof.
  induction 1 as [|c a Hc _ IH]; [reflexivity|].
  cbn [app untilSlash]. rewrite Hc, IH. reflexivity.
Qed.

(** The base name of a path that ends with a plain element, after
    nothing or after a separator, is that element. *)
Lemma basename_last_element (o e : list ascii) :
  plainElem e ->
  untilSlash (rev o) = [] ->
  basename (string_of_list_ascii (o ++ e)) = string_of_list_ascii e.
Proof.
  intros [Hne He] Ho.
  destruct (exists_last Hne) as (e' & x & ->).
  apply Forall_app in He as [He' Hx]. inversion Hx as [|? ? Hx' _]; subst.
  unfold basename. rewrite list_ascii_of_string_of_list_ascii.
  rewrite !rev_app_distr. cbn [rev app].
  assert (Htrim : forall r, trimSlashes (x :: r) = x :: r).
  { intros r. destruct r; [reflexivity|]. cbn [trimSlashes]. rewrite Hx'. reflexivity. }
  rewrite Htrim.
  rewrite untilSlash_app by (apply Forall_rev; exact He').
  rewrite Ho, app_nil_r. cbn [rev]. rewrite rev_involutive. reflexivity.
Qed.

(** X21: the base name of a cleaned path, which names the directory in
    the is-a-directory error, is the last element of the cleaned path,
    and the root for the root, which has no element. *)
Theorem basename_Clean (path : string) :
  basename (filepath.Clean path)
  = match elems (list_ascii_of_string (filepath.Clean path)) with
    | [] => "/"
    | e :: es => string_of_list_ascii (last (e :: es) [])
    end.
Proof.
  destruct (Clean_stack path) as (names & k & Hstack & Hform).
  pose proof (cleanStack_plain _ names k Hstack) as Hplain.
  rewrite <- (string_of_list_ascii_of_string (filepath.Clean path)).
  rewrite list_ascii_of_string_of_list_ascii, Hform.
  set (rooted := isRooted (list_ascii_of_string path)) in *.
  destruct (names ++ repeat dotdotElem k) as [|e below] eqn:Hs.
  - destruct rooted; reflexivity.
  - inversion Hplain as [|? ? He Hbelow]; subst.
    assert (Hne : render rooted (e :: below) <> []).
    { pose proof (render_grows rooted e below (proj1 He)) as Hg.
      intros E. rewrite E in Hg. cbn [length] in Hg. lia. }
    assert (Hdot : orDot (render rooted (e :: below)) = render rooted (e :: below))
      by (destruct (render rooted (e :: below)); [contradiction | reflexivity]).
    rewrite Hdot, (elems_render rooted (e :: below) Hplain). cbn [rev].
    assert (Hlast : match rev below ++ [e] with
                    | [] => "/"
                    | e0 :: es => string_of_list_ascii (last (e0 :: es) [])
                    end = string_of_list_ascii e).
    { destruct (rev below ++ [e]) as [|e0 es] eqn:E.
      - apply app_eq_nil in E as [_ E]. discriminate.
      - rewrite <- E, last_last. reflexivity. }
    rewrite Hlast, render_step. apply basename_last_element; [exact He|].
    destruct below as [|b bs].
    + destruct rooted; reflexivity.
    + rewrite rev_app_distr. reflexivity.
Qed.

(** Base names of cleaned paths. *)
Example basename_Clean_table :
  map (fun p => basename (filepath.Clean p))
      ["testdata/sub/"; "a/b/../c"; "./x"; "/"; "/usr/.."; ""; "a/.."; "../.."]
  = ["sub"; "c"; "x"; "/"; "/"; "."; "."; ".."].
Proof. vm_compute. reflexivity. Qed.
